(** * Verification of hack/cmd/report/main.go

    The report generator of the registry operator turns a JUnit-style XML
    report (as written by Chainsaw) into a markdown summary: a heading, a
    badge with the pass/fail counts, and a table with one row per test case,
    sorted by status.

    This file is a shallow embedding of that program.  Go values are
    modelled as follows:
    - [string] is a Go string (a sequence of bytes, compared bytewise);
    - a slice is a [list]; a slice that is updated in place is passed through
      explicitly (state passing);
    - [int] is a [Z] together with its 64-bit wrap-around;
    - a call that may panic returns an [exec];
    - a call that returns an [error] returns a [result].

    Three packages of the standard library decide what the program does
    and are modelled after their sources: [sort] (the order of the rows),
    [flag] (the command line) and [encoding/xml] (the decoder of the
    report). *)

From Stdlib Require Import ZArith Lia Ascii String List Bool DecimalString.
From stdpp Require Import base tactics option list strings sorting.

Local Open Scope string_scope.
Local Open Scope Z_scope.

(** ** Go preliminaries *)

(** The empty string and the newline that [Fprintln] and the format strings
    write. *)
Definition empty : string := EmptyString.
Definition nl : string := String "010"%char EmptyString.
Definition backtick : string := String "096"%char EmptyString.

(** The double quote that [%q] writes. *)
Definition dquote : string := String "034"%char EmptyString.
Definition tab : string := String "009"%char EmptyString.

(** [s[i] == c], for [i < len(s)] *)
Definition byte_is (s : string) (i : nat) (c : ascii) : bool :=
  match String.get i s with
  | Some b => Ascii.eqb b c
  | None => false
  end.

(** [s[n:]] *)
Definition string_from (n : nat) (s : string) : string :=
  String.substring n (String.length s - n) s.

(** Go's [int] on the 64-bit platforms the tool is built for. *)
Definition int_min : Z := - 2 ^ 63.
Definition int_max : Z := 2 ^ 63 - 1.
Definition int_wrap (z : Z) : Z := (z - int_min) mod 2 ^ 64 + int_min.

(** [n++] *)
Definition int_incr (n : Z) : Z := int_wrap (n + 1).

(** The [%d] verb. *)
Definition format_int (n : Z) : string := NilZero.string_of_int (Z.to_int n).

(** Comparison of Go strings: lexicographic on bytes. *)
Definition string_lt (a b : string) : bool :=
  match String.compare a b with Lt => true | _ => false end.
Definition string_gt (a b : string) : bool := string_lt b a.

(** [strings.Join] *)
Fixpoint strings_Join (elems : list string) (sep : string) : string :=
  match elems with
  | [] => empty
  | [e] => e
  | e :: rest => e +:+ sep +:+ strings_Join rest sep
  end.

(** A computation that may panic. *)
Inductive exec (A : Type) : Type :=
| Ret (a : A)
| Panic (msg : string).
Arguments Ret {A} a.
Arguments Panic {A} msg.

#[global] Instance exec_ret : MRet exec := fun A a => Ret a.
#[global] Instance exec_bind : MBind exec := fun A B k m =>
  match m with
  | Ret a => k a
  | Panic msg => Panic msg
  end.

(** [for _, x := range xs { body }] where the body may panic. *)
Fixpoint range_exec {A S : Type} (body : S -> A -> exec S) (xs : list A) (s : S)
  : exec S :=
  match xs with
  | [] => Ret s
  | x :: rest => s' ← body s x; range_exec body rest s'
  end.

(** Go errors: [errors.New]-like leaves and the [%w] wrapper of
    [fmt.Errorf], which keeps the formatted message and the wrapped cause. *)
Inductive error : Type :=
| errorString (s : string)
| wrapError (msg : string) (err : error).

(** [err.Error()] *)
Definition Error (e : error) : string :=
  match e with
  | errorString s => s
  | wrapError msg _ => msg
  end.

(** [errors.Unwrap] *)
Definition Unwrap (e : error) : option error :=
  match e with
  | errorString _ => None
  | wrapError _ err => Some err
  end.

(** [fmt.Errorf(prefix + "%w", err)] *)
Definition Errorf_w (prefix : string) (err : error) : error :=
  wrapError (prefix +:+ Error err) err.

Inductive result (A : Type) : Type :=
| Ok (a : A)
| Err (e : error).
Arguments Ok {A} a.
Arguments Err {A} e.

(** ** Package [sort]

    [Report.Print] sorts the rows with [sort.Slice].  Since Go 1.19 that is
    the pattern-defeating quicksort of [sort/zsortfunc.go]; the functions
    below are that file's, over a slice [data : list A] that every [Swap]
    updates, with [Less i j] reading the slice as it is at the time of the
    call (the closure handed to [sort.Slice] indexes the slice being
    sorted).  Loops whose trip count is not syntactic carry a [fuel]
    argument; the callers pass a bound that the loop cannot exceed. *)

Module sort.

Section zsortfunc.
Context {A : Type} `{!Inhabited A}.
Variable less : A -> A -> bool.

(** [data.Less(i, j)] and [data.Swap(i, j)] *)
Definition Less (data : list A) (i j : nat) : bool :=
  less (data !!! i) (data !!! j).
Definition Swap (data : list A) (i j : nat) : list A :=
  <[j := data !!! i]> (<[i := data !!! j]> data).

(** [for j := i; j > a && data.Less(j, j-1); j-- { data.Swap(j, j-1) }] *)
Fixpoint insert_down (a j : nat) (data : list A) : list A :=
  match j with
  | O => data
  | S j' =>
      if (a <? j)%nat && Less data j j'
      then insert_down a j' (Swap data j j')
      else data
  end.

(** [for i := a + 1; i < b; i++ { ... }], with [n] iterations left. *)
Fixpoint insertion_loop (a i n : nat) (data : list A) : list A :=
  match n with
  | O => data
  | S n' => insertion_loop a (S i) n' (insert_down a i data)
  end.

(** [insertionSort_func] sorts [data[a:b]] using insertion sort. *)
Definition insertionSort_func (data : list A) (a b : nat) : list A :=
  insertion_loop a (a + 1) (b - (a + 1)) data.

(** The loop of [siftDown_func]. *)
Fixpoint siftDown_loop (fuel : nat) (data : list A) (root hi first : nat)
  : list A :=
  match fuel with
  | O => data
  | S fuel' =>
      let child := (2 * root + 1)%nat in
      if (hi <=? child)%nat then data
      else
        let child :=
          if (child + 1 <? hi)%nat
             && Less data (first + child) (first + child + 1)
          then (child + 1)%nat else child in
        if negb (Less data (first + root) (first + child)) then data
        else siftDown_loop fuel' (Swap data (first + root) (first + child))
                           child hi first
  end.

(** [siftDown_func] implements the heap property on [data[lo:hi]]; [first]
    is an offset into the array where the root of the heap lies. *)
Definition siftDown_func (data : list A) (lo hi first : nat) : list A :=
  siftDown_loop hi data lo hi first.

(** [for i := (hi - 1) / 2; i >= 0; i-- { siftDown_func(data, i, hi, first) }] *)
Fixpoint heapify_loop (i : nat) (data : list A) (hi first : nat) : list A :=
  let data := siftDown_func data i hi first in
  match i with
  | O => data
  | S i' => heapify_loop i' data hi first
  end.

(** [for i := hi - 1; i >= 0; i-- { data.Swap(first, first+i);
    siftDown_func(data, lo, i, first) }], where [n] is [i + 1]. *)
Fixpoint pop_loop (n : nat) (data : list A) (first : nat) : list A :=
  match n with
  | O => data
  | S i => pop_loop i (siftDown_func (Swap data first (first + i)) 0 i first)
                    first
  end.

Definition heapSort_func (data : list A) (a b : nat) : list A :=
  let first := a in
  let hi := (b - a)%nat in
  let data := heapify_loop ((hi - 1) / 2) data hi first in
  pop_loop hi data first.

(** [for i <= j && p(i) { i++ }] *)
Fixpoint scan_up (p : nat -> bool) (fuel i j : nat) : nat :=
  match fuel with
  | O => i
  | S fuel' => if (i <=? j)%nat && p i then scan_up p fuel' (S i) j else i
  end.

(** [for i <= j && p(j) { j-- }]; the callers have [1 <= i], so that [j]
    stays a natural number. *)
Fixpoint scan_down (p : nat -> bool) (i j : nat) : nat :=
  match j with
  | O => j
  | S j' => if (i <=? j)%nat && p j then scan_down p i j' else j
  end.

(** The [for { ... }] loop of [partition_func]; it returns the slice and
    [j]. *)
Fixpoint partition_loop (fuel : nat) (data : list A) (a i j : nat)
  : list A * nat :=
  match fuel with
  | O => (data, j)
  | S fuel' =>
      let i := scan_up (fun i => Less data i a) (S j - i) i j in
      let j := scan_down (fun j => negb (Less data j a)) i j in
      if (j <? i)%nat then (data, j)
      else partition_loop fuel' (Swap data i j) a (S i) (j - 1)
  end.

(** [partition_func] does one quicksort partition.  With
    [p = data[pivot]] on entry, it reorders [data[a:b]] so that on return
    [data[i] < p] for [i < newpivot] and [data[j] >= p] for [j > newpivot],
    and reports whether the slice was already partitioned. *)
Definition partition_func (data : list A) (a b pivot : nat)
  : list A * nat * bool :=
  let data := Swap data a pivot in
  let i := (a + 1)%nat in
  let j := (b - 1)%nat in
  let i := scan_up (fun i => Less data i a) (S j - i) i j in
  let j := scan_down (fun j => negb (Less data j a)) i j in
  if (j <? i)%nat then (Swap data j a, j, true)
  else
    let data := Swap data i j in
    let '(data, j) := partition_loop (b - a) data a (S i) (j - 1) in
    (Swap data j a, j, false).

(** The loop of [partitionEqual_func]; it returns the slice and [i]. *)
Fixpoint partitionEqual_loop (fuel : nat) (data : list A) (a i j : nat)
  : list A * nat :=
  match fuel with
  | O => (data, i)
  | S fuel' =>
      let i := scan_up (fun i => negb (Less data a i)) (S j - i) i j in
      let j := scan_down (fun j => Less data a j) i j in
      if (j <? i)%nat then (data, i)
      else partitionEqual_loop fuel' (Swap data i j) a (S i) (j - 1)
  end.

(** [partitionEqual_func] partitions [data[a:b]] into elements equal to
    [data[pivot]] followed by elements greater than [data[pivot]]; it
    assumes that [data[a:b]] holds no element smaller than [data[pivot]]. *)
Definition partitionEqual_func (data : list A) (a b pivot : nat)
  : list A * nat :=
  let data := Swap data a pivot in
  partitionEqual_loop (b - a) data a (a + 1) (b - 1).

(** [for j := i - 1; j >= 1; j-- { if !data.Less(j, j-1) { break };
    data.Swap(j, j-1) }] *)
Fixpoint shift_smaller (data : list A) (j : nat) : list A :=
  match j with
  | O => data
  | S j' =>
      if negb (Less data j j') then data
      else shift_smaller (Swap data j j') j'
  end.

(** [for j := i + 1; j < b; j++ { if !data.Less(j, j-1) { break };
    data.Swap(j, j-1) }], with [n] iterations left. *)
Fixpoint shift_greater (n : nat) (data : list A) (j : nat) : list A :=
  match n with
  | O => data
  | S n' =>
      if negb (Less data j (j - 1)) then data
      else shift_greater n' (Swap data j (j - 1)) (S j)
  end.

Definition maxSteps : nat := 5.
Definition shortestShifting : nat := 50.

(** The [for j := 0; j < maxSteps; j++] loop of
    [partialInsertionSort_func], with [steps] iterations left. *)
Fixpoint partialInsertionSort_loop (steps : nat) (data : list A) (a b i : nat)
  : list A * bool :=
  match steps with
  | O => (data, false)
  | S steps' =>
      let i :=
        scan_up (fun i => negb (Less data i (i - 1))) (b - i) i (b - 1) in
      if (i =? b)%nat then (data, true)
      else if (b - a <? shortestShifting)%nat then (data, false)
      else
        let data := Swap data i (i - 1) in
        let data :=
          if (2 <=? i - a)%nat then shift_smaller data (i - 1) else data in
        let data :=
          if (2 <=? b - i)%nat then shift_greater (b - (i + 1)) data (i + 1)
          else data in
        partialInsertionSort_loop steps' data a b i
  end.

(** [partialInsertionSort_func] partially sorts a slice, returns true if
    the slice is sorted at the end. *)
Definition partialInsertionSort_func (data : list A) (a b : nat)
  : list A * bool :=
  partialInsertionSort_loop maxSteps data a b (a + 1).

(** [xorshift] random numbers on [uint64], and [nextPowerOfTwo].  They
    only choose which elements [breakPatterns_func] swaps. *)
Definition uint64 (n : N) : N := (n mod 2 ^ 64)%N.

Definition xorshift_Next (r : N) : N :=
  let r := N.lxor r (uint64 (N.shiftl r 13)) in
  let r := N.lxor r (N.shiftr r 7) in
  let r := N.lxor r (uint64 (N.shiftl r 17)) in
  r.

(** [bits.Len] *)
Definition bits_Len (n : nat) : nat :=
  match n with
  | O => O
  | _ => S (Nat.log2 n)
  end.

Definition nextPowerOfTwo (length : nat) : N :=
  N.shiftl 1 (N.of_nat (bits_Len length)).

(** The [for i := 0; i < 3; i++] loop of [breakPatterns_func], with [n]
    iterations left. *)
Fixpoint breakPatterns_loop (n : nat) (data : list A) (a length idx i : nat)
    (random modulus : N) : list A :=
  match n with
  | O => data
  | S n' =>
      let random := xorshift_Next random in
      let other := N.to_nat (N.land random (modulus - 1)) in
      let other := if (length <=? other)%nat then (other - length)%nat
                   else other in
      breakPatterns_loop n' (Swap data (idx + i) (a + other))
                         a length idx (S i) random modulus
  end.

(** [breakPatterns_func] scatters some elements around in an attempt to
    break some patterns that might cause imbalanced partitions in
    quicksort. *)
Definition breakPatterns_func (data : list A) (a b : nat) : list A :=
  let length := (b - a)%nat in
  if (8 <=? length)%nat then
    let random := N.of_nat length in
    let modulus := nextPowerOfTwo length in
    let idx := (a + (length / 4) * 2 - 1)%nat in
    breakPatterns_loop 3 data a length idx 0 random modulus
  else data.

Inductive sortedHint : Type :=
| unknownHint
| increasingHint
| decreasingHint.

(** [order2_func] returns [x, y] where [data[x] <= data[y]], where
    [x, y = a, b] or [x, y = b, a]; the third component is [*swaps]. *)
Definition order2_func (data : list A) (a b swaps : nat) : nat * nat * nat :=
  if Less data b a then (b, a, S swaps) else (a, b, swaps).

(** [median_func] returns [x] where [data[x]] is the median of [data[a]],
    [data[b]], [data[c]], where [x] is [a], [b], or [c]. *)
Definition median_func (data : list A) (a b c swaps : nat) : nat * nat :=
  let '(a, b, swaps) := order2_func data a b swaps in
  let '(b, c, swaps) := order2_func data b c swaps in
  let '(a, b, swaps) := order2_func data a b swaps in
  (b, swaps).

(** [medianAdjacent_func] finds the median of [data[a - 1]], [data[a]],
    [data[a + 1]]. *)
Definition medianAdjacent_func (data : list A) (a swaps : nat) : nat * nat :=
  median_func data (a - 1) a (a + 1) swaps.

Definition shortestNinther : nat := 50.
Definition maxSwaps : nat := 4 * 3.

(** [choosePivot_func] chooses a pivot in [data[a:b]]; [0 <= pivot - a < b - a],
    and the hint says whether the data looks sorted. *)
Definition choosePivot_func (data : list A) (a b : nat) : nat * sortedHint :=
  let l := (b - a)%nat in
  let swaps := O in
  let i := (a + l / 4 * 1)%nat in
  let j := (a + l / 4 * 2)%nat in
  let k := (a + l / 4 * 3)%nat in
  let '(j, swaps) :=
    if (8 <=? l)%nat then
      let '(i, j, k, swaps) :=
        if (shortestNinther <=? l)%nat then
          let '(i, swaps) := medianAdjacent_func data i swaps in
          let '(j, swaps) := medianAdjacent_func data j swaps in
          let '(k, swaps) := medianAdjacent_func data k swaps in
          (i, j, k, swaps)
        else (i, j, k, swaps) in
      median_func data i j k swaps
    else (j, swaps) in
  if (swaps =? 0)%nat then (j, increasingHint)
  else if (swaps =? maxSwaps)%nat then (j, decreasingHint)
  else (j, unknownHint).

(** [for i < j { data.Swap(i, j); i++; j-- }], with [n] iterations left. *)
Fixpoint reverse_loop (n : nat) (data : list A) (i j : nat) : list A :=
  match n with
  | O => data
  | S n' => reverse_loop n' (Swap data i j) (S i) (j - 1)
  end.

Definition reverseRange_func (data : list A) (a b : nat) : list A :=
  reverse_loop ((b - a) / 2) data a (b - 1).

Definition maxInsertion : nat := 12.

Definition is_increasing (h : sortedHint) : bool :=
  match h with increasingHint => true | _ => false end.
Definition is_decreasing (h : sortedHint) : bool :=
  match h with decreasingHint => true | _ => false end.

(** [pdqsort_func] sorts [data[a:b]].  One unit of [fuel] is spent per
    iteration of its [for] loop and per recursive call; [wasBalanced] and
    [wasPartitioned] are the loop's local variables, both [true] on entry
    of a call. *)
Fixpoint pdqsort_loop (fuel : nat) (data : list A) (a b limit : nat)
    (wasBalanced wasPartitioned : bool) : list A :=
  match fuel with
  | O => data
  | S fuel' =>
      let length := (b - a)%nat in
      if (length <=? maxInsertion)%nat then insertionSort_func data a b
      else if (limit =? 0)%nat then heapSort_func data a b
      else
        let '(data, limit) :=
          if negb wasBalanced then (breakPatterns_func data a b, (limit - 1)%nat)
          else (data, limit) in
        let '(pivot, hint) := choosePivot_func data a b in
        let '(data, pivot, hint) :=
          if is_decreasing hint
          then (reverseRange_func data a b, (b - 1 - (pivot - a))%nat,
                increasingHint)
          else (data, pivot, hint) in
        let '(data, sorted) :=
          if wasBalanced && wasPartitioned && is_increasing hint
          then partialInsertionSort_func data a b
          else (data, false) in
        if sorted then data
        else if (0 <? a)%nat && negb (Less data (a - 1) pivot) then
          let '(data, mid) := partitionEqual_func data a b pivot in
          pdqsort_loop fuel' data mid b limit wasBalanced wasPartitioned
        else
          let '(data, mid, alreadyPartitioned) :=
            partition_func data a b pivot in
          let wasPartitioned := alreadyPartitioned in
          let leftLen := (mid - a)%nat in
          let rightLen := (b - mid)%nat in
          let balanceThreshold := (length / 8)%nat in
          if (leftLen <? rightLen)%nat then
            let wasBalanced := (balanceThreshold <=? leftLen)%nat in
            let data := pdqsort_loop fuel' data a mid limit true true in
            pdqsort_loop fuel' data (mid + 1) b limit wasBalanced
                         wasPartitioned
          else
            let wasBalanced := (balanceThreshold <=? rightLen)%nat in
            let data := pdqsort_loop fuel' data (mid + 1) b limit true true in
            pdqsort_loop fuel' data a mid limit wasBalanced wasPartitioned
  end.

Definition pdqsort_func (data : list A) (a b limit : nat) : list A :=
  pdqsort_loop (S (b - a)) data a b limit true true.

(** [Slice] sorts the slice [x] given the provided [less] function.  The
    sort is not guaranteed to be stable. *)
Definition Slice (x : list A) : list A :=
  let length := List.length x in
  let limit := bits_Len length in
  pdqsort_func x 0 length limit.

End zsortfunc.

End sort.

(** ** The program: constants and the table *)

Definition Failed : string := ":x: Failed".
Definition Passed : string := ":white_check_mark: Passed".

Module Table.

(** Table structure to represent headers and rows. *)
Record t : Type := mk {
  Headers : list string;
  Separator : list string;
  Rows : list (list string)
}.

(** [Add] adds a row to the table; it panics when the row does not have
    one field per header. *)
Definition Add (tbl : t) (row : list string) : exec t :=
  if negb (Nat.eqb (length row) (length (Headers tbl)))
  then Panic "row length does not match header length"
  else Ret {| Headers := Headers tbl;
              Separator := Separator tbl;
              Rows := Rows tbl ++ [row] |}.

End Table.

(** [NewTable] initializes a new table; [make([]string, n)] is [n] empty
    strings. *)
Definition NewTable (headers : list string) : Table.t :=
  {| Table.Headers := headers;
     Table.Separator := replicate (length headers) empty;
     Table.Rows := [] |}.

(** [contains] checks if a slice contains a string. *)
Fixpoint contains (slice : list string) (value : string) : bool :=
  match slice with
  | [] => false
  | v :: rest => if String.eqb v value then true else contains rest value
  end.

(** [ifElse] returns [trueVal] if the condition is true, else [falseVal]. *)
Definition ifElse (condition : bool) (trueVal falseVal : string) : string :=
  if condition then trueVal else falseVal.

(** ** The report *)

(** The body of the loop of [NewReport] over [table.Rows], on the pair of
    its counters [(failures, passes)]. *)
Definition count_row (counters : Z * Z) (row : list string) : Z * Z :=
  let '(failures, passes) := counters in
  if contains row Failed then (int_incr failures, passes)
  else if contains row Passed then (failures, int_incr passes)
  else (failures, passes).

(** [row[len(row)-1]], the field the sort of [Print] compares.  On an
    empty row the index is [-1] and Go panics; see [Report.Print]. *)
Definition last_field (row : list string) : string :=
  row !!! (length row - 1)%nat.

(** The [less] function that [Print] hands to [sort.Slice]. *)
Definition by_status (rowi rowj : list string) : bool :=
  string_gt (last_field rowi) (last_field rowj).

Definition is_empty_row (row : list string) : bool :=
  match row with
  | [] => true
  | _ => false
  end.

(** [fmt.Fprintln(w, strings.Join(row, "|"))] for each row. *)
Fixpoint print_rows (rows : list (list string)) (w : string) : string :=
  match rows with
  | [] => w
  | row :: rest => print_rows rest (w +:+ strings_Join row "|" +:+ nl)
  end.

Module Report.

(** Report structure to represent the test report. *)
Record t : Type := mk {
  Time : string;
  Timestamp : string;
  Table : Table.t;
  OK : bool;
  Failures : Z;
  Passes : Z
}.

(** What [Print] writes before it sorts the rows: the heading, the
    start time and duration, the badge, the table headers and the
    separator. *)
Definition print_head (r : t) (w : string) : string :=
  let w := w +:+ "## E2E report " +:+ ifElse (OK r) Passed Failed +:+ nl in
  let w := w +:+ "Started at " +:+ backtick +:+ Timestamp r +:+ backtick
             +:+ " took " +:+ backtick +:+ Time r +:+ backtick
             +:+ nl +:+ nl in
  let w := w +:+ "![](https://img.shields.io/badge/tests-"
             +:+ format_int (Passes r) +:+ "_passed%2C_"
             +:+ format_int (Failures r) +:+ "_failed-"
             +:+ ifElse (OK r) "green" "red" +:+ ")" +:+ nl +:+ nl in
  let w := w +:+ strings_Join (Table.Headers (Table r)) "|" +:+ nl in
  let w := w +:+ strings_Join (Table.Separator (Table r)) "|" +:+ nl in
  w.

(** [Print] outputs the report to the provided writer as markdown.  [w] is
    what the writer holds; the result is what it holds afterwards, with the
    report as the call leaves it: [sort.Slice] sorts [r.Table.Rows] in
    place.  With two rows or more every row takes part in a comparison, and
    the comparison of an empty row panics (index out of range). *)
Definition Print (r : t) (w : string) : string * exec t :=
  let w := print_head r w in
  let rows := Table.Rows (Table r) in
  if (2 <=? length rows)%nat && existsb is_empty_row rows
  then (w, Panic "runtime error: index out of range [-1]")
  else
    let rows := sort.Slice by_status rows in
    let r := {| Time := Time r;
                Timestamp := Timestamp r;
                Table := {| Table.Headers := Table.Headers (Table r);
                            Table.Separator := Table.Separator (Table r);
                            Table.Rows := rows |};
                OK := OK r;
                Failures := Failures r;
                Passes := Passes r |} in
    (print_rows rows w, Ret r).

End Report.

(** [NewReport] creates a new report. *)
Definition NewReport (time timestamp : string) (table : Table.t) : Report.t :=
  let '(failures, passes) := fold_left count_row (Table.Rows table) (0, 0) in
  {| Report.Time := time;
     Report.Timestamp := timestamp;
     Report.Table := table;
     Report.OK := failures =? 0;
     Report.Failures := failures;
     Report.Passes := passes |}.

(** ** The XML report *)

(** [xml.Name] *)
Record xml_Name : Type := {
  Space : string;
  Local : string
}.

Module TestCase.

(** [TestCase] represents the XML structure for a test case. *)
Record t : Type := mk {
  Name : string;
  Time : string;
  Failure : option string
}.

End TestCase.

Module TestSuite.

(** [TestSuite] represents the XML structure for test suites. *)
Record t : Type := mk {
  XMLName : xml_Name;
  Name : string;
  TestCase : list TestCase.t
}.

End TestSuite.

Module TestSuites.

(** [TestSuites] represents the XML structure for the root testsuites
    element. *)
Record t : Type := mk {
  XMLName : xml_Name;
  TestSuite : list TestSuite.t;
  Time : string;
  Timestamp : string
}.

End TestSuites.

(** ** The environment of a run

    The file system and the XML decoder are outside the program: a run is
    given what [os.Open], [io.ReadAll], [xml.Unmarshal] and [os.Create]
    return.  What [xml.Unmarshal] returns for a stream is the subject of
    the module [xml] below. *)
Record Env : Type := {
  File : Type;
  os_Open : string -> result File;
  io_ReadAll : File -> result string;
  xml_Unmarshal : string -> result TestSuites.t;
  os_Create : string -> result unit
}.

(** ** generateMarkdown *)

(** The body of the inner loop: one row per test case. *)
Definition add_case (suite : TestSuite.t) (table : Table.t)
    (testcase : TestCase.t) : exec Table.t :=
  let status := Passed in
  let status :=
    match TestCase.Failure testcase with
    | Some _ => Failed
    | None => status
    end in
  Table.Add table
    [TestSuite.Name suite; TestCase.Name testcase;
     backtick +:+ TestCase.Time testcase +:+ backtick; status].

(** The body of the outer loop. *)
Definition add_suite (table : Table.t) (suite : TestSuite.t) : exec Table.t :=
  range_exec (add_case suite) (TestSuite.TestCase suite) table.

Definition headers : list string :=
  ["Test Suite"; "Test Case"; "Time (s)"; "Status"].

(** The table that [generateMarkdown] builds from the parsed report. *)
Definition build_table (testSuites : TestSuites.t) : exec Table.t :=
  let table := NewTable headers in
  range_exec add_suite (TestSuites.TestSuite testSuites) table.

(** [generateMarkdown] reads the XML report, generates and prints the
    markdown report.  [w] is what the writer holds on entry; the result is
    what it holds on return, with the returned error ([None] is [nil]) or
    the panic. *)
Definition generateMarkdown (env : Env) (reportPath : string) (w : string)
  : string * exec (option error) :=
  match os_Open env reportPath with
  | Err err => (w, Ret (Some (Errorf_w "failed to open report file: " err)))
  | Ok xmlFile =>
      match io_ReadAll env xmlFile with
      | Err err =>
          (w, Ret (Some (Errorf_w "failed to read report file: " err)))
      | Ok xmlData =>
          match xml_Unmarshal env xmlData with
          | Err err =>
              (w, Ret (Some (Errorf_w "failed to unmarshal XML: " err)))
          | Ok testSuites =>
              match build_table testSuites with
              | Panic msg => (w, Panic msg)
              | Ret table =>
                  let report :=
                    NewReport (TestSuites.Time testSuites)
                              (TestSuites.Timestamp testSuites) table in
                  let '(w, r) := Report.Print report w in
                  (w, _ ← r; Ret None)
              end
          end
      end
  end.

(** ** main *)

(** How the process ends: [os.Exit(code)] or the return of [main] (code 0),
    or an unrecovered panic. *)
Inductive exit : Type :=
| Exit (code : Z)
| Crash (msg : string).

(** The sink chosen by the [-output] flag. *)
Inductive sink : Type :=
| ToStdout
| ToFile (path : string).

(** What a run leaves behind: what it wrote to the chosen sink (when it
    could open one), what it wrote to standard error, and how it ended. *)
Record Process : Type := {
  chosen : option sink;
  written : string;
  Stderr : string;
  ended : exit
}.

(** What [main] writes when the report could not be generated. *)
Definition failure_notice (err : error) : string :=
  "## Report generation failed :skull:" +:+ nl +:+ nl
  +:+ "```log" +:+ nl +:+ Error err +:+ nl +:+ "```" +:+ nl.

(** [main] after [flag.Parse()], on the values [*reportPath] and
    [*outputPath] of the flags [-file] and [-output]; [command] below is
    [main] from the arguments of the process. *)
Definition main (env : Env) (reportPath outputPath : string) : Process :=
  let opened :=
    if String.eqb outputPath empty then Ok ToStdout
    else
      match os_Create env outputPath with
      | Err err => Err err
      | Ok _ => Ok (ToFile outputPath)
      end in
  match opened with
  | Err err =>
      {| chosen := None;
         written := empty;
         Stderr := "failed to open output file: " +:+ Error err +:+ nl;
         ended := Exit 1 |}
  | Ok writer =>
      match generateMarkdown env reportPath empty with
      | (w, Ret None) =>
          {| chosen := Some writer; written := w; Stderr := empty;
             ended := Exit 0 |}
      | (w, Ret (Some err)) =>
          {| chosen := Some writer;
             written := w +:+ failure_notice err;
             Stderr := empty;
             ended := Exit 1 |}
      | (w, Panic msg) =>
          {| chosen := Some writer; written := w; Stderr := empty;
             ended := Crash msg |}
      end
  end.

(** ** The command line *)

(** Package [flag], for the two string flags that [main] defines on the
    default flag set (whose error handling is [ExitOnError]). *)
Module flag.

(** The flag set: the value of each flag, and the arguments not parsed
    yet. *)
Record FlagSet : Type := {
  file : string;
  output : string;
  args : list string
}.

(** What [parseOne] returns: [(true, nil)], [(false, nil)], or [false] and
    an error, which is [ErrHelp] or the error made by [failf]. *)
Inductive seen : Type :=
| Seen (f : FlagSet)
| Last (f : FlagSet)
| ErrHelp
| Failf (msg : string).

(** The loop [for i := 1; i < len(name); i++] of [parseOne]: the name up
    to the first equals sign that is not its first byte, and the value
    after it. *)
Fixpoint cut_value (name : string) : string * option string :=
  match name with
  | EmptyString => (EmptyString, None)
  | String c rest =>
      if Ascii.eqb c "=" then (EmptyString, Some rest)
      else let '(name', value) := cut_value rest in (String c name', value)
  end.

(** [f.formal[name]]: the flags that [main] defines, each with the
    [Set] of its value. *)
Definition formal (name : string)
  : option (string -> FlagSet -> FlagSet) :=
  if String.eqb name "file"
  then Some (fun value f =>
               {| file := value; output := output f; args := args f |})
  else if String.eqb name "output"
  then Some (fun value f =>
               {| file := file f; output := value; args := args f |})
  else None.

(** [parseOne] parses one flag. *)
Definition parseOne (f : FlagSet) : seen :=
  match args f with
  | [] => Last f
  | s :: rest =>
      if (String.length s <? 2)%nat || negb (byte_is s 0 "-") then Last f
      else
        let numMinuses := if byte_is s 1 "-" then 2%nat else 1%nat in
        let f' := {| file := file f; output := output f; args := rest |} in
        if (numMinuses =? 2)%nat && (String.length s =? 2)%nat
        then Last f'
        else
          let name := string_from numMinuses s in
          if (String.length name =? 0)%nat || byte_is name 0 "-"
             || byte_is name 0 "="
          then Failf ("bad flag syntax: " +:+ s)
          else
            let f := f' in
            let '(name, value) :=
              match name with
              | EmptyString => (name, None)
              | String c name' =>
                  let '(name', value) := cut_value name' in
                  (String c name', value)
              end in
            match formal name with
            | None =>
                if String.eqb name "help" || String.eqb name "h" then ErrHelp
                else Failf ("flag provided but not defined: -" +:+ name)
            | Some set =>
                match value, args f with
                | Some value, _ => Seen (set value f)
                | None, value :: rest =>
                    Seen (set value
                            {| file := file f; output := output f;
                               args := rest |})
                | None, [] => Failf ("flag needs an argument: -" +:+ name)
                end
            end
  end.

(** What [Parse] leaves behind under [ExitOnError]: the values of the
    flags, or an exit with code 0 after [ErrHelp], or an exit with code 2
    after an error. *)
Inductive parsed : Type :=
| Flags (file output : string)
| Help
| BadFlag (msg : string).

(** The loop of [Parse], with [n] arguments at most left. *)
Fixpoint Parse_loop (n : nat) (f : FlagSet) : parsed :=
  match parseOne f with
  | Seen f' =>
      match n with
      | O => Flags (file f') (output f')
      | S n' => Parse_loop n' f'
      end
  | Last f' => Flags (file f') (output f')
  | ErrHelp => Help
  | Failf msg => BadFlag msg
  end.

End flag.

(** [flag.Parse()], on [os.Args[1:]]; every [parseOne] that has seen a flag
    leaves fewer arguments, so the loop ends within [length arguments]
    rounds. *)
Definition flag_Parse (arguments : list string) : flag.parsed :=
  flag.Parse_loop (length arguments)
    {| flag.file := "chainsaw-report.xml"; flag.output := empty;
       flag.args := arguments |}.

(** [flag.Usage] of the default flag set: the heading with [os.Args[0]] and
    [PrintDefaults] for the flags in the order of their names. *)
Definition flag_Usage (program : string) : string :=
  "Usage of " +:+ program +:+ ":" +:+ nl
  +:+ "  -file string" +:+ nl
  +:+ "    " +:+ tab +:+ "Path to XML report generated by Chainsaw (default "
  +:+ dquote +:+ "chainsaw-report.xml" +:+ dquote +:+ ")" +:+ nl
  +:+ "  -output string" +:+ nl
  +:+ "    " +:+ tab +:+ "Output file (defaults to stdout)" +:+ nl.

(** The whole of [main], from [os.Args]: [program] is [os.Args[0]] and
    [arguments] is [os.Args[1:]].  [flag.Parse] exits by itself when it
    finds an error (code 2, after the message and the usage on standard
    error) or a request for help (code 0, after the usage); no sink has
    been opened by then. *)
Definition command (env : Env) (program : string) (arguments : list string)
  : Process :=
  match flag_Parse arguments with
  | flag.Flags reportPath outputPath => main env reportPath outputPath
  | flag.Help =>
      {| chosen := None; written := empty;
         Stderr := flag_Usage program; ended := Exit 0 |}
  | flag.BadFlag msg =>
      {| chosen := None; written := empty;
         Stderr := msg +:+ nl +:+ flag_Usage program; ended := Exit 2 |}
  end.

(** ** Package [encoding/xml]

    [generateMarkdown] decodes the report with [xml.Unmarshal] into a
    [TestSuites].  The definitions below follow the decoder of
    [encoding/xml] ([xml.go]: [getc], [space], [name], [text], [rawToken],
    [Token], [Skip]; [read.go]: [unmarshal], here for the three structs of
    the program and the field tags they carry).

    The model covers streams of ASCII bytes made of start tags, end tags,
    attributes with quoted values and character data.  It gives no answer
    ([None]) as soon as the decoder reads something else: a byte above
    127, a reference ([&]), a comment, a processing instruction or a
    directive ([<?], [<!]), a name with a colon or an [xmlns] attribute,
    a control character in text. *)

Module xml.

Module Attr.

Record t : Type := mk {
  Name : xml_Name;
  Value : string
}.

End Attr.

Inductive Token : Type :=
| StartElement (Name : xml_Name) (Attr : list Attr.t)
| EndElement (Name : xml_Name)
| CharData (data : string).

(** The errors of the decoder: [io.EOF], a [*SyntaxError] and an
    [UnmarshalError]. *)
Inductive fault : Type :=
| io_EOF
| SyntaxError (Msg : string) (Line : nat)
| UnmarshalError (msg : string).

(** The decoder: the bytes not read yet (a byte that [ungetc] puts back is
    in front of them), the line, the sticky error, the stack of open
    elements, and the end tag owed for a self-closing start tag. *)
Record Decoder : Type := {
  r : string;
  line : nat;
  err : option fault;
  stk : list xml_Name;
  needClose : bool;
  toClose : xml_Name
}.

(** A method of the decoder; [None] when the model gives no answer. *)
Definition M (A : Type) : Type := Decoder -> option (A * Decoder).

Definition ret {A : Type} (a : A) : M A := fun d => Some (a, d).
Definition bind {A B : Type} (m : M A) (k : A -> M B) : M B := fun d =>
  match m d with
  | Some (a, d') => k a d'
  | None => None
  end.

Notation "'let*' x ':=' m 'in' k" := (bind m (fun x => k))
  (at level 10, x name, m at level 100, k at level 200, only parsing).
Notation "m ';;' k" := (bind m (fun _ => k))
  (at level 100, k at level 200, right associativity, only parsing).

Definition unmodelled {A : Type} : M A := fun _ => None.

Definition reading (d : Decoder) (r : string) (line : nat)
    (err : option fault) : Decoder :=
  {| r := r; line := line; err := err; stk := stk d;
     needClose := needClose d; toClose := toClose d |}.

(** [d.err = err] and [d.syntaxError(msg)] *)
Definition fail (e : fault) : M unit := fun d =>
  Some (tt, reading d (r d) (line d) (Some e)).
Definition syntaxError (msg : string) : M fault := fun d =>
  Some (SyntaxError msg (line d), d).

Definition newline : ascii := "010"%char.
Definition count_line (b : ascii) (line : nat) : nat :=
  if Ascii.eqb b newline then S line else line.
Definition ascii_byte (b : ascii) : bool := (nat_of_ascii b <? 128)%nat.
Definition between (lo hi b : ascii) : bool :=
  (nat_of_ascii lo <=? nat_of_ascii b)%nat
  && (nat_of_ascii b <=? nat_of_ascii hi)%nat.

(** [getc]: the next byte, or [None] at the end of the input or after an
    error. *)
Definition getc : M (option ascii) := fun d =>
  match err d with
  | Some _ => Some (None, d)
  | None =>
      match r d with
      | EmptyString => Some (None, reading d empty (line d) (Some io_EOF))
      | String b s =>
          if ascii_byte b
          then Some (Some b, reading d s (count_line b (line d)) None)
          else None
      end
  end.

(** [mustgetc]: as [getc], but the end of the input is a syntax error. *)
Definition mustgetc : M (option ascii) :=
  let* b := getc in
  match b with
  | Some _ => ret b
  | None => fun d =>
      match err d with
      | Some io_EOF =>
          Some (None, reading d (r d) (line d)
                        (Some (SyntaxError "unexpected EOF" (line d))))
      | _ => Some (None, d)
      end
  end.

(** [ungetc] *)
Definition ungetc (b : ascii) : M unit := fun d =>
  Some (tt, reading d (String b (r d))
              (if Ascii.eqb b newline then pred (line d) else line d)
              (err d)).

Definition is_space (b : ascii) : bool :=
  Ascii.eqb b " " || Ascii.eqb b "013" || Ascii.eqb b newline
  || Ascii.eqb b "009".

(** The loop of [space], on the bytes not read yet: what is left, the line,
    and whether the end of the input was reached. *)
Fixpoint space_loop (s : string) (line : nat) : string * nat * bool :=
  match s with
  | EmptyString => (s, line, true)
  | String b s' =>
      if is_space b then space_loop s' (count_line b line)
      else (s, line, false)
  end.

(** [space] skips spaces. *)
Definition space : M unit := fun d =>
  match err d with
  | Some _ => Some (tt, d)
  | None =>
      let '(s, line, eof) := space_loop (r d) (line d) in
      Some (tt, reading d s line (if eof then Some io_EOF else None))
  end.

Definition isNameByte (c : ascii) : bool :=
  between "A" "Z" c || between "a" "z" c || between "0" "9" c
  || Ascii.eqb c "_" || Ascii.eqb c ":" || Ascii.eqb c "." || Ascii.eqb c "-".

(** How a loop over the input ends: at the end of the input, or in front
    of the bytes [rest], or outside the model. *)
Inductive stop : Type :=
| at_EOF
| at_rest (rest : string)
| at_unmodelled.

(** The loop of [readName]: the bytes it writes to the buffer. *)
Fixpoint readName_loop (s : string) : string * stop :=
  match s with
  | EmptyString => (empty, at_EOF)
  | String b s' =>
      if negb (ascii_byte b) then (empty, at_unmodelled)
      else if isNameByte b
      then let '(name, e) := readName_loop s' in (String b name, e)
      else (empty, at_rest s)
  end.

(** [isName], on the bytes that [readName] accepts: the first is a letter,
    an underscore or a colon. *)
Definition isName (s : string) : bool :=
  match s with
  | EmptyString => false
  | String c _ =>
      between "A" "Z" c || between "a" "z" c || Ascii.eqb c "_"
      || Ascii.eqb c ":"
  end.

(** [name]: the name at the head of the input; [None] with [d.err] unset
    when there is none, [None] with [d.err] set at the end of the input and
    for a name that is not one. *)
Definition name : M (option string) := fun d =>
  match err d with
  | Some _ => (mustgetc;; ret None) d
  | None =>
      match readName_loop (r d) with
      | (_, at_unmodelled) => None
      | (_, at_EOF) =>
          Some (None, reading d empty (line d)
                        (Some (SyntaxError "unexpected EOF" (line d))))
      | (EmptyString, at_rest _) => Some (None, d)
      | (s, at_rest rest) =>
          if isName s then Some (Some s, reading d rest (line d) None)
          else Some (None, reading d rest (line d)
                             (Some (SyntaxError ("invalid XML name: " +:+ s)
                                                (line d))))
      end
  end.

Fixpoint has_colon (s : string) : bool :=
  match s with
  | EmptyString => false
  | String c s' => Ascii.eqb c ":" || has_colon s'
  end.

(** [nsname], for names without a colon. *)
Definition nsname : M (option xml_Name) :=
  let* s := name in
  match s with
  | None => ret None
  | Some s =>
      if has_colon s then unmodelled
      else ret (Some {| Space := empty; Local := s |})
  end.

(** How the loop of [text] ends. *)
Inductive text_stop : Type :=
| text_EOF
| text_rest (rest : string)
| text_error (msg : string) (rest : string)
| text_unmodelled.

Definition zero : ascii := "000"%char.

(** The loop of [text] (with [cdata] false): the bytes written to the
    buffer, the line, and how the loop ends.  [b0] and [b1] are the two
    bytes read before. *)
Fixpoint text_loop (quote : option ascii) (b0 b1 : ascii) (s : string)
    (line : nat) : string * nat * text_stop :=
  match s with
  | EmptyString => (empty, line, text_EOF)
  | String b s' =>
      if negb (ascii_byte b) then (empty, line, text_unmodelled)
      else
      let line' := count_line b line in
      if Ascii.eqb b0 "]" && Ascii.eqb b1 "]" && Ascii.eqb b ">"
      then (empty, line',
            text_error "unescaped ]]> not in CDATA section" s')
      else if Ascii.eqb b "<" then
        match quote with
        | Some _ =>
            (empty, line', text_error "unescaped < inside quoted string" s')
        | None => (empty, line, text_rest s)
        end
      else if bool_decide (quote = Some b) then (empty, line', text_rest s')
      else if Ascii.eqb b "&" then (empty, line', text_unmodelled)
      else
        let '(data, line, e) := text_loop quote b1 b s' line' in
        if Ascii.eqb b "013" then (String newline data, line, e)
        else if Ascii.eqb b1 "013" && Ascii.eqb b newline then (data, line, e)
        else (String b data, line, e)
  end.

(** [isInCharacterRange], for ASCII. *)
Definition isInCharacterRange (c : ascii) : bool :=
  Ascii.eqb c "009" || Ascii.eqb c newline || Ascii.eqb c "013"
  || between " " "127" c.

Fixpoint all_bytes (p : ascii -> bool) (s : string) : bool :=
  match s with
  | EmptyString => true
  | String c s' => p c && all_bytes p s'
  end.

(** [text]: the character data up to the next [<], or the attribute value
    up to the closing quote; [None] is the [nil] returned with [d.err]
    set. *)
Definition text (quote : option ascii) : M (option string) := fun d =>
  match err d with
  | Some _ => Some (Some empty, d)
  | None =>
      match text_loop quote zero zero (r d) (line d) with
      | (_, _, text_unmodelled) => None
      | (_, line, text_error msg rest) =>
          Some (None, reading d rest line (Some (SyntaxError msg line)))
      | (data, line, text_EOF) =>
          if all_bytes isInCharacterRange data
          then Some (Some data, reading d empty line (Some io_EOF))
          else None
      | (data, line, text_rest rest) =>
          if all_bytes isInCharacterRange data
          then Some (Some data, reading d rest line None)
          else None
      end
  end.

(** [attrval], in strict mode. *)
Definition attrval : M (option string) :=
  let* b := mustgetc in
  match b with
  | None => ret None
  | Some b =>
      if Ascii.eqb b "034" || Ascii.eqb b "'" then text (Some b)
      else
        let* e := syntaxError "unquoted or missing attribute value in element" in
        fail e;; ret None
  end.

(** The loop of [rawToken] over the attributes of a start tag, with [n]
    rounds left: the attributes, and whether the tag closes itself. *)
Fixpoint attributes (n : nat) (attr : list Attr.t)
  : M (option (list Attr.t * bool)) :=
  match n with
  | O => unmodelled
  | S n' =>
      space;;
      let* b := mustgetc in
      match b with
      | None => ret None
      | Some b =>
          if Ascii.eqb b "/" then
            let* b := mustgetc in
            match b with
            | None => ret None
            | Some b =>
                if Ascii.eqb b ">" then ret (Some (attr, true))
                else let* e := syntaxError "expected /> in element" in
                     fail e;; ret None
            end
          else if Ascii.eqb b ">" then ret (Some (attr, false))
          else
            ungetc b;;
            let* a_Name := nsname in
            match a_Name with
            | None => fun d =>
                match err d with
                | None =>
                    (let* e := syntaxError "expected attribute name in element" in
                     fail e;; ret None) d
                | Some _ => Some (None, d)
                end
            | Some a_Name =>
                space;;
                let* b := mustgetc in
                match b with
                | None => ret None
                | Some b =>
                    if negb (Ascii.eqb b "=") then
                      let* e := syntaxError "attribute name without = in element" in
                      fail e;; ret None
                    else
                      space;;
                      let* data := attrval in
                      match data with
                      | None => ret None
                      | Some data =>
                          attributes n'
                            (attr ++ [{| Attr.Name := a_Name;
                                         Attr.Value := data |}])%list
                      end
                end
            end
      end
  end.

(** [rawToken]; [None] is the [nil] token, returned with [d.err]. *)
Definition rawToken : M (option Token) := fun d =>
  match err d with
  | Some _ => Some (None, d)
  | None =>
      if needClose d then
        Some (Some (EndElement (toClose d)),
              {| r := r d; line := line d; err := err d; stk := stk d;
                 needClose := false; toClose := toClose d |})
      else
        (let* b := getc in
         match b with
         | None => ret None
         | Some b =>
             if negb (Ascii.eqb b "<") then
               ungetc b;;
               let* data := text None in
               ret (CharData <$> data)
             else
               let* b := mustgetc in
               match b with
               | None => ret None
               | Some b =>
                   if Ascii.eqb b "/" then
                     let* name := nsname in
                     match name with
                     | None => fun d =>
                         match err d with
                         | None =>
                             (let* e := syntaxError "expected element name after </" in
                              fail e;; ret None) d
                         | Some _ => Some (None, d)
                         end
                     | Some name =>
                         space;;
                         let* b := mustgetc in
                         match b with
                         | None => ret None
                         | Some b =>
                             if negb (Ascii.eqb b ">") then
                               let* e := syntaxError
                                     ("invalid characters between </"
                                      +:+ Local name +:+ " and >") in
                               fail e;; ret None
                             else ret (Some (EndElement name))
                         end
                     end
                   else if Ascii.eqb b "?" || Ascii.eqb b "!" then unmodelled
                   else
                     ungetc b;;
                     let* name := nsname in
                     match name with
                     | None => fun d =>
                         match err d with
                         | None =>
                             (let* e := syntaxError "expected element name after <" in
                              fail e;; ret None) d
                         | Some _ => Some (None, d)
                         end
                     | Some name =>
                         fun d =>
                         (let* a := attributes (S (String.length (r d))) [] in
                          match a with
                          | None => ret None
                          | Some (attr, empty) =>
                              fun d =>
                              Some (Some (StartElement name attr),
                                    {| r := r d; line := line d; err := err d;
                                       stk := stk d;
                                       needClose := empty;
                                       toClose :=
                                         if empty then name else toClose d |})
                          end) d
                     end
               end
         end) d
  end.

(** [pushElement] and [popElement] *)
Definition pushElement (name : xml_Name) : M unit := fun d =>
  Some (tt, {| r := r d; line := line d; err := err d;
               stk := name :: stk d;
               needClose := needClose d; toClose := toClose d |}).

Definition popElement (name : xml_Name) : M bool := fun d =>
  match stk d with
  | [] =>
      (let* e := syntaxError
                   ("unexpected end element </" +:+ Local name +:+ ">") in
       fail e;; ret false) d
  | s :: stk' =>
      let d := {| r := r d; line := line d; err := err d; stk := stk';
                  needClose := needClose d; toClose := toClose d |} in
      if negb (String.eqb (Local s) (Local name)) then
        (let* e := syntaxError
                     ("element <" +:+ Local s +:+ "> closed by </"
                      +:+ Local name +:+ ">") in
         fail e;; ret false) d
      else Some (true, d)
  end.

(** The attribute that declares a name space. *)
Definition declares_space (a : Attr.t) : bool :=
  String.eqb (Local (Attr.Name a)) "xmlns".

(** [Token] returns the next token, or the error. *)
Definition Decoder_Token : M (Token + fault) :=
  let* t := rawToken in
  match t with
  | None => fun d =>
      match err d with
      | None => None
      | Some io_EOF =>
          match stk d with
          | [] => Some (inr io_EOF, d)
          | _ :: _ => Some (inr (SyntaxError "unexpected EOF" (line d)), d)
          end
      | Some e => Some (inr e, d)
      end
  | Some (StartElement name attr) =>
      if existsb declares_space attr then unmodelled
      else pushElement name;; ret (inl (StartElement name attr))
  | Some (EndElement name) =>
      let* ok := popElement name in
      if ok : bool then ret (inl (EndElement name))
      else fun d =>
        match err d with
        | Some e => Some (inr e, d)
        | None => None
        end
  | Some (CharData data) => ret (inl (CharData data))
  end.

(** [Skip] reads tokens until it has consumed the end element matching the
    most recent start element already consumed; with [n] tokens at most
    left.  It returns the error, if any. *)
Fixpoint Skip (n : nat) (depth : nat) : M (option fault) :=
  match n with
  | O => unmodelled
  | S n' =>
      let* tok := Decoder_Token in
      match tok with
      | inr e => ret (Some e)
      | inl (StartElement _ _) => Skip n' (S depth)
      | inl (EndElement _) =>
          match depth with
          | O => ret None
          | S depth' => Skip n' depth'
          end
      | inl (CharData _) => Skip n' depth
      end
  end.

(** What [unmarshal] returns: the value it has filled, or the error. *)
Inductive unmarshalled (A : Type) : Type :=
| Filled (a : A)
| Stopped (e : fault).
Arguments Filled {A} a.
Arguments Stopped {A} e.

(** [unmarshal] into a [string] (the [*string] of [Failure]): the
    character data of the element, its sub-elements skipped. *)
Fixpoint unmarshal_string (n : nat) (data : string)
  : M (unmarshalled string) :=
  match n with
  | O => unmodelled
  | S n' =>
      let* tok := Decoder_Token in
      match tok with
      | inr e => ret (Stopped e)
      | inl (StartElement _ _) =>
          let* e := Skip n' 0 in
          match e with
          | Some e => ret (Stopped e)
          | None => unmarshal_string n' data
          end
      | inl (EndElement _) => ret (Filled data)
      | inl (CharData t) => unmarshal_string n' (data +:+ t)
      end
  end.

(** The value of the attribute [name] after the attributes [attr] have
    been assigned in their order to the field that held [value]. *)
Definition assign (name : string) (attr : list Attr.t) (value : string)
  : string :=
  fold_left (fun value a =>
               if String.eqb (Local (Attr.Name a)) name then Attr.Value a
               else value)
            attr value.

(** [unmarshal] into a [TestCase]: the loop over the tokens of the
    element. *)
Fixpoint unmarshal_TestCase_loop (n : nat) (v : TestCase.t)
  : M (unmarshalled TestCase.t) :=
  match n with
  | O => unmodelled
  | S n' =>
      let* tok := Decoder_Token in
      match tok with
      | inr e => ret (Stopped e)
      | inl (StartElement name _) =>
          if String.eqb (Local name) "failure" then
            let* s := unmarshal_string n' empty in
            match s with
            | Stopped e => ret (Stopped e)
            | Filled s =>
                unmarshal_TestCase_loop n'
                  {| TestCase.Name := TestCase.Name v;
                     TestCase.Time := TestCase.Time v;
                     TestCase.Failure := Some s |}
            end
          else
            let* e := Skip n' 0 in
            match e with
            | Some e => ret (Stopped e)
            | None => unmarshal_TestCase_loop n' v
            end
      | inl (EndElement _) => ret (Filled v)
      | inl (CharData _) => unmarshal_TestCase_loop n' v
      end
  end.

Definition unmarshal_TestCase (n : nat) (attr : list Attr.t)
  : M (unmarshalled TestCase.t) :=
  unmarshal_TestCase_loop n
    {| TestCase.Name := assign "name" attr empty;
       TestCase.Time := assign "time" attr empty;
       TestCase.Failure := None |}.

(** [unmarshal] into a [TestSuite]. *)
Fixpoint unmarshal_TestSuite_loop (n : nat) (v : TestSuite.t)
  : M (unmarshalled TestSuite.t) :=
  match n with
  | O => unmodelled
  | S n' =>
      let* tok := Decoder_Token in
      match tok with
      | inr e => ret (Stopped e)
      | inl (StartElement name attr) =>
          if String.eqb (Local name) "testcase" then
            let* c := unmarshal_TestCase n' attr in
            match c with
            | Stopped e => ret (Stopped e)
            | Filled c =>
                unmarshal_TestSuite_loop n'
                  {| TestSuite.XMLName := TestSuite.XMLName v;
                     TestSuite.Name := TestSuite.Name v;
                     TestSuite.TestCase :=
                       (TestSuite.TestCase v ++ [c])%list |}
            end
          else
            let* e := Skip n' 0 in
            match e with
            | Some e => ret (Stopped e)
            | None => unmarshal_TestSuite_loop n' v
            end
      | inl (EndElement _) => ret (Filled v)
      | inl (CharData _) => unmarshal_TestSuite_loop n' v
      end
  end.

(** The check of the element name against the [XMLName] tag. *)
Definition expected (tag : string) (start : xml_Name) : option fault :=
  if String.eqb tag (Local start) then None
  else Some (UnmarshalError ("expected element type <" +:+ tag
                             +:+ "> but have <" +:+ Local start +:+ ">")).

Definition unmarshal_TestSuite (n : nat) (start : xml_Name)
    (attr : list Attr.t) : M (unmarshalled TestSuite.t) :=
  match expected "testsuite" start with
  | Some e => ret (Stopped e)
  | None =>
      unmarshal_TestSuite_loop n
        {| TestSuite.XMLName := start;
           TestSuite.Name := assign "name" attr empty;
           TestSuite.TestCase := [] |}
  end.

(** [unmarshal] into a [TestSuites]. *)
Fixpoint unmarshal_TestSuites_loop (n : nat) (v : TestSuites.t)
  : M (unmarshalled TestSuites.t) :=
  match n with
  | O => unmodelled
  | S n' =>
      let* tok := Decoder_Token in
      match tok with
      | inr e => ret (Stopped e)
      | inl (StartElement name attr) =>
          if String.eqb (Local name) "testsuite" then
            let* s := unmarshal_TestSuite n' name attr in
            match s with
            | Stopped e => ret (Stopped e)
            | Filled s =>
                unmarshal_TestSuites_loop n'
                  {| TestSuites.XMLName := TestSuites.XMLName v;
                     TestSuites.TestSuite :=
                       (TestSuites.TestSuite v ++ [s])%list;
                     TestSuites.Time := TestSuites.Time v;
                     TestSuites.Timestamp := TestSuites.Timestamp v |}
            end
          else
            let* e := Skip n' 0 in
            match e with
            | Some e => ret (Stopped e)
            | None => unmarshal_TestSuites_loop n' v
            end
      | inl (EndElement _) => ret (Filled v)
      | inl (CharData _) => unmarshal_TestSuites_loop n' v
      end
  end.

Definition unmarshal_TestSuites (n : nat) (start : xml_Name)
    (attr : list Attr.t) : M (unmarshalled TestSuites.t) :=
  match expected "testsuites" start with
  | Some e => ret (Stopped e)
  | None =>
      unmarshal_TestSuites_loop n
        {| TestSuites.XMLName := start;
           TestSuites.TestSuite := [];
           TestSuites.Time := assign "time" attr empty;
           TestSuites.Timestamp := assign "timestamp" attr empty |}
  end.

(** [Decode]: the first start element of the stream is found, and
    unmarshalled. *)
Fixpoint Decode (n : nat) : M (unmarshalled TestSuites.t) :=
  match n with
  | O => unmodelled
  | S n' =>
      let* tok := Decoder_Token in
      match tok with
      | inr e => ret (Stopped e)
      | inl (StartElement name attr) => unmarshal_TestSuites n' name attr
      | inl _ => Decode n'
      end
  end.

(** [NewDecoder] *)
Definition NewDecoder (data : string) : Decoder :=
  {| r := data; line := 1; err := None; stk := [];
     needClose := false; toClose := {| Space := empty; Local := empty |} |}.

(** The text of an error of the decoder. *)
Definition fault_error (e : fault) : error :=
  match e with
  | io_EOF => errorString "EOF"
  | SyntaxError Msg Line =>
      errorString ("XML syntax error on line "
                   +:+ format_int (Z.of_nat Line) +:+ ": " +:+ Msg)
  | UnmarshalError msg => errorString msg
  end.

(** [xml.Unmarshal(data, &testSuites)]: the decoded document or the error,
    or no answer.  No token is shorter than a byte, except the end element
    owed for a self-closing tag, so that no stream has more than twice as
    many tokens as bytes: the rounds given to [Decode] are enough. *)
Definition Unmarshal (data : string) : option (result TestSuites.t) :=
  match Decode (2 * String.length data + 1) (NewDecoder data) with
  | None => None
  | Some (Filled v, _) => Some (Ok v)
  | Some (Stopped e, _) => Some (Err (fault_error e))
  end.

(** The decoder with the bytes [t] after its input. *)
Definition extend (t : string) (d : Decoder) : Decoder :=
  reading d (r d +:+ t) (line d) (err d).

(** A method that has returned without an error in the decoder has not
    seen the end of the input: it returns the same with any bytes after
    the input, and leaves them unread. *)
Definition stable {A : Type} (m : M A) : Prop :=
  forall d a d', m d = Some (a, d') -> err d' = None ->
    err d = None /\ forall t, m (extend t d) = Some (a, extend t d').


(** The number of bytes not read yet, and the weight of the decoder: every
    token that [Token] returns makes it lighter. *)
Definition unread (d : Decoder) : nat := String.length (r d).
Definition weight (d : Decoder) : nat :=
  (2 * unread d + (if needClose d then 1 else 0))%nat.

End xml.

(** ** Specification vocabulary *)

(** The test cases of a document in document order, each with its suite. *)
Definition document_cases (d : TestSuites.t)
  : list (TestSuite.t * TestCase.t) :=
  flat_map (fun suite => map (pair suite) (TestSuite.TestCase suite))
           (TestSuites.TestSuite d).

(** The number of case elements summed across all suites. *)
Definition case_count (d : TestSuites.t) : nat :=
  list_sum (map (fun suite => length (TestSuite.TestCase suite))
                (TestSuites.TestSuite d)).

(** The status label of a case: the fail-label when the case carries a
    failure marker, the pass-label otherwise. *)
Definition case_status (testcase : TestCase.t) : string :=
  if bool_decide (is_Some (TestCase.Failure testcase)) then Failed else Passed.

(** The row of a case: suite name, case name, formatted time, status. *)
Definition case_row (sc : TestSuite.t * TestCase.t) : list string :=
  [TestSuite.Name sc.1; TestCase.Name sc.2;
   backtick +:+ TestCase.Time sc.2 +:+ backtick; case_status sc.2].

(** The number of rows whose status (last) field is [label]. *)
Definition status_count (label : string) (rows : list (list string)) : Z :=
  Z.of_nat (length (filter (fun row => last_field row = label) rows)).

(** The orders that [sort.Slice] is meant for, and what it is to be
    sorted. *)
Section order.
Context {A : Type} `{!Inhabited A}.
Variable less : A -> A -> bool.
Local Open Scope nat_scope.

(** [less] is a strict weak order: irreflexive and transitive, with a
    transitive incomparability. *)
Class StrictWeakOrder : Prop := {
  less_irrefl x : less x x = false;
  less_trans x y z : less x y = true -> less y z = true -> less x z = true;
  less_negtrans x y z :
    less x y = false -> less y z = false -> less x z = false
}.

(** [data[a:b]] is sorted: no element is less than an earlier one. *)
Definition sorted_range (data : list A) (a b : nat) : Prop :=
  forall i j, (a <= i < j)%nat -> (j < b)%nat ->
    less (data !!! j) (data !!! i) = false.

(** No element of [data[a:b]] is less than [data[a-1]], when there is
    one. *)
Definition lower_bounded (data : list A) (a b : nat) : Prop :=
  forall k, (0 < a)%nat -> (a <= k < b)%nat ->
    less (data !!! k) (data !!! (a - 1)%nat) = false.

(** [permuted a b data data']: [data'] is [data] after swaps of elements
    of [data[a:b]]. *)
Inductive permuted (a b : nat) (data : list A) : list A -> Prop :=
| permuted_refl : permuted a b data data
| permuted_swap data' i j :
    permuted a b data data' ->
    a <= i < b -> a <= j < b -> b <= length data' ->
    permuted a b data (sort.Swap data' i j).

(** In the heap at [data[first : first+hi]], no node from [lo] on is less
    than one of its children. *)
Definition heap_from (data : list A) (first lo hi : nat) : Prop :=
  forall p c, lo <= p -> c < hi -> c = 2 * p + 1 \/ c = 2 * p + 2 ->
    less (data !!! (first + p)) (data !!! (first + c)) = false.

(** The whole slice is sorted. *)
Definition sorted (data : list A) : Prop :=
  sorted_range data 0 (length data).

End order.

(** The three steps of [generateMarkdown] that read the report. *)
Definition read_report (env : Env) (reportPath : string)
  : result TestSuites.t :=
  match os_Open env reportPath with
  | Err err => Err (Errorf_w "failed to open report file: " err)
  | Ok xmlFile =>
      match io_ReadAll env xmlFile with
      | Err err => Err (Errorf_w "failed to read report file: " err)
      | Ok xmlData =>
          match xml_Unmarshal env xmlData with
          | Err err => Err (Errorf_w "failed to unmarshal XML: " err)
          | Ok testSuites => Ok testSuites
          end
      end
  end.

(** The sink that [main] writes the report to could be opened. *)
Inductive sink_opens (env : Env) (outputPath : string) : Prop :=
| opens_stdout : outputPath = empty -> sink_opens env outputPath
| opens_file : os_Create env outputPath = Ok () -> sink_opens env outputPath.

(** The rows of a report, and the report with other rows. *)
Definition rows_of (r : Report.t) : list (list string) :=
  Table.Rows (Report.Table r).

Definition with_rows (r : Report.t) (rows : list (list string)) : Report.t :=
  {| Report.Time := Report.Time r;
     Report.Timestamp := Report.Timestamp r;
     Report.Table := {| Table.Headers := Table.Headers (Report.Table r);
                        Table.Separator := Table.Separator (Report.Table r);
                        Table.Rows := rows |};
     Report.OK := Report.OK r;
     Report.Failures := Report.Failures r;
     Report.Passes := Report.Passes r |}.

(** Every row has a last field. *)
Definition rows_nonempty (rows : list (list string)) : Prop :=
  Forall (fun row => row <> []) rows.

(** The rows with a given status, in the order of the table. *)
Definition rows_with_status (status : string) (rows : list (list string))
  : list (list string) :=
  filter (fun row => last_field row = status) rows.

(** The status never grows from a row to a later one. *)
Definition descending_status (rows : list (list string)) : Prop :=
  forall i j rowi rowj,
    rows !! i = Some rowi -> rows !! j = Some rowj -> (i < j)%nat ->
    string_lt (last_field rowi) (last_field rowj) = false.

(** The rows of a status are next to each other. *)
Definition contiguous_status (rows : list (list string)) : Prop :=
  forall i j k rowi rowj rowk,
    rows !! i = Some rowi -> rows !! j = Some rowj -> rows !! k = Some rowk ->
    (i < j < k)%nat -> last_field rowi = last_field rowk ->
    last_field rowj = last_field rowi.

(** ** Example documents *)

Definition no_name : xml_Name := {| Space := empty; Local := empty |}.

Definition passing (name : string) : TestCase.t :=
  {| TestCase.Name := name; TestCase.Time := "1"; TestCase.Failure := None |}.

Definition failing (name : string) : TestCase.t :=
  {| TestCase.Name := name; TestCase.Time := "1";
     TestCase.Failure := Some "boom" |}.

Definition document (suites : list TestSuite.t) : TestSuites.t :=
  {| TestSuites.XMLName := no_name;
     TestSuites.TestSuite := suites;
     TestSuites.Time := "2";
     TestSuites.Timestamp := "2024-01-01" |}.

Definition suite (name : string) (cases : list TestCase.t) : TestSuite.t :=
  {| TestSuite.XMLName := no_name;
     TestSuite.Name := name;
     TestSuite.TestCase := cases |}.

(** One suite whose first case passes and whose second case fails. *)
Definition doc_pass_fail : TestSuites.t :=
  document [suite "smoke" [passing "boot"; failing "login"]].

(** One suite of thirteen cases: twelve that pass, then one that fails. *)
Definition doc_thirteen : TestSuites.t :=
  document
    [suite "e2e"
       [passing "t00"; passing "t01"; passing "t02"; passing "t03";
        passing "t04"; passing "t05"; passing "t06"; passing "t07";
        passing "t08"; passing "t09"; passing "t10"; passing "t11";
        failing "t12"]].

(** One suite of fourteen cases, of which eight fail: the sort of their
    rows reaches [breakPatterns_func]. *)
Definition doc_fourteen : TestSuites.t :=
  document
    [suite "e2e"
       [passing "t00"; passing "t01"; passing "t02"; failing "t03";
        failing "t04"; passing "t05"; failing "t06"; failing "t07";
        failing "t08"; failing "t09"; failing "t10"; failing "t11";
        passing "t12"; passing "t13"]].

(** A suite that is named like the fail-label, with one case, which
    passes. *)
Definition doc_suite_named_Failed : TestSuites.t :=
  document [suite ":x: Failed" [passing "boot"]].

(** The report that [generateMarkdown] builds for a document: the four
    headers, and one row per case. *)
Definition report_for (d : TestSuites.t) : Report.t :=
  NewReport (TestSuites.Time d) (TestSuites.Timestamp d)
    {| Table.Headers := headers;
       Table.Separator := replicate 4 empty;
       Table.Rows := map case_row (document_cases d) |}.

(** The report of [doc_pass_fail]. *)
Definition report_pass_fail : Report.t := report_for doc_pass_fail.

(** A run whose report file parses to the document [d]. *)
Definition env_of (d : TestSuites.t) : Env :=
  {| File := unit;
     os_Open := fun _ => Ok ();
     io_ReadAll := fun _ => Ok "<testsuites/>";
     xml_Unmarshal := fun _ => Ok d;
     os_Create := fun _ => Ok () |}.

(** One suite with one case, which passes. *)
Definition doc_one_pass : TestSuites.t :=
  {| TestSuites.XMLName := no_name;
     TestSuites.TestSuite :=
       [suite "smoke"
          [{| TestCase.Name := "boot"; TestCase.Time := "0.5";
              TestCase.Failure := None |}]];
     TestSuites.Time := "1.5";
     TestSuites.Timestamp := "2024-01-01" |}.

(** Two suites, each with one case that passes and one that fails. *)
Definition doc_two_suites : TestSuites.t :=
  document [suite "a" [passing "a1"; failing "a2"];
            suite "b" [passing "b1"; failing "b2"]].



(** The last byte of [s] that is not white space, or [last]. *)
Fixpoint last_byte (s : string) (last : option ascii) : option ascii :=
  match s with
  | EmptyString => last
  | String b s' => last_byte s' (if xml.is_space b then last else Some b)
  end.

(** What every well-formed XML document does.  By production 1 of XML 1.0
    a document is a prolog, one element, and then comments, processing
    instructions and white space only: white space apart, it ends with the
    [>] of the end tag of its root element, or of a comment or a processing
    instruction after it. *)
Definition ends_in_markup (s : string) : bool :=
  bool_decide (last_byte s None = Some ">"%char).

(** A run whose report file holds [stream] and whose decoder is
    [xml.Unmarshal]; [outside] is what the decoder returns for the streams
    that the model of the decoder does not cover. *)
Definition env_reading (outside : string -> result TestSuites.t)
    (stream : string) : Env :=
  {| File := unit;
     os_Open := fun _ => Ok ();
     io_ReadAll := fun _ => Ok stream;
     xml_Unmarshal := fun data => default (outside data) (xml.Unmarshal data);
     os_Create := fun _ => Ok () |}.

(** The report of one suite with one case, which passes; and the same
    bytes with bytes that are not XML after the end tag of the root
    element. *)
Definition stream_one_pass : string :=
  "<testsuites time='1.5' timestamp='2024-01-01'>"
  +:+ "<testsuite name='smoke'>"
  +:+ "<testcase name='boot' time='0.5'></testcase>"
  +:+ "</testsuite>"
  +:+ "</testsuites>".

Definition stream_trailing : string :=
  stream_one_pass +:+ "</testsuite> & this is <not XML".

(** What the decoder makes of [stream_one_pass]. *)
Definition decoded_one_pass : TestSuites.t :=
  {| TestSuites.XMLName := {| Space := empty; Local := "testsuites" |};
     TestSuites.TestSuite :=
       [{| TestSuite.XMLName := {| Space := empty; Local := "testsuite" |};
           TestSuite.Name := "smoke";
           TestSuite.TestCase :=
             [{| TestCase.Name := "boot"; TestCase.Time := "0.5";
                 TestCase.Failure := None |}] |}];
     TestSuites.Time := "1.5";
     TestSuites.Timestamp := "2024-01-01" |}.

(** A run whose report file was cut short inside its first tag. *)
Definition env_malformed : Env :=
  env_reading (fun _ => Err (errorString "EOF")) "<testsuites".

(** A run whose report file does not exist. *)
Definition env_missing : Env :=
  {| File := unit;
     os_Open := fun _ =>
       Err (errorString
              "open chainsaw-report.xml: no such file or directory");
     io_ReadAll := fun _ => Ok empty;
     xml_Unmarshal := fun _ => Err (errorString "EOF");
     os_Create := fun _ => Ok () |}.

(** The report of a document, as [generateMarkdown] builds it. *)
Definition report_of (d : TestSuites.t) : exec Report.t :=
  table ← build_table d;
  Ret (NewReport (TestSuites.Time d) (TestSuites.Timestamp d) table).

(** ** Further vocabulary *)

(** The two status labels. *)
Definition labels : list string := [Failed; Passed].

(** No suite and no case of the document is named like a status label. *)
Definition plain_names (d : TestSuites.t) : Prop :=
  Forall (fun sc : TestSuite.t * TestCase.t =>
            (TestSuite.Name (fst sc) ∉ labels)
            /\ (TestCase.Name (snd sc) ∉ labels))
         (document_cases d).

(** The cases of a document that carry a failure marker, and those that
    carry none. *)
Definition failed_cases (d : TestSuites.t)
  : list (TestSuite.t * TestCase.t) :=
  filter (fun sc => is_Some (TestCase.Failure sc.2)) (document_cases d).

Definition passed_cases (d : TestSuites.t)
  : list (TestSuite.t * TestCase.t) :=
  filter (fun sc => TestCase.Failure sc.2 = None) (document_cases d).

(** The number of bytes [c] in a string. *)
Fixpoint count_char (c : ascii) (s : string) : nat :=
  match s with
  | EmptyString => 0%nat
  | String x s' => ((if Ascii.eqb x c then 1 else 0) + count_char c s')%nat
  end.

(** The table delimiter, and [n] of them in a row. *)
Definition bar : ascii := "|"%char.

Fixpoint bars (n : nat) : string :=
  match n with
  | O => empty
  | S n' => String bar (bars n')
  end.

(** A run in which the output file cannot be created. *)
Definition env_no_output : Env :=
  {| File := unit;
     os_Open := fun _ => Ok ();
     io_ReadAll := fun _ => Ok "<testsuites/>";
     xml_Unmarshal := fun _ => Ok doc_pass_fail;
     os_Create := fun _ =>
       Err (errorString "open /report.md: permission denied") |}.


(** ** The layout of a report

    The bytes of a report as a writer of JUnit XML may lay it out: the
    [testsuites] element with its attributes, its suites and their cases,
    the values of the attributes in single quotes, and nothing between the
    elements. *)

Section layout.
Import xml.
Local Open Scope nat_scope.

(** A byte that stands for itself in character data and in attribute
    values: printable ASCII, no markup, no quote. *)
Definition plain_byte (b : ascii) : bool :=
  xml.between " " "~" b
  && negb (Ascii.eqb b "<" || Ascii.eqb b ">" || Ascii.eqb b "&"
           || Ascii.eqb b "'" || Ascii.eqb b "034").
Definition plain (s : string) : Prop := xml.all_bytes plain_byte s = true.

(** A document whose names, times and failure texts are plain. *)
Definition plain_case (c : TestCase.t) : Prop :=
  plain (TestCase.Name c) /\ plain (TestCase.Time c)
  /\ from_option plain True (TestCase.Failure c).

Definition plain_suite (s : TestSuite.t) : Prop :=
  plain (TestSuite.Name s) /\ Forall plain_case (TestSuite.TestCase s).

Definition plain_document (d : TestSuites.t) : Prop :=
  plain (TestSuites.Time d) /\ plain (TestSuites.Timestamp d)
  /\ Forall plain_suite (TestSuites.TestSuite d).

(** An attribute, and the elements one after the other. *)
Definition attribute (name value : string) : string :=
  " " +:+ name +:+ "='" +:+ value +:+ "'".

Fixpoint encode_all {A : Type} (encode : A -> string) (xs : list A)
  : string :=
  match xs with
  | [] => empty
  | x :: xs' => encode x +:+ encode_all encode xs'
  end.

(** The [failure] element of a case that failed, the [testcase] and
    [testsuite] elements, and the report. *)
Definition encode_failure (failure : option string) : string :=
  match failure with
  | Some text => "<failure>" +:+ text +:+ "</failure>"
  | None => empty
  end.

Definition encode_case (c : TestCase.t) : string :=
  "<testcase" +:+ attribute "name" (TestCase.Name c)
  +:+ attribute "time" (TestCase.Time c) +:+ ">"
  +:+ encode_failure (TestCase.Failure c) +:+ "</testcase>".

Definition encode_suite (s : TestSuite.t) : string :=
  "<testsuite" +:+ attribute "name" (TestSuite.Name s) +:+ ">"
  +:+ encode_all encode_case (TestSuite.TestCase s) +:+ "</testsuite>".

Definition encode (d : TestSuites.t) : string :=
  "<testsuites" +:+ attribute "time" (TestSuites.Time d)
  +:+ attribute "timestamp" (TestSuites.Timestamp d) +:+ ">"
  +:+ encode_all encode_suite (TestSuites.TestSuite d) +:+ "</testsuites>".

(** What the decoder makes of a document that is laid out: the document,
    with the names of the elements in its [XMLName] fields. *)
Definition decoded (d : TestSuites.t) : TestSuites.t :=
  {| TestSuites.XMLName := {| Space := empty; Local := "testsuites" |};
     TestSuites.TestSuite :=
       map (fun s =>
              {| TestSuite.XMLName :=
                   {| Space := empty; Local := "testsuite" |};
                 TestSuite.Name := TestSuite.Name s;
                 TestSuite.TestCase := TestSuite.TestCase s |})
           (TestSuites.TestSuite d);
     TestSuites.Time := TestSuites.Time d;
     TestSuites.Timestamp := TestSuites.Timestamp d |}.

(** A name with no name space. *)
Definition named (n : string) : xml_Name := {| Space := empty; Local := n |}.

(** The decoder in front of the bytes [s], on line [l], with the elements
    [st] open, no error and no end tag owed. *)
Definition at_ (s : string) (l : nat) (st : list xml_Name) (tc : xml_Name)
  : Decoder :=
  {| r := s; line := l; err := None; stk := st; needClose := false;
     toClose := tc |}.

(** The names that the decoder reads as they are written, and the bytes
    that end a name. *)
Definition name_byte (b : ascii) : bool := ascii_byte b && isNameByte b.

Definition is_name (n : string) : Prop :=
  all_bytes name_byte n = true /\ isName n = true /\ has_colon n = false
  /\ String.eqb n "xmlns" = false.

Definition ends_name (rest : string) : Prop :=
  exists c rest', rest = String c rest' /\ ascii_byte c = true
                  /\ isNameByte c = false.

Definition is_quote (q : ascii) : Prop := q = "'"%char \/ q = "034"%char.

(** Attributes as pairs of a name and a value, and the tags. *)
Definition attr_of (a : string * string) : Attr.t :=
  {| Attr.Name := {| Space := empty; Local := a.1 |}; Attr.Value := a.2 |}.

Definition is_attribute (a : string * string) : Prop :=
  is_name a.1 /\ plain a.2.

Definition encode_attrs (attrs : list (string * string)) : string :=
  encode_all (fun a => attribute a.1 a.2) attrs.

Definition start_tag (n : string) (attrs : list (string * string))
    (rest : string) : string :=
  String "<" (n +:+ encode_attrs attrs +:+ String ">" rest).
Definition end_tag (n rest : string) : string :=
  String "<" (String "/" (n +:+ String ">" rest)).

End layout.

(** ** The table built from a document *)

Lemma add_case_row suite table testcase :
  length (Table.Headers table) = 4%nat ->
  add_case suite table testcase =
  Ret {| Table.Headers := Table.Headers table;
         Table.Separator := Table.Separator table;
         Table.Rows := Table.Rows table ++ [case_row (suite, testcase)] |}.
Proof.
  intros Hlen. unfold add_case, Table.Add. cbn [length]. rewrite Hlen. cbn.
  unfold case_row, case_status. cbn.
  destruct (TestCase.Failure testcase); reflexivity.
Qed.

Lemma add_cases_rows suite cases table :
  length (Table.Headers table) = 4%nat ->
  range_exec (add_case suite) cases table =
  Ret {| Table.Headers := Table.Headers table;
         Table.Separator := Table.Separator table;
         Table.Rows := Table.Rows table ++ map case_row (map (pair suite) cases) |}.
Proof.
  revert table. induction cases as [|c cases IH]; intros table Hlen; cbn.
  - rewrite app_nil_r. by destruct table.
  - change (range_exec (add_case suite) (c :: cases) table)
      with (table' ← add_case suite table c;
            range_exec (add_case suite) cases table').
    rewrite add_case_row by done.
    change (mbind ?k (Ret ?a)) with (k a). cbv beta.
    rewrite IH by done. cbn [Table.Headers Table.Separator Table.Rows].
    by rewrite <- app_assoc.
Qed.

Lemma add_suite_rows table suite :
  length (Table.Headers table) = 4%nat ->
  add_suite table suite =
  Ret {| Table.Headers := Table.Headers table;
         Table.Separator := Table.Separator table;
         Table.Rows :=
           Table.Rows table
           ++ map case_row (map (pair suite) (TestSuite.TestCase suite)) |}.
Proof. apply add_cases_rows. Qed.

Lemma add_suites_rows suites table :
  length (Table.Headers table) = 4%nat ->
  range_exec add_suite suites table =
  Ret {| Table.Headers := Table.Headers table;
         Table.Separator := Table.Separator table;
         Table.Rows :=
           Table.Rows table
           ++ map case_row
                (flat_map (fun s => map (pair s) (TestSuite.TestCase s)) suites) |}.
Proof.
  revert table. induction suites as [|s suites IH]; intros table Hlen; cbn.
  - rewrite app_nil_r. by destruct table.
  - change (range_exec add_suite (s :: suites) table)
      with (table' ← add_suite table s; range_exec add_suite suites table').
    rewrite add_suite_rows by done.
    change (mbind ?k (Ret ?a)) with (k a). cbv beta.
    rewrite IH by done. cbn [Table.Headers Table.Separator Table.Rows].
    by rewrite map_app, app_assoc.
Qed.

(** The table of a document has the four headers, a separator of four
    empty cells and one row per case, in document order. *)
Lemma build_table_rows d :
  build_table d =
  Ret {| Table.Headers := headers;
         Table.Separator := replicate 4 empty;
         Table.Rows := map case_row (document_cases d) |}.
Proof.
  unfold build_table. by rewrite add_suites_rows.
Qed.

Lemma document_cases_length d : length (document_cases d) = case_count d.
Proof.
  unfold document_cases, case_count.
  induction (TestSuites.TestSuite d) as [|s suites IH]; cbn; [done|].
  by rewrite length_app, length_map, IH.
Qed.

Lemma Failed_ne_Passed : Failed <> Passed.
Proof. discriminate. Qed.

Lemma last_field_case_row sc : last_field (case_row sc) = case_status sc.2.
Proof. reflexivity. Qed.

(** ** The report built from a table *)

Lemma NewReport_Table time timestamp table :
  Report.Table (NewReport time timestamp table) = table.
Proof. unfold NewReport. by destruct (fold_left _ _ _). Qed.

Lemma NewReport_OK time timestamp table :
  Report.OK (NewReport time timestamp table)
  = (Report.Failures (NewReport time timestamp table) =? 0).
Proof. unfold NewReport. by destruct (fold_left _ _ _). Qed.

Lemma NewReport_counters time timestamp table :
  (Report.Failures (NewReport time timestamp table),
   Report.Passes (NewReport time timestamp table))
  = fold_left count_row (Table.Rows table) (0, 0).
Proof. unfold NewReport. by destruct (fold_left _ _ _). Qed.

(** C7: for every report, [OK] is true if and only if [Failures] is zero;
    a document with zero test cases yields a report with [Failures = 0] and
    [OK = true]. *)
Theorem C7_success_flag (time timestamp : string) (table : Table.t) :
  (Report.OK (NewReport time timestamp table) = true
   <-> Report.Failures (NewReport time timestamp table) = 0)
  /\ (forall d : TestSuites.t,
        case_count d = 0%nat ->
        exists tbl,
          build_table d = Ret tbl
          /\ Report.Failures (NewReport time timestamp tbl) = 0
          /\ Report.OK (NewReport time timestamp tbl) = true).
Proof.
  split.
  - rewrite NewReport_OK. apply Z.eqb_eq.
  - intros d Hd. eexists. split; [apply build_table_rows|].
    assert (Hrows : map case_row (document_cases d) = []).
    { apply length_zero_iff_nil. by rewrite length_map, document_cases_length. }
    unfold NewReport. cbn [Table.Rows]. rewrite Hrows. by cbn.
Qed.

(** C6: the table of a document holds, in document order, one row per
    case, and the status (last) field of the row of a case is the
    fail-label if and only if the case has a [Failure], and the pass-label
    if and only if it has none; name and time play no part. *)
Theorem C6_status_from_failure_marker (d : TestSuites.t) :
  exists table,
    build_table d = Ret table
    /\ Forall2
         (fun row sc =>
            (last_field row = Failed <-> is_Some (TestCase.Failure sc.2))
            /\ (last_field row = Passed <-> TestCase.Failure sc.2 = None)
            /\ row = [TestSuite.Name sc.1; TestCase.Name sc.2;
                      backtick +:+ TestCase.Time sc.2 +:+ backtick;
                      last_field row])
         (Table.Rows table) (document_cases d).
Proof.
  eexists. split; [apply build_table_rows|]. cbn [Table.Rows].
  apply Forall2_fmap_l, Forall_Forall2_diag, Forall_forall.
  intros [suite testcase] _. unfold compose. rewrite !last_field_case_row.
  unfold case_row, case_status. cbn [fst snd].
  destruct (TestCase.Failure testcase) as [f|]; cbn.
  - repeat split; try done; by eexists.
  - repeat split; try done; by intros [? ?].
Qed.

(** ** Failures of the input *)

Lemma generateMarkdown_read_fails env reportPath w err :
  read_report env reportPath = Err err ->
  generateMarkdown env reportPath w = (w, Ret (Some err)).
Proof.
  unfold read_report, generateMarkdown.
  destruct (os_Open env reportPath) as [f|e]; [|congruence].
  destruct (io_ReadAll env f) as [data|e]; [|congruence].
  destruct (xml_Unmarshal env data) as [ts|e]; congruence.
Qed.

(** [read_report] fails when the file cannot be opened, or cannot be read,
    or does not parse, and in no other case. *)
Lemma read_report_Err env reportPath err :
  read_report env reportPath = Err err <->
  (exists cause,
     os_Open env reportPath = Err cause
     /\ err = Errorf_w "failed to open report file: " cause)
  \/ (exists xmlFile cause,
        os_Open env reportPath = Ok xmlFile
        /\ io_ReadAll env xmlFile = Err cause
        /\ err = Errorf_w "failed to read report file: " cause)
  \/ (exists xmlFile xmlData cause,
        os_Open env reportPath = Ok xmlFile
        /\ io_ReadAll env xmlFile = Ok xmlData
        /\ xml_Unmarshal env xmlData = Err cause
        /\ err = Errorf_w "failed to unmarshal XML: " cause).
Proof.
  unfold read_report. split.
  - destruct (os_Open env reportPath) as [f|e] eqn:Hopen.
    + destruct (io_ReadAll env f) as [data|e] eqn:Hread.
      * destruct (xml_Unmarshal env data) as [ts|e] eqn:Hparse; [done|].
        intros [= <-]. right; right. by exists f, data, e.
      * intros [= <-]. right; left. by exists f, e.
    + intros [= <-]. left. by exists e.
  - intros [(c & H1 & ->)|[(f & c & H1 & H2 & ->)
                          |(f & d & c & H1 & H2 & H3 & ->)]].
    + by rewrite H1.
    + by rewrite H1, H2.
    + by rewrite H1, H2, H3.
Qed.

Lemma main_sink env reportPath outputPath :
  sink_opens env outputPath ->
  exists writer,
    chosen (main env reportPath outputPath) = Some writer
    /\ main env reportPath outputPath =
       match generateMarkdown env reportPath empty with
       | (w, Ret None) =>
           {| chosen := Some writer; written := w; Stderr := empty;
              ended := Exit 0 |}
       | (w, Ret (Some err)) =>
           {| chosen := Some writer; written := w +:+ failure_notice err;
              Stderr := empty; ended := Exit 1 |}
       | (w, Panic msg) =>
           {| chosen := Some writer; written := w; Stderr := empty;
              ended := Crash msg |}
       end.
Proof.
  intros Hsink. unfold main.
  destruct (String.eqb outputPath empty) eqn:Hpath.
  - exists ToStdout.
    destruct (generateMarkdown env reportPath empty) as [w [[e|]|msg]]; done.
  - destruct Hsink as [->|Hcreate]; [by rewrite String.eqb_refl in Hpath|].
    rewrite Hcreate. exists (ToFile outputPath).
    destruct (generateMarkdown env reportPath empty) as [w [[e|]|msg]]; done.
Qed.

(** C8: when the bytes read from the report do not parse, report
    generation returns an error that wraps the cause reported by the
    parser; the process exits with code 1, and what it wrote to the chosen
    sink is the failure notice: the heading and a fenced block with the
    text of the error. *)
Theorem C8_malformed_input (env : Env) (reportPath outputPath : string)
    (xmlFile : File env) (xmlData : string) (cause : error) :
  os_Open env reportPath = Ok xmlFile ->
  io_ReadAll env xmlFile = Ok xmlData ->
  xml_Unmarshal env xmlData = Err cause ->
  sink_opens env outputPath ->
  exists err,
    (forall w, generateMarkdown env reportPath w = (w, Ret (Some err)))
    /\ Unwrap err = Some cause
    /\ Error err = "failed to unmarshal XML: " +:+ Error cause
    /\ ended (main env reportPath outputPath) = Exit 1
    /\ is_Some (chosen (main env reportPath outputPath))
    /\ written (main env reportPath outputPath)
       = "## Report generation failed :skull:" +:+ nl +:+ nl
          +:+ "```log" +:+ nl +:+ Error err +:+ nl +:+ "```" +:+ nl.
Proof.
  intros Hopen Hread Hparse Hsink.
  exists (Errorf_w "failed to unmarshal XML: " cause).
  assert (Hgen : forall w, generateMarkdown env reportPath w
            = (w, Ret (Some (Errorf_w "failed to unmarshal XML: " cause)))).
  { intros w. apply generateMarkdown_read_fails.
    unfold read_report. by rewrite Hopen, Hread, Hparse. }
  split; [exact Hgen|]. split; [done|]. split; [done|].
  destruct (main_sink env reportPath outputPath Hsink) as (writer & Hw & Hmain).
  rewrite Hgen in Hmain. rewrite Hmain. cbn.
  split; [done|]. split; [by eexists|]. reflexivity.
Qed.

(** C9: when opening, reading or parsing the report fails,
    [generateMarkdown] returns the error and leaves the writer as it found
    it, whatever the writer held; the run then writes the failure notice
    and nothing else. *)
Theorem C9_no_partial_output (env : Env) (reportPath outputPath : string)
    (err : error) :
  read_report env reportPath = Err err ->
  (forall w, generateMarkdown env reportPath w = (w, Ret (Some err)))
  /\ (sink_opens env outputPath ->
      written (main env reportPath outputPath) = failure_notice err)
  /\ (~ sink_opens env outputPath ->
      written (main env reportPath outputPath) = empty).
Proof.
  intros Hfail.
  assert (Hgen := fun w => generateMarkdown_read_fails env reportPath w err Hfail).
  split; [exact Hgen|]. split.
  - intros Hsink.
    destruct (main_sink env reportPath outputPath Hsink) as (writer & Hw & Hmain).
    rewrite Hgen in Hmain. by rewrite Hmain.
  - intros Hsink. unfold main.
    destruct (String.eqb outputPath empty) eqn:Hpath.
    { apply String.eqb_eq in Hpath. destruct Hsink. by left. }
    destruct (os_Create env outputPath) as [[]|e] eqn:Hcreate; [|done].
    destruct Hsink. by right.
Qed.

(** ** Package [sort]: slices under [Swap] *)

Section swaps.
Context {A : Type} `{!Inhabited A}.
Implicit Types data : list A.
Local Open Scope nat_scope.

Lemma Swap_length data i j : length (sort.Swap data i j) = length data.
Proof. unfold sort.Swap. by rewrite !length_insert. Qed.

Lemma Swap_lookup data i j k :
  i < length data -> j < length data ->
  sort.Swap data i j !!! k =
  if decide (k = j) then data !!! i
  else if decide (k = i) then data !!! j
  else data !!! k.
Proof.
  intros Hi Hj. unfold sort.Swap.
  rewrite !list_lookup_total_insert, !length_insert.
  repeat case_decide; try done; try lia; naive_solver.
Qed.

Lemma Swap_Permutation data i j :
  i < length data -> j < length data -> sort.Swap data i j ≡ₚ data.
Proof.
  intros Hi Hj. unfold sort.Swap.
  apply Permutation_insert_swap; by apply list_lookup_lookup_total_lt.
Qed.

Lemma permuted_length a b data data' :
  permuted a b data data' -> length data' = length data.
Proof. induction 1; [done|]. by rewrite Swap_length. Qed.

Lemma permuted_trans a b data1 data2 data3 :
  permuted a b data1 data2 -> permuted a b data2 data3 ->
  permuted a b data1 data3.
Proof. intros H12 H23. induction H23; [done|]. by constructor. Qed.

Lemma permuted_mono a b a' b' data data' :
  permuted a b data data' -> a' <= a -> b <= b' -> b' <= length data ->
  permuted a' b' data data'.
Proof.
  intros H Ha Hb Hlen. induction H; [constructor|].
  constructor; [done|lia|lia|].
  apply permuted_length in H. lia.
Qed.

Lemma permuted_one a b data i j :
  a <= i < b -> a <= j < b -> b <= length data ->
  permuted a b data (sort.Swap data i j).
Proof. intros. constructor; [constructor|done..]. Qed.

Lemma permuted_outside a b data data' k :
  permuted a b data data' -> ~ (a <= k < b) -> data' !!! k = data !!! k.
Proof.
  intros H Hk. induction H as [|data' i j H IH Hi Hj Hlen]; [done|].
  rewrite Swap_lookup by lia. repeat case_decide; by (lia || done).
Qed.

Lemma permuted_inside (P : A -> Prop) a b data data' :
  permuted a b data data' ->
  (forall k, a <= k < b -> P (data !!! k)) ->
  forall k, a <= k < b -> P (data' !!! k).
Proof.
  intros H HP. induction H as [|data' i j H IH Hi Hj Hlen]; [done|].
  intros k Hk. rewrite Swap_lookup by lia. repeat case_decide; by apply IH.
Qed.

Lemma permuted_Permutation a b data data' :
  permuted a b data data' -> data' ≡ₚ data.
Proof.
  induction 1 as [|data' i j H IH Hi Hj Hlen]; [done|].
  rewrite Swap_Permutation by lia. done.
Qed.

(** The loops [for i <= j && p(i) { i++ }] and [for i <= j && p(j) { j-- }]. *)
Lemma scan_up_spec (p : nat -> bool) fuel i j :
  j + 1 - i <= fuel -> i <= j + 1 ->
  let i' := sort.scan_up p fuel i j in
  i <= i' <= j + 1
  /\ (forall k, i <= k < i' -> p k = true)
  /\ (i' <= j -> p i' = false).
Proof.
  revert i. induction fuel as [|fuel IH]; intros i Hfuel Hi; cbn.
  - split; [lia|]. split; intros; lia.
  - destruct (Nat.leb_spec i j) as [Hij|Hij]; cbn.
    + destruct (p i) eqn:Hp.
      * destruct (IH (S i)) as (Hb & Hall & Hstop); [lia..|].
        split; [lia|]. split; [|done].
        intros k Hk. destruct (decide (k = i)) as [->|]; [done|].
        apply Hall. lia.
      * split; [lia|]. split; [intros; lia|done].
    + split; [lia|]. split; intros; lia.
Qed.

Lemma scan_down_spec (p : nat -> bool) i j :
  1 <= i <= j + 1 ->
  let j' := sort.scan_down p i j in
  i <= j' + 1 /\ j' <= j
  /\ (forall k, j' < k <= j -> p k = true)
  /\ (i <= j' -> p j' = false).
Proof.
  induction j as [|j IH]; intros Hi; cbn.
  - split; [lia|]. split; [lia|]. split; intros; lia.
  - destruct (Nat.leb_spec i (S j)) as [Hij|Hij]; cbn.
    + destruct (p (S j)) eqn:Hp.
      * destruct IH as (Hb & Hle & Hall & Hstop); [lia|].
        split; [lia|]. split; [lia|]. split; [|done].
        intros k Hk. destruct (decide (k = S j)) as [->|]; [done|].
        apply Hall. lia.
      * split; [lia|]. split; [lia|]. split; [intros; lia|done].
    + split; [lia|]. split; [lia|]. split; intros; lia.
Qed.

End swaps.

(** ** Package [sort]: insertion sort *)

Section insertion.
Context {A : Type} `{!Inhabited A}.
Variable less : A -> A -> bool.
Context `{!StrictWeakOrder less}.
Implicit Types data : list A.
Local Open Scope nat_scope.

Lemma less_asym x y : less x y = true -> less y x = false.
Proof.
  intros Hxy. destruct (less y x) eqn:Hyx; [|done].
  rewrite <- (less_irrefl less x). symmetry. by eapply less_trans.
Qed.

Lemma sorted_range_permuted_below data data' a b a' b' :
  permuted a' b' data data' -> b <= a' ->
  sorted_range less data a b -> sorted_range less data' a b.
Proof.
  intros Hperm Hb Hs i j Hij Hj.
  rewrite !(permuted_outside _ _ _ _ _ Hperm) by lia. by apply Hs.
Qed.

Lemma sorted_range_permuted_above data data' a b a' b' :
  permuted a' b' data data' -> b' <= a ->
  sorted_range less data a b -> sorted_range less data' a b.
Proof.
  intros Hperm Hb Hs i j Hij Hj.
  rewrite !(permuted_outside _ _ _ _ _ Hperm) by lia. by apply Hs.
Qed.

Lemma lower_bounded_permuted data data' a b :
  permuted a b data data' ->
  lower_bounded less data a b -> lower_bounded less data' a b.
Proof.
  intros Hperm Hlow k Ha Hk.
  rewrite (permuted_outside _ _ _ _ (a - 1) Hperm) by lia.
  revert k Hk.
  apply (permuted_inside (fun x => less x (data !!! (a - 1)) = false)
                         _ _ _ _ Hperm).
  intros k Hk. by apply Hlow.
Qed.

Lemma insert_down_S a j data :
  sort.insert_down less a (S j) data =
  if (a <? S j) && less (data !!! S j) (data !!! j)
  then sort.insert_down less a j (sort.Swap data (S j) j)
  else data.
Proof. reflexivity. Qed.

(** The inner loop of insertion sort: the element at [j] moves down to
    its place in the sorted [data[a:j]]. *)
Lemma insert_down_spec a j : forall data i,
  a <= j <= i -> i < length data ->
  (forall p q, a <= p < q -> q <= i -> p <> j -> q <> j ->
     less (data !!! q) (data !!! p) = false) ->
  (forall q, j < q <= i -> less (data !!! j) (data !!! q) = true) ->
  permuted a (i + 1) data (sort.insert_down less a j data)
  /\ sorted_range less (sort.insert_down less a j data) a (i + 1).
Proof.
  induction j as [|j IH]; intros data i Hj Hi Hpairs Hright.
  - cbn. split; [constructor|]. intros p q Hpq Hq.
    destruct (decide (p = 0)) as [->|Hp].
    + apply less_asym, Hright. lia.
    + apply Hpairs; lia.
  - rewrite insert_down_S.
    destruct (Nat.ltb_spec a (S j)) as [Ha|Ha]; cbn [andb];
      [destruct (less (data !!! S j) (data !!! j)) eqn:Hless|].
    + destruct (IH (sort.Swap data (S j) j) i) as [Hperm Hsorted].
      * lia.
      * by rewrite Swap_length.
      * intros p q Hpq Hq Hpj Hqj. rewrite !Swap_lookup by lia.
        repeat case_decide; subst; try lia; apply Hpairs; lia.
      * intros q Hq. rewrite !Swap_lookup by lia.
        repeat case_decide; subst; try lia; [done|]. apply Hright. lia.
      * split; [|done].
        eapply permuted_trans; [|exact Hperm].
        apply permuted_one; lia.
    + split; [constructor|]. intros p q Hpq Hq.
      destruct (decide (p = S j)) as [->|Hp].
      { apply less_asym, Hright. lia. }
      destruct (decide (q = S j)) as [->|Hq'].
      { destruct (decide (p = j)) as [->|Hpj]; [done|].
        apply (less_negtrans less _ (data !!! j)); [done|].
        apply Hpairs; lia. }
      apply Hpairs; lia.
    + split; [constructor|]. intros p q Hpq Hq.
      destruct (decide (p = S j)) as [->|Hp].
      { apply less_asym, Hright. lia. }
      apply Hpairs; lia.
Qed.

Lemma insertion_loop_spec a n : forall i data,
  a < i -> i + n <= length data ->
  sorted_range less data a i ->
  permuted a (i + n) data (sort.insertion_loop less a i n data)
  /\ sorted_range less (sort.insertion_loop less a i n data) a (i + n).
Proof.
  induction n as [|n IH]; intros i data Hi Hlen Hsorted; cbn.
  - rewrite Nat.add_0_r. split; [constructor|done].
  - destruct (insert_down_spec a i data i) as [Hperm Hs]; [lia..| | |].
    { intros p q Hpq Hq _ Hqi. apply Hsorted; lia. }
    { intros q Hq. lia. }
    destruct (IH (S i) (sort.insert_down less a i data)) as [Hperm' Hs'].
    + lia.
    + rewrite (permuted_length _ _ _ _ Hperm). lia.
    + by rewrite <- Nat.add_1_r.
    + replace (i + S n) with (S i + n) by lia. split; [|done].
      eapply permuted_trans; [|exact Hperm'].
      eapply permuted_mono; [exact Hperm|lia..].
Qed.

(** [insertionSort_func] sorts [data[a:b]]. *)
Lemma insertionSort_func_spec data a b :
  a <= b <= length data ->
  permuted a b data (sort.insertionSort_func less data a b)
  /\ sorted_range less (sort.insertionSort_func less data a b) a b.
Proof.
  intros Hab. unfold sort.insertionSort_func.
  destruct (decide (b <= a + 1)) as [Hsmall|Hbig].
  - replace (b - (a + 1)) with 0 by lia. cbn.
    split; [constructor|]. intros i j Hij Hj. lia.
  - destruct (insertion_loop_spec a (b - (a + 1)) (a + 1) data) as [Hp Hs].
    + lia.
    + lia.
    + intros i j Hij Hj. lia.
    + by replace (a + 1 + (b - (a + 1))) with b in * by lia.
Qed.

End insertion.

(** ** Package [sort]: the partitions of quicksort *)

Section partition.
Context {A : Type} `{!Inhabited A}.
Variable less : A -> A -> bool.
Context `{!StrictWeakOrder less}.
Implicit Types data : list A.
Local Open Scope nat_scope.

Lemma partition_loop_S fuel data a i j :
  sort.partition_loop less (S fuel) data a i j =
  let i' := sort.scan_up (fun i => less (data !!! i) (data !!! a)) (S j - i) i j in
  let j' := sort.scan_down (fun j => negb (less (data !!! j) (data !!! a))) i' j in
  if j' <? i' then (data, j')
  else sort.partition_loop less fuel (sort.Swap data i' j') a (S i') (j' - 1).
Proof. reflexivity. Qed.

(** The loop of [partition_func], with the pivot at [a]: the elements
    before [i] are less than the pivot, those after [j] are not. *)
Lemma partition_loop_spec fuel : forall data a i j b,
  j + 1 - i <= fuel ->
  a + 1 <= i <= j + 1 -> j < b <= length data ->
  (forall k, a < k < i -> less (data !!! k) (data !!! a) = true) ->
  (forall k, j < k < b -> less (data !!! k) (data !!! a) = false) ->
  exists data' j',
    sort.partition_loop less fuel data a i j = (data', j')
    /\ permuted (a + 1) b data data'
    /\ a <= j' < b
    /\ (forall k, a < k <= j' -> less (data' !!! k) (data' !!! a) = true)
    /\ (forall k, j' < k < b -> less (data' !!! k) (data' !!! a) = false).
Proof.
  induction fuel as [|fuel IH]; intros data a i j b Hfuel Hi Hj Hleft Hright.
  - exists data, j. cbn. split; [done|]. split; [constructor|].
    split; [lia|]. split; [|done]. intros k Hk. apply Hleft. lia.
  - rewrite partition_loop_S. cbv zeta.
    pose proof (scan_up_spec (fun i => less (data !!! i) (data !!! a))
                  (S j - i) i j) as Hup.
    destruct Hup as (Hi' & Hup & Hstop); [lia..|].
    set (i' := sort.scan_up _ _ _ _) in *.
    pose proof (scan_down_spec
                  (fun j => negb (less (data !!! j) (data !!! a))) i' j) as Hdn.
    destruct Hdn as (Hj' & Hj'' & Hdn & Hstop'); [lia|].
    set (j' := sort.scan_down _ _ _) in *.
    assert (Hleft' : forall k, a < k < i' ->
                       less (data !!! k) (data !!! a) = true).
    { intros k Hk. destruct (decide (k < i)); [apply Hleft|apply Hup]; lia. }
    assert (Hright' : forall k, j' < k < b ->
                        less (data !!! k) (data !!! a) = false).
    { intros k Hk. destruct (decide (j < k)); [apply Hright; lia|].
      apply negb_true_iff, Hdn. lia. }
    clearbody i' j'.
    destruct (Nat.ltb_spec j' i') as [Hlt|Hge].
    + exists data, j'. split; [done|]. split; [constructor|].
      split; [lia|]. split; [|done]. intros k Hk. apply Hleft'. lia.
    + specialize (Hstop ltac:(lia)). specialize (Hstop' ltac:(lia)).
      apply negb_false_iff in Hstop'.
      assert (i' <> j') by (intros Heq; rewrite Heq in Hstop; congruence).
      destruct (IH (sort.Swap data i' j') a (S i') (j' - 1) b)
        as (data' & j3 & Heq & Hperm & Hj3 & Hl3 & Hr3).
      * lia.
      * lia.
      * rewrite Swap_length. lia.
      * intros k Hk. rewrite !Swap_lookup by lia.
        repeat case_decide; subst; try lia; [done|]. apply Hleft'. lia.
      * intros k Hk. rewrite !Swap_lookup by lia.
        repeat case_decide; subst; try lia; [done|]. apply Hright'. lia.
      * exists data', j3. split; [done|]. split; [|done].
        eapply permuted_trans; [|exact Hperm]. apply permuted_one; lia.
Qed.

(** What [partition_func] does before its loop is one more turn of that
    loop. *)
Lemma partition_func_loop data a b pivot :
  exists alreadyPartitioned,
    sort.partition_func less data a b pivot =
    (sort.Swap
       (sort.partition_loop less (S (b - a)) (sort.Swap data a pivot)
                            a (a + 1) (b - 1)).1
       (sort.partition_loop less (S (b - a)) (sort.Swap data a pivot)
                            a (a + 1) (b - 1)).2 a,
     (sort.partition_loop less (S (b - a)) (sort.Swap data a pivot)
                          a (a + 1) (b - 1)).2,
     alreadyPartitioned).
Proof.
  rewrite partition_loop_S. unfold sort.partition_func, sort.Less. cbv zeta.
  destruct (_ <? _); [by eexists|].
  destruct (sort.partition_loop _ _ _ _ _ _). by eexists.
Qed.

(** [partition_func] puts the pivot at [mid], the smaller elements of
    [data[a:b]] before it and the others after it. *)
Lemma partition_func_spec data a b pivot :
  a <= pivot < b -> b <= length data ->
  exists data' mid alreadyPartitioned,
    sort.partition_func less data a b pivot = (data', mid, alreadyPartitioned)
    /\ permuted a b data data'
    /\ a <= mid < b
    /\ (forall k, a <= k < mid ->
          less (data' !!! k) (data' !!! mid) = true)
    /\ (forall k, mid < k < b ->
          less (data' !!! k) (data' !!! mid) = false).
Proof.
  intros Hpivot Hb.
  destruct (partition_func_loop data a b pivot) as [ap ->].
  destruct (partition_loop_spec (S (b - a)) (sort.Swap data a pivot)
              a (a + 1) (b - 1) b)
    as (data' & j & Heq & Hperm & Hj & Hleft & Hright).
  { lia. } { lia. } { rewrite Swap_length. lia. }
  { intros k Hk. lia. } { intros k Hk. lia. }
  rewrite Heq. cbn [fst snd].
  assert (Hlen : length data' = length data).
  { rewrite (permuted_length _ _ _ _ Hperm). apply Swap_length. }
  exists (sort.Swap data' j a), j, ap. split; [done|]. split.
  { constructor; [|lia..].
    apply (permuted_trans _ _ _ (sort.Swap data a pivot));
      [apply permuted_one; lia|].
    eapply permuted_mono; [exact Hperm|lia..|].
    rewrite Swap_length. lia. }
  split; [lia|]. split.
  - intros k Hk. rewrite !Swap_lookup by lia.
    repeat case_decide; subst; try lia; apply Hleft; lia.
  - intros k Hk. rewrite !Swap_lookup by lia.
    repeat case_decide; subst; try lia; apply Hright; lia.
Qed.

Lemma partitionEqual_loop_S fuel data a i j :
  sort.partitionEqual_loop less (S fuel) data a i j =
  let i' := sort.scan_up (fun i => negb (less (data !!! a) (data !!! i)))
                         (S j - i) i j in
  let j' := sort.scan_down (fun j => less (data !!! a) (data !!! j)) i' j in
  if j' <? i' then (data, i')
  else sort.partitionEqual_loop less fuel (sort.Swap data i' j') a (S i')
                                (j' - 1).
Proof. reflexivity. Qed.

(** The loop of [partitionEqual_func], with the pivot at [a]: the pivot is
    not less than the elements before [i], and less than those after [j]. *)
Lemma partitionEqual_loop_spec fuel : forall data a i j b,
  j + 1 - i <= fuel ->
  a + 1 <= i <= j + 1 -> j < b <= length data ->
  (forall k, a < k < i -> less (data !!! a) (data !!! k) = false) ->
  (forall k, j < k < b -> less (data !!! a) (data !!! k) = true) ->
  exists data' i',
    sort.partitionEqual_loop less fuel data a i j = (data', i')
    /\ permuted (a + 1) b data data'
    /\ a < i' <= b
    /\ (forall k, a < k < i' -> less (data' !!! a) (data' !!! k) = false)
    /\ (forall k, i' <= k < b -> less (data' !!! a) (data' !!! k) = true).
Proof.
  induction fuel as [|fuel IH]; intros data a i j b Hfuel Hi Hj Hleft Hright.
  - exists data, i. cbn. split; [done|]. split; [constructor|].
    split; [lia|]. split; [done|]. intros k Hk. apply Hright. lia.
  - rewrite partitionEqual_loop_S. cbv zeta.
    pose proof (scan_up_spec
                  (fun i => negb (less (data !!! a) (data !!! i)))
                  (S j - i) i j) as Hup.
    destruct Hup as (Hi' & Hup & Hstop); [lia..|].
    set (i' := sort.scan_up _ _ _ _) in *.
    pose proof (scan_down_spec
                  (fun j => less (data !!! a) (data !!! j)) i' j) as Hdn.
    destruct Hdn as (Hj' & Hj'' & Hdn & Hstop'); [lia|].
    set (j' := sort.scan_down _ _ _) in *.
    assert (Hleft' : forall k, a < k < i' ->
                       less (data !!! a) (data !!! k) = false).
    { intros k Hk. destruct (decide (k < i)); [apply Hleft; lia|].
      apply negb_true_iff, Hup. lia. }
    assert (Hright' : forall k, j' < k < b ->
                        less (data !!! a) (data !!! k) = true).
    { intros k Hk. destruct (decide (j < k)); [apply Hright|apply Hdn]; lia. }
    clearbody i' j'.
    destruct (Nat.ltb_spec j' i') as [Hlt|Hge].
    + exists data, i'. split; [done|]. split; [constructor|].
      split; [lia|]. split; [done|]. intros k Hk. apply Hright'. lia.
    + specialize (Hstop ltac:(lia)). specialize (Hstop' ltac:(lia)).
      apply negb_false_iff in Hstop.
      assert (i' <> j') by (intros Heq; rewrite Heq in Hstop; congruence).
      destruct (IH (sort.Swap data i' j') a (S i') (j' - 1) b)
        as (data' & i3 & Heq & Hperm & Hi3 & Hl3 & Hr3).
      * lia.
      * lia.
      * rewrite Swap_length. lia.
      * intros k Hk. rewrite !Swap_lookup by lia.
        repeat case_decide; subst; try lia; [done|]. apply Hleft'. lia.
      * intros k Hk. rewrite !Swap_lookup by lia.
        repeat case_decide; subst; try lia; [done|]. apply Hright'. lia.
      * exists data', i3. split; [done|]. split; [|done].
        eapply permuted_trans; [|exact Hperm]. apply permuted_one; lia.
Qed.

(** [partitionEqual_func] puts the elements of [data[a:b]] that the pivot
    is not less than before [mid], and the others from [mid] on. *)
Lemma partitionEqual_func_spec data a b pivot :
  a <= pivot < b -> b <= length data ->
  exists data' mid,
    sort.partitionEqual_func less data a b pivot = (data', mid)
    /\ permuted a b data data'
    /\ a < mid <= b
    /\ (forall k, a <= k < mid ->
          less (data !!! pivot) (data' !!! k) = false)
    /\ (forall k, mid <= k < b ->
          less (data !!! pivot) (data' !!! k) = true).
Proof.
  intros Hpivot Hb. unfold sort.partitionEqual_func.
  destruct (partitionEqual_loop_spec (b - a) (sort.Swap data a pivot)
              a (a + 1) (b - 1) b)
    as (data' & mid & Heq & Hperm & Hmid & Hleft & Hright).
  { lia. } { lia. } { rewrite Swap_length. lia. }
  { intros k Hk. lia. } { intros k Hk. lia. }
  exists data', mid. split; [done|].
  assert (Hp : data' !!! a = data !!! pivot).
  { rewrite (permuted_outside _ _ _ _ a Hperm) by lia.
    rewrite Swap_lookup by lia. repeat case_decide; subst; done. }
  rewrite <- Hp. split.
  { apply (permuted_trans _ _ _ (sort.Swap data a pivot));
      [apply permuted_one; lia|].
    eapply permuted_mono; [exact Hperm|lia..|].
    rewrite Swap_length. lia. }
  split; [done|]. split; [|done].
  intros k Hk. destruct (decide (k = a)) as [->|Hne].
  - apply (less_irrefl less).
  - apply Hleft. lia.
Qed.

End partition.

(** ** Package [sort]: heap sort *)

Section heap.
Context {A : Type} `{!Inhabited A}.
Variable less : A -> A -> bool.
Context `{!StrictWeakOrder less}.
Implicit Types data : list A.
Local Open Scope nat_scope.

Lemma half_bounds n : 2 * (n / 2) <= n < 2 * (n / 2) + 2.
Proof.
  pose proof (Nat.div_mod_eq n 2). pose proof (Nat.mod_upper_bound n 2). lia.
Qed.

Lemma siftDown_loop_S fuel data root hi first :
  sort.siftDown_loop less (S fuel) data root hi first =
  if hi <=? 2 * root + 1 then data
  else
    let child :=
      if (2 * root + 1 + 1 <? hi)
         && less (data !!! (first + (2 * root + 1)))
                 (data !!! (first + (2 * root + 1) + 1))
      then 2 * root + 1 + 1 else 2 * root + 1 in
    if negb (less (data !!! (first + root)) (data !!! (first + child)))
    then data
    else sort.siftDown_loop less fuel
           (sort.Swap data (first + root) (first + child)) child hi first.
Proof. reflexivity. Qed.

(** The loop of [siftDown_func]: the heap order holds from [lo] on, except
    between [root] and its children, which are not above the parent of
    [root]. *)
Lemma siftDown_loop_spec fuel : forall data root lo hi first,
  hi - root <= fuel -> lo <= root -> first + hi <= length data ->
  (forall p c, lo <= p -> p <> root -> c < hi ->
     c = 2 * p + 1 \/ c = 2 * p + 2 ->
     less (data !!! (first + p)) (data !!! (first + c)) = false) ->
  (forall g c, lo <= g -> root = 2 * g + 1 \/ root = 2 * g + 2 -> c < hi ->
     c = 2 * root + 1 \/ c = 2 * root + 2 ->
     less (data !!! (first + g)) (data !!! (first + c)) = false) ->
  permuted first (first + hi) data
           (sort.siftDown_loop less fuel data root hi first)
  /\ heap_from less (sort.siftDown_loop less fuel data root hi first) first lo hi.
Proof.
  induction fuel as [|fuel IH]; intros data root lo hi first Hfuel Hlo Hlen H1 H2.
  - cbn. split; [constructor|]. intros p c Hp Hc Hpc.
    apply H1; [done|lia|done..].
  - rewrite siftDown_loop_S.
    destruct (Nat.leb_spec hi (2 * root + 1)) as [Hnone|Hsome].
    { split; [constructor|]. intros p c Hp Hc Hpc.
      apply H1; [done|lia|done..]. }
    set (l := 2 * root + 1) in *.
    assert (Hchild : exists child,
      (if (l + 1 <? hi) && less (data !!! (first + l)) (data !!! (first + l + 1))
       then l + 1 else l) = child
      /\ (child = l \/ child = l + 1) /\ child < hi
      /\ (forall c, c < hi -> c = l \/ c = l + 1 ->
            less (data !!! (first + child)) (data !!! (first + c)) = false)).
    { destruct (Nat.ltb_spec (l + 1) hi) as [Hr|Hr]; cbn [andb].
      - destruct (less (data !!! (first + l)) (data !!! (first + l + 1)))
          eqn:Hlr.
        + exists (l + 1). split; [done|]. split; [lia|]. split; [done|].
          intros c Hc [->| ->].
          * replace (first + (l + 1)) with (first + l + 1) by lia.
            by apply less_asym.
          * apply (less_irrefl less).
        + exists l. split; [done|]. split; [lia|]. split; [done|].
          intros c Hc [->| ->].
          * apply (less_irrefl less).
          * by replace (first + (l + 1)) with (first + l + 1) by lia.
      - exists l. split; [done|]. split; [lia|]. split; [done|].
        intros c Hc [->| ->]; [apply (less_irrefl less)|lia]. }
    destruct Hchild as (child & -> & Hchild & Hhi & Hmax). cbv zeta.
    destruct (less (data !!! (first + root)) (data !!! (first + child)))
      eqn:Hrc; cbn [negb].
    + destruct (IH (sort.Swap data (first + root) (first + child))
                   child lo hi first) as [Hperm Hheap].
      * lia.
      * lia.
      * by rewrite Swap_length.
      * intros p c Hp Hpc Hc Hcp. rewrite !Swap_lookup by lia.
        destruct (decide (p = root)) as [->|Hproot].
        { destruct (decide (c = child)) as [->|Hcc].
          - repeat case_decide; try lia. by apply less_asym.
          - repeat case_decide; try lia. apply Hmax; [done|]. lia. }
        destruct (decide (c = root)) as [->|Hcroot].
        { repeat case_decide; try lia. apply (H2 p child); try done; lia. }
        repeat case_decide; try lia. by apply H1.
      * intros g c Hg Hgc Hc Hcc. rewrite !Swap_lookup by lia.
        assert (g = root) as -> by lia.
        repeat case_decide; try lia. apply H1; try done; lia.
      * split; [|done].
        eapply permuted_trans; [|exact Hperm]. apply permuted_one; lia.
    + split; [constructor|]. intros p c Hp Hc Hpc.
      destruct (decide (p = root)) as [->|Hproot]; [|by apply H1].
      apply (less_negtrans less _ (data !!! (first + child))); [done|].
      apply Hmax; [done|]. lia.
Qed.

Lemma siftDown_func_spec data lo hi first :
  first + hi <= length data ->
  heap_from less data first (lo + 1) hi ->
  permuted first (first + hi) data (sort.siftDown_func less data lo hi first)
  /\ heap_from less (sort.siftDown_func less data lo hi first) first lo hi.
Proof.
  intros Hlen Hheap. apply siftDown_loop_spec; [lia|lia|done| |].
  - intros p c Hp Hne Hc Hpc. apply Hheap; [lia|done..].
  - intros g c Hg Hroot. lia.
Qed.

Lemma heapify_loop_spec i : forall data hi first,
  first + hi <= length data ->
  heap_from less data first (i + 1) hi ->
  permuted first (first + hi) data (sort.heapify_loop less i data hi first)
  /\ heap_from less (sort.heapify_loop less i data hi first) first 0 hi.
Proof.
  induction i as [|i IH]; intros data hi first Hlen Hheap;
    destruct (siftDown_func_spec data _ hi first Hlen Hheap) as [Hperm Hh].
  - done.
  - cbn. destruct (IH (sort.siftDown_func less data (S i) hi first) hi first)
      as [Hperm' Hh'].
    + by rewrite (permuted_length _ _ _ _ Hperm).
    + by rewrite Nat.add_1_r.
    + split; [|done]. by eapply permuted_trans.
Qed.

(** The root of a heap is not less than any of its elements. *)
Lemma heap_from_root data first hi k :
  heap_from less data first 0 hi -> k < hi ->
  less (data !!! first) (data !!! (first + k)) = false.
Proof.
  intros Hheap. induction (lt_wf k) as [k _ IH]. intros Hk.
  destruct (decide (k = 0)) as [->|Hpos].
  { rewrite Nat.add_0_r. apply (less_irrefl less). }
  pose proof (half_bounds (k - 1)).
  apply (less_negtrans less _ (data !!! (first + (k - 1) / 2))).
  - apply IH; lia.
  - apply Hheap; lia.
Qed.

(** The second loop of [heapSort_func]: the heap shrinks, the sorted tail
    grows, and no element of the tail is less than one of the heap. *)
Lemma pop_loop_spec n : forall data first hi,
  n <= hi -> first + hi <= length data ->
  heap_from less data first 0 n ->
  sorted_range less data (first + n) (first + hi) ->
  (forall k m, k < n -> n <= m < hi ->
     less (data !!! (first + m)) (data !!! (first + k)) = false) ->
  permuted first (first + hi) data (sort.pop_loop less n data first)
  /\ sorted_range less (sort.pop_loop less n data first) first (first + hi).
Proof.
  induction n as [|i IH]; intros data first hi Hn Hlen Hheap Hsorted Hcross.
  - cbn. split; [constructor|]. by rewrite Nat.add_0_r in Hsorted.
  - cbn [sort.pop_loop].
    set (data2 := sort.Swap data first (first + i)).
    assert (Hlen2 : length data2 = length data) by apply Swap_length.
    assert (Hdata2 : forall k, data2 !!! (first + k) =
              if decide (k = i) then data !!! first
              else if decide (k = 0) then data !!! (first + i)
              else data !!! (first + k)).
    { intros k. unfold data2. rewrite Swap_lookup by lia.
      repeat case_decide; by (lia || done). }
    destruct (siftDown_func_spec data2 0 i first) as [Hperm3 Hheap3].
    { lia. }
    { intros p c Hp Hc Hpc. rewrite !Hdata2.
      repeat case_decide; try lia. apply Hheap; lia. }
    set (data3 := sort.siftDown_func less data2 0 i first) in *.
    assert (Hlen3 : length data3 = length data).
    { by rewrite (permuted_length _ _ _ _ Hperm3). }
    destruct (IH data3 first hi) as [Hperm Hs].
    + lia.
    + lia.
    + done.
    + intros p q Hpq Hq.
      rewrite !(permuted_outside _ _ _ _ _ Hperm3) by lia.
      replace p with (first + (p - first)) by lia.
      replace q with (first + (q - first)) by lia.
      rewrite !Hdata2. repeat case_decide; try lia.
      * replace (data !!! first) with (data !!! (first + 0))
          by (f_equal; lia).
        apply Hcross; lia.
      * apply Hsorted; lia.
    + intros k m Hk Hm.
      rewrite (permuted_outside _ _ _ _ (first + m) Hperm3) by lia.
      assert (Hall : forall k', first <= k' < first + i ->
                less (data2 !!! (first + m)) (data3 !!! k') = false).
      { apply (permuted_inside
                 (fun x => less (data2 !!! (first + m)) x = false)
                 _ _ _ _ Hperm3).
        intros k' Hk'. replace k' with (first + (k' - first)) by lia.
        rewrite !Hdata2. repeat case_decide; try lia.
        - apply (heap_from_root data first (S i)); [done|lia].
        - apply (heap_from_root data first (S i)); [done|lia].
        - apply Hcross; lia.
        - apply Hcross; lia. }
      apply Hall. lia.
    + split; [|done].
      eapply permuted_trans; [|exact Hperm].
      apply (permuted_trans _ _ _ data2).
      * apply permuted_one; lia.
      * eapply permuted_mono; [exact Hperm3|lia..].
Qed.

(** [heapSort_func] sorts [data[a:b]]. *)
Lemma heapSort_func_spec data a b :
  a <= b <= length data ->
  permuted a b data (sort.heapSort_func less data a b)
  /\ sorted_range less (sort.heapSort_func less data a b) a b.
Proof.
  intros Hab. unfold sort.heapSort_func. cbv zeta.
  set (hi := b - a).
  destruct (heapify_loop_spec ((hi - 1) / 2) data hi a) as [Hperm Hheap].
  { lia. }
  { intros p c Hp Hc Hpc. pose proof (half_bounds (hi - 1)). lia. }
  set (data1 := sort.heapify_loop less _ data hi a) in *.
  destruct (pop_loop_spec hi data1 a hi) as [Hperm' Hs].
  - lia.
  - rewrite (permuted_length _ _ _ _ Hperm). lia.
  - done.
  - intros i j Hij Hj. lia.
  - intros k m Hk Hm. lia.
  - replace (a + hi) with b in * by lia. split; [|done].
    by eapply permuted_trans.
Qed.

End heap.

(** ** Package [sort]: pivots and patterns *)

Section patterns.
Context {A : Type} `{!Inhabited A}.
Variable less : A -> A -> bool.
Implicit Types data : list A.
Local Open Scope nat_scope.

(** [bits.Len(n)] bits are enough for [n], and the mask of
    [breakPatterns_func] keeps a number below twice the length. *)
Lemma nextPowerOfTwo_mask length (r : N) :
  0 < length ->
  N.to_nat (N.land r (sort.nextPowerOfTwo length - 1)) < 2 * length.
Proof.
  intros Hpos. unfold sort.nextPowerOfTwo, sort.bits_Len.
  destruct length as [|n]; [lia|]. set (m := S n) in *.
  rewrite N.shiftl_1_l, N.sub_1_r, <- N.ones_equiv, N.land_ones.
  assert (Hlt : (r mod 2 ^ N.of_nat (S (Nat.log2 m)) <
                 2 ^ N.of_nat (S (Nat.log2 m)))%N).
  { apply N.mod_lt, N.pow_nonzero. lia. }
  assert (Hpow : (2 ^ N.of_nat (S (Nat.log2 m)))%N
                 = N.of_nat (2 ^ S (Nat.log2 m))).
  { by rewrite Nat2N.inj_pow. }
  rewrite Hpow in *.
  destruct (Nat.log2_spec m) as [Hlo _]; [lia|].
  rewrite Nat.pow_succ_r' in *.
  generalize dependent (r `mod` N.of_nat (2 * 2 ^ Nat.log2 m))%N.
  intros t Ht. lia.
Qed.

Lemma breakPatterns_loop_spec n : forall data a b idx i random modulus,
  b <= length data ->
  a <= idx + i -> idx + i + n <= b -> 0 < b - a ->
  (forall r, N.to_nat (N.land r (modulus - 1)) < 2 * (b - a)) ->
  permuted a b data
    (sort.breakPatterns_loop n data a (b - a) idx i random modulus).
Proof.
  induction n as [|n IH]; intros data a b idx i random modulus
    Hlen Hlo Hhi Hpos Hmask; cbn.
  - constructor.
  - set (r := sort.xorshift_Next random).
    set (raw := N.to_nat (N.land r (modulus - 1))).
    assert (Hraw : raw < 2 * (b - a)) by apply Hmask.
    set (other := if b - a <=? raw then raw - (b - a) else raw).
    assert (Hother : other < b - a).
    { unfold other. destruct (Nat.leb_spec (b - a) raw); lia. }
    apply (permuted_trans _ _ _ (sort.Swap data (idx + i) (a + other))).
    + apply permuted_one; lia.
    + apply IH; rewrite ?Swap_length; try done; lia.
Qed.

Lemma breakPatterns_func_spec data a b :
  a <= b <= length data ->
  permuted a b data (sort.breakPatterns_func data a b).
Proof.
  intros Hab. unfold sort.breakPatterns_func. cbv zeta.
  destruct (Nat.leb_spec 8 (b - a)) as [Hbig|Hsmall]; [|constructor].
  pose proof (half_bounds ((b - a) / 2)).
  assert (Hquarter : (b - a) / 4 = (b - a) / 2 / 2).
  { by rewrite Nat.Div0.div_div. }
  pose proof (half_bounds (b - a)).
  apply breakPatterns_loop_spec; try lia.
  intros r. apply nextPowerOfTwo_mask. lia.
Qed.

Lemma reverse_loop_spec n : forall data a b i j,
  b <= length data -> a <= i -> j < b -> a + n <= j + 1 -> i + n <= b ->
  permuted a b data (sort.reverse_loop n data i j).
Proof.
  induction n as [|n IH]; intros data a b i j Hlen Hi Hj Hn Hn'; cbn.
  - constructor.
  - eapply permuted_trans; [apply (permuted_one a b data i j); lia|].
    apply IH; rewrite ?Swap_length; lia.
Qed.

Lemma reverseRange_func_spec data a b :
  a <= b <= length data ->
  permuted a b data (sort.reverseRange_func data a b).
Proof.
  intros Hab. unfold sort.reverseRange_func.
  pose proof (half_bounds (b - a)).
  destruct (decide (a = b)) as [->|Hne].
  - rewrite Nat.sub_diag. cbn. constructor.
  - apply reverse_loop_spec; lia.
Qed.

Lemma order2_func_cases data a b swaps :
  let r := sort.order2_func less data a b swaps in
  (r.1.1 = a /\ r.1.2 = b) \/ (r.1.1 = b /\ r.1.2 = a).
Proof.
  unfold sort.order2_func. destruct (sort.Less _ _ _ _); cbn; tauto.
Qed.

Lemma median_func_cases data a b c swaps :
  let r := sort.median_func less data a b c swaps in
  r.1 = a \/ r.1 = b \/ r.1 = c.
Proof.
  unfold sort.median_func.
  pose proof (order2_func_cases data a b swaps) as H1.
  destruct (sort.order2_func less data a b swaps) as [[a1 b1] s1].
  pose proof (order2_func_cases data b1 c s1) as H2.
  destruct (sort.order2_func less data b1 c s1) as [[b2 c2] s2].
  pose proof (order2_func_cases data a1 b2 s2) as H3.
  destruct (sort.order2_func less data a1 b2 s2) as [[a3 b3] s3].
  cbn in *. intuition congruence.
Qed.

(** The pivot that [choosePivot_func] chooses lies in [data[a:b]]. *)
Lemma choosePivot_func_bounds data a b :
  8 <= b - a ->
  a <= (sort.choosePivot_func less data a b).1 < b.
Proof.
  intros Hbig. unfold sort.choosePivot_func. cbv zeta.
  pose proof (half_bounds ((b - a) / 2)).
  assert (Hquarter : (b - a) / 4 = (b - a) / 2 / 2).
  { by rewrite Nat.Div0.div_div. }
  pose proof (half_bounds (b - a)).
  set (q := (b - a) / 4) in *.
  destruct (Nat.leb_spec 8 (b - a)) as [_|?]; [|lia].
  assert (Hpivot : forall i j k s,
            a <= i < b -> a <= j < b -> a <= k < b ->
            a <= (sort.median_func less data i j k s).1 < b).
  { intros i j k s Hi Hj Hk.
    pose proof (median_func_cases data i j k s) as Hm. cbv zeta in Hm. lia. }
  assert (Hhint : forall (j s : nat),
            (if s =? 0 then (j, sort.increasingHint)
             else if s =? sort.maxSwaps then (j, sort.decreasingHint)
             else (j, sort.unknownHint)).1 = j).
  { intros j s. by repeat destruct (_ =? _). }
  destruct (Nat.leb_spec sort.shortestNinther (b - a)) as [Hlarge|Hmid].
  - unfold sort.shortestNinther in Hlarge. unfold sort.medianAdjacent_func.
    pose proof (median_func_cases data (a + q * 1 - 1) (a + q * 1)
                  (a + q * 1 + 1) 0) as Hi. cbv zeta in Hi.
    destruct (sort.median_func less data (a + q * 1 - 1) _ _ 0) as [i s1].
    pose proof (median_func_cases data (a + q * 2 - 1) (a + q * 2)
                  (a + q * 2 + 1) s1) as Hj. cbv zeta in Hj.
    destruct (sort.median_func less data (a + q * 2 - 1) _ _ s1) as [j s2].
    pose proof (median_func_cases data (a + q * 3 - 1) (a + q * 3)
                  (a + q * 3 + 1) s2) as Hk. cbv zeta in Hk.
    destruct (sort.median_func less data (a + q * 3 - 1) _ _ s2) as [k s3].
    cbn [fst snd] in *.
    specialize (Hpivot i j k s3).
    destruct (sort.median_func less data i j k s3) as [p s4].
    rewrite Hhint. cbn [fst] in Hpivot. apply Hpivot; lia.
  - specialize (Hpivot (a + q * 1) (a + q * 2) (a + q * 3) 0).
    destruct (sort.median_func less data _ _ _ 0) as [p s4].
    rewrite Hhint. cbn [fst] in Hpivot. apply Hpivot; lia.
Qed.

End patterns.

(** ** Package [sort]: the partial insertion sort *)

Section partial.
Context {A : Type} `{!Inhabited A}.
Variable less : A -> A -> bool.
Context `{!StrictWeakOrder less}.
Implicit Types data : list A.
Local Open Scope nat_scope.

Lemma sorted_range_snoc data a k :
  sorted_range less data a k ->
  (a < k -> less (data !!! k) (data !!! (k - 1)) = false) ->
  sorted_range less data a (k + 1).
Proof.
  intros Hs Hk i j Hij Hj.
  destruct (decide (j = k)) as [->|Hne]; [|apply Hs; lia].
  destruct (decide (i = k - 1)) as [->|Hi]; [apply Hk; lia|].
  apply (less_negtrans less _ (data !!! (k - 1))); [apply Hk; lia|].
  apply Hs; lia.
Qed.

Lemma sorted_range_adjacent data a n : forall i,
  sorted_range less data a i ->
  (forall k, i <= k < i + n -> a < k ->
     less (data !!! k) (data !!! (k - 1)) = false) ->
  sorted_range less data a (i + n).
Proof.
  induction n as [|n IH]; intros i Hs Hadj.
  - by rewrite Nat.add_0_r.
  - replace (i + S n) with (i + 1 + n) by lia. apply IH.
    + apply sorted_range_snoc; [done|]. intros Ha. apply Hadj; lia.
    + intros k Hk Ha. apply Hadj; lia.
Qed.

Lemma shift_smaller_S data j :
  sort.shift_smaller less data (S j) =
  if negb (less (data !!! S j) (data !!! j)) then data
  else sort.shift_smaller less (sort.Swap data (S j) j) j.
Proof. reflexivity. Qed.

(** The loop that shifts the smaller element to the left stops at [a]
    when no element of the range is less than [data[a-1]]: it is then the
    inner loop of the insertion sort of [data[a:b]]. *)
Lemma shift_smaller_insert_down a j : forall data,
  a <= j < length data ->
  (forall k, 0 < a -> a <= k <= j ->
     less (data !!! k) (data !!! (a - 1)) = false) ->
  sort.shift_smaller less data j = sort.insert_down less a j data.
Proof.
  induction j as [|j IH]; intros data Hj Hlow; [done|].
  rewrite shift_smaller_S, insert_down_S.
  destruct (Nat.ltb_spec a (S j)) as [Ha|Ha]; cbn [andb].
  - destruct (less (data !!! S j) (data !!! j)); cbn [negb]; [|done].
    apply IH; [rewrite Swap_length; lia|].
    intros k Hpos Hk. rewrite !Swap_lookup by lia.
    repeat case_decide; try lia; apply Hlow; lia.
  - assert (a = S j) as -> by lia.
    specialize (Hlow (S j) ltac:(lia) ltac:(lia)).
    replace (S j - 1) with j in Hlow by lia. by rewrite Hlow.
Qed.

Lemma shift_greater_spec n : forall data j b,
  1 <= j -> j + n <= b -> b <= length data ->
  permuted (j - 1) b data (sort.shift_greater less n data j).
Proof.
  induction n as [|n IH]; intros data j b Hj Hn Hlen; cbn.
  - constructor.
  - destruct (negb _); [constructor|].
    apply (permuted_trans _ _ _ (sort.Swap data j (j - 1))).
    + apply permuted_one; lia.
    + eapply permuted_mono; [apply (IH _ (S j) b)|..];
        rewrite ?Swap_length; lia.
Qed.

Lemma partialInsertionSort_loop_S steps data a b i :
  sort.partialInsertionSort_loop less (S steps) data a b i =
  let i' := sort.scan_up (fun i => negb (less (data !!! i) (data !!! (i - 1))))
                         (b - i) i (b - 1) in
  if i' =? b then (data, true)
  else if b - a <? sort.shortestShifting then (data, false)
  else
    let data1 := sort.Swap data i' (i' - 1) in
    let data2 := if 2 <=? i' - a then sort.shift_smaller less data1 (i' - 1)
                 else data1 in
    let data3 :=
      if 2 <=? b - i' then sort.shift_greater less (b - (i' + 1)) data2 (i' + 1)
      else data2 in
    sort.partialInsertionSort_loop less steps data3 a b i'.
Proof. reflexivity. Qed.

(** The loop of [partialInsertionSort_func] keeps [data[a:i]] sorted, and
    answers [true] only when it has seen that all of [data[a:b]] is. *)
Lemma partialInsertionSort_loop_spec steps : forall data a b i,
  a < i <= b -> b <= length data ->
  lower_bounded less data a b ->
  sorted_range less data a i ->
  exists data' done,
    sort.partialInsertionSort_loop less steps data a b i = (data', done)
    /\ permuted a b data data'
    /\ (done = true -> sorted_range less data' a b).
Proof.
  induction steps as [|steps IH]; intros data a b i Hi Hb Hlow Hs.
  - exists data, false. cbn. split; [done|]. split; [constructor|done].
  - rewrite partialInsertionSort_loop_S. cbv zeta.
    pose proof (scan_up_spec
                  (fun i => negb (less (data !!! i) (data !!! (i - 1))))
                  (b - i) i (b - 1)) as Hup.
    destruct Hup as (Hi' & Hup & Hstop); [lia..|].
    set (i' := sort.scan_up _ _ _ _) in *. clearbody i'.
    assert (Hs' : sorted_range less data a i').
    { replace i' with (i + (i' - i)) by lia.
      apply sorted_range_adjacent; [done|].
      intros k Hk _. apply negb_true_iff, Hup. lia. }
    destruct (Nat.eqb_spec i' b) as [->|Hne].
    { exists data, true. split; [done|]. split; [constructor|done]. }
    destruct (Nat.ltb_spec (b - a) sort.shortestShifting) as [Hshort|Hlong].
    { exists data, false. split; [done|]. split; [constructor|done]. }
    set (data1 := sort.Swap data i' (i' - 1)).
    assert (Hp1 : permuted a b data data1) by (apply permuted_one; lia).
    set (data2 := if 2 <=? i' - a then sort.shift_smaller less data1 (i' - 1)
                  else data1).
    assert (H2 : permuted a i' data1 data2
                 /\ sorted_range less data2 a i').
    { unfold data2. destruct (Nat.leb_spec 2 (i' - a)) as [Hfar|Hnear].
      - rewrite (shift_smaller_insert_down a).
        + destruct (insert_down_spec less a (i' - 1) data1 (i' - 1))
            as [Hp Hso].
          * lia.
          * unfold data1. rewrite Swap_length. lia.
          * intros p q Hpq Hq Hp' Hq'. unfold data1.
            rewrite !Swap_lookup by lia.
            repeat case_decide; try lia. apply Hs'; lia.
          * intros q Hq. lia.
          * by replace (i' - 1 + 1) with i' in * by lia.
        + unfold data1. rewrite Swap_length. lia.
        + intros k Hpos Hk.
          apply (lower_bounded_permuted less data data1 a b Hp1 Hlow); lia.
      - split; [constructor|]. intros p q Hpq Hq. lia. }
    destruct H2 as [Hp2 Hs2].
    assert (Hlen2 : length data2 = length data).
    { rewrite (permuted_length _ _ _ _ Hp2). apply Swap_length. }
    set (data3 :=
           if 2 <=? b - i'
           then sort.shift_greater less (b - (i' + 1)) data2 (i' + 1)
           else data2).
    assert (Hp3 : permuted i' b data2 data3).
    { unfold data3. destruct (Nat.leb_spec 2 (b - i')); [|constructor].
      replace i' with (i' + 1 - 1) at 1 by lia.
      apply shift_greater_spec; lia. }
    assert (Hperm : permuted a b data data3).
    { eapply permuted_trans; [exact Hp1|].
      assert (length data1 = length data) by apply Swap_length.
      eapply permuted_trans.
      - eapply permuted_mono; [exact Hp2|lia..].
      - eapply permuted_mono; [exact Hp3|lia..]. }
    destruct (IH data3 a b i') as (data' & done & Heq & Hperm' & Hdone).
    + lia.
    + rewrite (permuted_length _ _ _ _ Hperm). lia.
    + by apply (lower_bounded_permuted less data).
    + by apply (sorted_range_permuted_below less data2 data3 a i' i' b).
    + exists data', done. split; [done|]. split; [|done].
      by eapply permuted_trans.
Qed.

Lemma partialInsertionSort_func_spec data a b :
  a < b <= length data ->
  lower_bounded less data a b ->
  exists data' done,
    sort.partialInsertionSort_func less data a b = (data', done)
    /\ permuted a b data data'
    /\ (done = true -> sorted_range less data' a b).
Proof.
  intros Hab Hlow. apply partialInsertionSort_loop_spec; [lia|lia|done|].
  intros i j Hij Hj. lia.
Qed.

End partial.

(** ** Package [sort]: [pdqsort_func] and [Slice] *)

Section pdqsort.
Context {A : Type} `{!Inhabited A}.
Variable less : A -> A -> bool.
Context `{!StrictWeakOrder less}.
Implicit Types data : list A.
Local Open Scope nat_scope.

Lemma pdqsort_loop_S fuel data a b limit wasBalanced wasPartitioned :
  sort.pdqsort_loop less (S fuel) data a b limit wasBalanced wasPartitioned =
  if b - a <=? sort.maxInsertion then sort.insertionSort_func less data a b
  else if limit =? 0 then sort.heapSort_func less data a b
  else
    let '(data, limit) :=
      if negb wasBalanced then (sort.breakPatterns_func data a b, limit - 1)
      else (data, limit) in
    let '(pivot, hint) := sort.choosePivot_func less data a b in
    let '(data, pivot, hint) :=
      if sort.is_decreasing hint
      then (sort.reverseRange_func data a b, b - 1 - (pivot - a),
            sort.increasingHint)
      else (data, pivot, hint) in
    let '(data, sorted) :=
      if wasBalanced && wasPartitioned && sort.is_increasing hint
      then sort.partialInsertionSort_func less data a b
      else (data, false) in
    if sorted then data
    else if (0 <? a) && negb (less (data !!! (a - 1)) (data !!! pivot)) then
      let '(data, mid) := sort.partitionEqual_func less data a b pivot in
      sort.pdqsort_loop less fuel data mid b limit wasBalanced wasPartitioned
    else
      let '(data, mid, alreadyPartitioned) :=
        sort.partition_func less data a b pivot in
      if mid - a <? b - mid then
        let data := sort.pdqsort_loop less fuel data a mid limit true true in
        sort.pdqsort_loop less fuel data (mid + 1) b limit
          ((b - a) / 8 <=? mid - a) alreadyPartitioned
      else
        let data :=
          sort.pdqsort_loop less fuel data (mid + 1) b limit true true in
        sort.pdqsort_loop less fuel data a mid limit
          ((b - a) / 8 <=? b - mid) alreadyPartitioned.
Proof. reflexivity. Qed.

(** A slice that is sorted on both sides of a pivot, with the smaller
    elements before it and no smaller element after it, is sorted. *)
Lemma sorted_range_pivot data a mid b :
  a <= mid < b ->
  sorted_range less data a mid ->
  sorted_range less data (mid + 1) b ->
  (forall k, a <= k < mid -> less (data !!! k) (data !!! mid) = true) ->
  (forall k, mid < k < b -> less (data !!! k) (data !!! mid) = false) ->
  sorted_range less data a b.
Proof.
  intros Hmid Hl Hr Hsmall Hlarge i j Hij Hj.
  destruct (decide (j < mid)); [apply Hl; lia|].
  destruct (decide (mid < i)); [apply Hr; lia|].
  destruct (decide (i = mid)) as [->|Hi]; [apply Hlarge; lia|].
  destruct (decide (j = mid)) as [->|Hj'].
  { apply (less_asym less), Hsmall. lia. }
  destruct (less (data !!! j) (data !!! i)) eqn:Hji; [|done].
  rewrite <- (Hlarge j ltac:(lia)). symmetry.
  eapply (less_trans less); [exact Hji|]. apply Hsmall. lia.
Qed.

(** The split around a pivot survives the sorting of either side. *)
Lemma pivot_split_permuted data data' a mid b a' b' :
  permuted a' b' data data' ->
  (a <= a' /\ b' <= mid) \/ (mid + 1 <= a' /\ b' <= b) ->
  (forall k, a <= k < mid -> less (data !!! k) (data !!! mid) = true) ->
  (forall k, mid < k < b -> less (data !!! k) (data !!! mid) = false) ->
  (forall k, a <= k < mid -> less (data' !!! k) (data' !!! mid) = true)
  /\ (forall k, mid < k < b -> less (data' !!! k) (data' !!! mid) = false).
Proof.
  intros Hperm Hside Hsmall Hlarge.
  rewrite (permuted_outside _ _ _ _ mid Hperm) by lia.
  destruct Hside as [Hleft|Hright]; split; intros k Hk.
  - destruct (decide (a' <= k < b')) as [Hin|Hout].
    + clear Hk. revert k Hin.
      apply (permuted_inside (fun x => less x (data !!! mid) = true)
                             _ _ _ _ Hperm).
      intros k Hk. apply Hsmall. lia.
    + rewrite (permuted_outside _ _ _ _ k Hperm) by done. by apply Hsmall.
  - rewrite (permuted_outside _ _ _ _ k Hperm) by lia. by apply Hlarge.
  - rewrite (permuted_outside _ _ _ _ k Hperm) by lia. by apply Hsmall.
  - destruct (decide (a' <= k < b')) as [Hin|Hout].
    + clear Hk. revert k Hin.
      apply (permuted_inside (fun x => less x (data !!! mid) = false)
                             _ _ _ _ Hperm).
      intros k Hk. apply Hlarge. lia.
    + rewrite (permuted_outside _ _ _ _ k Hperm) by done. by apply Hlarge.
Qed.

Lemma lower_bounded_outside data data' a b a' b' :
  permuted a' b' data data' -> b <= a' \/ (b' <= a - 1 /\ 0 < a) \/ a = 0 ->
  lower_bounded less data a b -> lower_bounded less data' a b.
Proof.
  intros Hperm Hside Hlow k Hpos Hk.
  rewrite !(permuted_outside _ _ _ _ _ Hperm) by lia. by apply Hlow.
Qed.

Lemma lower_bounded_restrict data a b b' :
  b' <= b -> lower_bounded less data a b -> lower_bounded less data a b'.
Proof. intros Hb Hlow k Hpos Hk. apply Hlow; lia. Qed.

(** [pdqsort_func] sorts [data[a:b]]: with more fuel than the range is
    long, and no element of the range less than the one before the range,
    the result is the slice with [data[a:b]] permuted and sorted. *)
Lemma pdqsort_loop_spec fuel :
  forall data a b limit wasBalanced wasPartitioned,
  b - a < fuel -> a <= b <= length data ->
  lower_bounded less data a b ->
  permuted a b data
    (sort.pdqsort_loop less fuel data a b limit wasBalanced wasPartitioned)
  /\ sorted_range less
       (sort.pdqsort_loop less fuel data a b limit wasBalanced wasPartitioned)
       a b.
Proof.
  induction fuel as [|fuel IH]; intros data a b limit wb wp Hfuel Hab Hlow;
    [lia|].
  rewrite pdqsort_loop_S.
  destruct (Nat.leb_spec (b - a) sort.maxInsertion) as [Hsmall|Hbig].
  { by apply insertionSort_func_spec. }
  unfold sort.maxInsertion in Hbig.
  destruct (Nat.eqb_spec limit 0) as [Hlimit|Hlimit].
  { by apply heapSort_func_spec. }
  assert (H1 : exists data1 limit1,
    (if negb wb then (sort.breakPatterns_func data a b, limit - 1)
     else (data, limit)) = (data1, limit1)
    /\ permuted a b data data1).
  { destruct wb; cbn [negb]; eexists _, _; (split; [done|]);
      [constructor|by apply breakPatterns_func_spec]. }
  destruct H1 as (data1 & limit1 & -> & Hp1).
  assert (Hlen1 : length data1 = length data)
    by apply (permuted_length _ _ _ _ Hp1).
  pose proof (choosePivot_func_bounds less data1 a b ltac:(lia)) as Hpivot.
  destruct (sort.choosePivot_func less data1 a b) as [pivot hint].
  cbn [fst] in Hpivot.
  assert (H2 : exists data2 pivot2 hint2,
    (if sort.is_decreasing hint
     then (sort.reverseRange_func data1 a b, b - 1 - (pivot - a),
           sort.increasingHint)
     else (data1, pivot, hint)) = (data2, pivot2, hint2)
    /\ permuted a b data1 data2 /\ a <= pivot2 < b).
  { destruct (sort.is_decreasing hint); eexists _, _, _; (split; [done|]).
    - split; [apply reverseRange_func_spec|]; lia.
    - split; [constructor|done]. }
  destruct H2 as (data2 & pivot2 & hint2 & -> & Hp2 & Hpivot2).
  assert (Hp12 : permuted a b data data2) by by eapply permuted_trans.
  assert (H3 : exists data3 done,
    (if wb && wp && sort.is_increasing hint2
     then sort.partialInsertionSort_func less data2 a b
     else (data2, false)) = (data3, done)
    /\ permuted a b data2 data3
    /\ (done = true -> sorted_range less data3 a b)).
  { destruct (wb && wp && sort.is_increasing hint2).
    - assert (length data2 = length data)
        by apply (permuted_length _ _ _ _ Hp12).
      apply (partialInsertionSort_func_spec less data2 a b); [lia|].
      by apply (lower_bounded_permuted less data).
    - exists data2, false. split; [done|]. split; [constructor|done]. }
  destruct H3 as (data3 & done & -> & Hp3 & Hdone).
  assert (Hp : permuted a b data data3) by by eapply permuted_trans.
  assert (Hlow3 : lower_bounded less data3 a b)
    by by apply (lower_bounded_permuted less data).
  assert (Hlen3 : length data3 = length data)
    by apply (permuted_length _ _ _ _ Hp).
  clear Hp1 Hp2 Hp3 Hp12 Hlen1 Hpivot.
  destruct done; [split; [done|by apply Hdone]|]. clear Hdone.
  destruct ((0 <? a) && negb (less (data3 !!! (a - 1)) (data3 !!! pivot2)))
    eqn:Hequal.
  - apply andb_true_iff in Hequal as [Hapos Hlo].
    apply Nat.ltb_lt in Hapos. apply negb_true_iff in Hlo.
    destruct (partitionEqual_func_spec less data3 a b pivot2)
      as (data4 & mid & -> & Hp4 & Hmid & Heq & Hgt); [lia..|].
    assert (Hlen4 : length data4 = length data3)
      by apply (permuted_length _ _ _ _ Hp4).
    assert (Hlow4 : lower_bounded less data4 a b)
      by by apply (lower_bounded_permuted less data3).
    destruct (IH data4 mid b limit1 wb wp) as [Hp5 Hs5].
    + lia.
    + lia.
    + intros k Hpos Hk.
      destruct (less (data4 !!! k) (data4 !!! (mid - 1))) eqn:Hk'; [|done].
      rewrite <- (Heq (mid - 1) ltac:(lia)). symmetry.
      eapply (less_trans less); [|exact Hk']. apply Hgt. lia.
    + split.
      * eapply permuted_trans; [exact Hp|].
        eapply permuted_trans; [exact Hp4|].
        eapply permuted_mono; [exact Hp5|lia..].
      * intros i j Hij Hj.
        destruct (decide (mid <= i)); [apply Hs5; lia|].
        rewrite (permuted_outside _ _ _ _ i Hp5) by lia.
        destruct (decide (j < mid)).
        -- rewrite (permuted_outside _ _ _ _ j Hp5) by lia.
           apply (less_negtrans less _ (data3 !!! pivot2));
             [|apply Heq; lia].
           apply (less_negtrans less _ (data3 !!! (a - 1))); [|done].
           rewrite <- (permuted_outside _ _ _ _ (a - 1) Hp4) by lia.
           apply Hlow4; lia.
        -- assert (Hj' : less (data3 !!! pivot2)
                           (sort.pdqsort_loop less fuel data4 mid b limit1
                              wb wp !!! j) = true).
           { assert (Hin : mid <= j < b) by lia. revert Hin.
             generalize j.
             apply (permuted_inside
                      (fun x => less (data3 !!! pivot2) x = true)
                      _ _ _ _ Hp5).
             done. }
           destruct (less _ (data4 !!! i)) eqn:Hji; [|done].
           rewrite <- (Heq i ltac:(lia)). symmetry.
           eapply (less_trans less); [exact Hj'|exact Hji].
  - clear Hequal.
    destruct (partition_func_spec less data3 a b pivot2)
      as (data4 & mid & ap & -> & Hp4 & Hmid & Hsmall & Hlarge); [lia..|].
    assert (Hlen4 : length data4 = length data3)
      by apply (permuted_length _ _ _ _ Hp4).
    assert (Hlow4 : lower_bounded less data4 a b)
      by by apply (lower_bounded_permuted less data3).
    assert (Hp04 : permuted a b data data4) by by eapply permuted_trans.
    destruct (Nat.ltb_spec (mid - a) (b - mid)) as [Hleft|Hright]; cbv zeta.
    + destruct (IH data4 a mid limit1 true true) as [HpL HsL].
      { lia. } { lia. } { apply (lower_bounded_restrict data4 a b); [lia|done]. }
      set (dataL := sort.pdqsort_loop less fuel data4 a mid limit1 true true)
        in *.
      assert (HlenL : length dataL = length data4)
        by apply (permuted_length _ _ _ _ HpL).
      destruct (pivot_split_permuted data4 dataL a mid b a mid HpL)
        as [HsmallL HlargeL]; [lia|done|done|].
      destruct (IH dataL (mid + 1) b limit1 ((b - a) / 8 <=? mid - a) ap)
        as [HpR HsR].
      { lia. } { lia. }
      { intros k _ Hk. replace (mid + 1 - 1) with mid by lia.
        apply HlargeL. lia. }
      set (dataR := sort.pdqsort_loop less fuel dataL (mid + 1) b limit1 _ ap)
        in *.
      destruct (pivot_split_permuted dataL dataR a mid b (mid + 1) b HpR)
        as [HsmallR HlargeR]; [lia|done|done|].
      split.
      * eapply permuted_trans; [exact Hp04|].
        eapply permuted_trans.
        -- eapply permuted_mono; [exact HpL|lia..].
        -- eapply permuted_mono; [exact HpR|lia..].
      * apply (sorted_range_pivot dataR a mid b); [lia| |done..].
        by apply (sorted_range_permuted_below less dataL dataR a mid
                    (mid + 1) b HpR ltac:(lia)).
    + destruct (IH data4 (mid + 1) b limit1 true true) as [HpR HsR].
      { lia. } { lia. }
      { intros k _ Hk. replace (mid + 1 - 1) with mid by lia.
        apply Hlarge. lia. }
      set (dataR := sort.pdqsort_loop less fuel data4 (mid + 1) b limit1
                      true true) in *.
      assert (HlenR : length dataR = length data4)
        by apply (permuted_length _ _ _ _ HpR).
      destruct (pivot_split_permuted data4 dataR a mid b (mid + 1) b HpR)
        as [HsmallR HlargeR]; [lia|done|done|].
      destruct (IH dataR a mid limit1 ((b - a) / 8 <=? b - mid) ap)
        as [HpL HsL].
      { lia. } { lia. }
      { apply (lower_bounded_outside data4 dataR a mid (mid + 1) b HpR);
          [lia|]. apply (lower_bounded_restrict data4 a b); [lia|done]. }
      set (dataL := sort.pdqsort_loop less fuel dataR a mid limit1 _ ap) in *.
      destruct (pivot_split_permuted dataR dataL a mid b a mid HpL)
        as [HsmallL HlargeL]; [lia|done|done|].
      split.
      * eapply permuted_trans; [exact Hp04|].
        eapply permuted_trans.
        -- eapply permuted_mono; [exact HpR|lia..].
        -- eapply permuted_mono; [exact HpL|lia..].
      * apply (sorted_range_pivot dataL a mid b); [lia|done| |done..].
        by apply (sorted_range_permuted_above less dataR dataL (mid + 1) b
                    a mid HpL ltac:(lia)).
Qed.

(** [sort.Slice] returns the slice sorted: a permutation of it in which no
    element is less than an earlier one. *)
Lemma Slice_spec data :
  sort.Slice less data ≡ₚ data /\ sorted less (sort.Slice less data).
Proof.
  unfold sort.Slice, sort.pdqsort_func. cbv zeta.
  rewrite Nat.sub_0_r.
  destruct (pdqsort_loop_spec (S (length data)) data 0 (length data)
              (sort.bits_Len (length data)) true true) as [Hperm Hsorted].
  - lia.
  - lia.
  - intros k Hpos. lia.
  - split; [by eapply permuted_Permutation|].
    unfold sorted. by rewrite (permuted_length _ _ _ _ Hperm).
Qed.

End pdqsort.

(** ** Package [sort]: sorted input and short slices *)

Section adaptive.
Context {A : Type} `{!Inhabited A}.
Variable less : A -> A -> bool.
Context `{!StrictWeakOrder less}.
Implicit Types data : list A.
Local Open Scope nat_scope.

Lemma insertion_loop_sorted a n : forall i data,
  a < i -> sorted_range less data a (i + n) ->
  sort.insertion_loop less a i n data = data.
Proof.
  induction n as [|n IH]; intros i data Hi Hs; [done|].
  cbn [sort.insertion_loop].
  assert (Hid : sort.insert_down less a i data = data).
  { destruct i as [|i]; [done|]. rewrite insert_down_S.
    rewrite (Hs i (S i)) by lia. by rewrite andb_false_r. }
  rewrite Hid. apply IH; [lia|]. by replace (S i + n) with (i + S n) by lia.
Qed.

Lemma insertionSort_func_sorted data a b :
  sorted_range less data a b -> sort.insertionSort_func less data a b = data.
Proof.
  intros Hs. unfold sort.insertionSort_func.
  destruct (decide (b <= a + 1)) as [Hsmall|Hbig].
  - by replace (b - (a + 1)) with 0 by lia.
  - apply insertion_loop_sorted; [lia|].
    by replace (a + 1 + (b - (a + 1))) with b by lia.
Qed.

Lemma order2_func_sorted data a b i j swaps :
  sorted_range less data a b -> a <= i <= j -> j < b ->
  sort.order2_func less data i j swaps = (i, j, swaps).
Proof.
  intros Hs Hij Hj. unfold sort.order2_func, sort.Less.
  destruct (decide (i = j)) as [->|Hne].
  - by rewrite (less_irrefl less).
  - by rewrite (Hs i j) by lia.
Qed.

Lemma median_func_sorted data a b i j k swaps :
  sorted_range less data a b -> a <= i <= j -> j <= k < b ->
  sort.median_func less data i j k swaps = (j, swaps).
Proof.
  intros Hs Hij Hjk. unfold sort.median_func.
  rewrite (order2_func_sorted data a b i j) by (done || lia).
  rewrite (order2_func_sorted data a b j k) by (done || lia).
  by rewrite (order2_func_sorted data a b i j) by (done || lia).
Qed.

(** On a sorted range [choosePivot_func] counts no swap. *)
Lemma choosePivot_func_sorted data a b :
  sorted_range less data a b -> 8 <= b - a ->
  (sort.choosePivot_func less data a b).2 = sort.increasingHint.
Proof.
  intros Hs Hbig. unfold sort.choosePivot_func. cbv zeta.
  pose proof (half_bounds ((b - a) / 2)).
  assert (Hquarter : (b - a) / 4 = (b - a) / 2 / 2).
  { by rewrite Nat.Div0.div_div. }
  pose proof (half_bounds (b - a)).
  set (q := (b - a) / 4) in *.
  destruct (Nat.leb_spec 8 (b - a)) as [_|?]; [|lia].
  destruct (Nat.leb_spec sort.shortestNinther (b - a)) as [Hlarge|Hmid].
  - unfold sort.shortestNinther in Hlarge. unfold sort.medianAdjacent_func.
    repeat (rewrite (median_func_sorted data a b) by (done || lia);
            cbv beta iota).
    done.
  - rewrite (median_func_sorted data a b) by (done || lia). done.
Qed.

Lemma partialInsertionSort_func_sorted data a b :
  sorted_range less data a b -> a < b ->
  sort.partialInsertionSort_func less data a b = (data, true).
Proof.
  intros Hs Hab. unfold sort.partialInsertionSort_func, sort.maxSteps.
  rewrite partialInsertionSort_loop_S. cbv zeta.
  pose proof (scan_up_spec
                (fun i => negb (less (data !!! i) (data !!! (i - 1))))
                (b - (a + 1)) (a + 1) (b - 1)) as Hup.
  destruct Hup as (Hi' & _ & Hstop); [lia..|].
  set (i' := sort.scan_up _ _ _ _) in *. clearbody i'.
  destruct (Nat.eqb_spec i' b) as [_|Hne]; [done|].
  specialize (Hstop ltac:(lia)). apply negb_false_iff in Hstop.
  rewrite (Hs (i' - 1) i') in Hstop by lia. done.
Qed.

(** [sort.Slice] leaves a sorted slice as it is. *)
Lemma Slice_sorted data : sorted less data -> sort.Slice less data = data.
Proof.
  intros Hs. unfold sort.Slice, sort.pdqsort_func. cbv zeta.
  rewrite Nat.sub_0_r, pdqsort_loop_S, Nat.sub_0_r.
  destruct (Nat.leb_spec (length data) sort.maxInsertion) as [Hsmall|Hbig].
  { by apply insertionSort_func_sorted. }
  unfold sort.maxInsertion in Hbig.
  assert (Hlimit : (sort.bits_Len (length data) =? 0) = false).
  { destruct (length data); [lia|done]. }
  rewrite Hlimit. cbn [negb].
  pose proof (choosePivot_func_sorted data 0 (length data) Hs ltac:(lia))
    as Hhint.
  destruct (sort.choosePivot_func less data 0 (length data)) as [pivot hint].
  cbn [snd] in Hhint. subst hint. cbn [sort.is_decreasing sort.is_increasing andb].
  by rewrite (partialInsertionSort_func_sorted data 0 (length data) Hs)
    by lia.
Qed.

(** Insertion sort swaps neighbours that are out of order, and so keeps
    the order of the elements of any class [P] no two elements of which are
    ordered by [less]. *)
Lemma adjacent_Swap_filter (P : A -> Prop) `{!forall x, Decision (P x)} j :
  forall data,
  S j < length data ->
  ~ (P (data !!! S j) /\ P (data !!! j)) ->
  filter P (sort.Swap data (S j) j) = filter P data.
Proof.
  induction j as [|j IH]; intros data Hlen Hnot.
  - destruct data as [|x [|y data]]; cbn in Hlen; try lia.
    change (sort.Swap (x :: y :: data) 1 0) with (y :: x :: data).
    change ((x :: y :: data) !!! 1) with y in Hnot.
    change ((x :: y :: data) !!! 0) with x in Hnot.
    rewrite !filter_cons. repeat case_decide; tauto.
  - destruct data as [|x data]; cbn in Hlen; [lia|].
    change (sort.Swap (x :: data) (S (S j)) (S j))
      with (x :: sort.Swap data (S j) j).
    rewrite !filter_cons, IH; [done|lia|done].
Qed.

Lemma insert_down_filter (P : A -> Prop) `{!forall x, Decision (P x)} a j :
  (forall x y, P x -> P y -> less x y = false) ->
  forall data, j < length data ->
  filter P (sort.insert_down less a j data) = filter P data.
Proof.
  intros HP. induction j as [|j IH]; intros data Hj; [done|].
  rewrite insert_down_S.
  destruct (_ <? _); cbn [andb]; [|done].
  destruct (less (data !!! S j) (data !!! j)) eqn:Hless; [|done].
  rewrite IH by (rewrite Swap_length; lia).
  apply adjacent_Swap_filter; [done|].
  intros [Hx Hy]. by rewrite (HP _ _ Hx Hy) in Hless.
Qed.

Lemma insert_down_length a j : forall data,
  length (sort.insert_down less a j data) = length data.
Proof.
  induction j as [|j IH]; intros data; [done|].
  rewrite insert_down_S. destruct (_ && _); [|done].
  by rewrite IH, Swap_length.
Qed.

Lemma insertion_loop_filter (P : A -> Prop) `{!forall x, Decision (P x)} a n :
  (forall x y, P x -> P y -> less x y = false) ->
  forall i data, i + n <= length data ->
  filter P (sort.insertion_loop less a i n data) = filter P data.
Proof.
  intros HP. induction n as [|n IH]; intros i data Hlen; [done|].
  cbn [sort.insertion_loop].
  assert (Hid : filter P (sort.insert_down less a i data) = filter P data)
    by (apply insert_down_filter; [done|lia]).
  rewrite IH; [done|]. rewrite insert_down_length. lia.
Qed.

(** On a slice of at most twelve elements [sort.Slice] is an insertion
    sort, which is stable. *)
Lemma Slice_stable_short (P : A -> Prop) `{!forall x, Decision (P x)} data :
  length data <= 12 ->
  (forall x y, P x -> P y -> less x y = false) ->
  filter P (sort.Slice less data) = filter P data.
Proof.
  intros Hshort HP. unfold sort.Slice, sort.pdqsort_func. cbv zeta.
  rewrite Nat.sub_0_r, pdqsort_loop_S, Nat.sub_0_r.
  destruct (Nat.leb_spec (length data) sort.maxInsertion) as [_|Hbig];
    [|unfold sort.maxInsertion in Hbig; lia].
  unfold sort.insertionSort_func.
  destruct (decide (length data = 0)) as [Hz|Hnz].
  - by rewrite Hz.
  - apply insertion_loop_filter; [done|lia].
Qed.

End adaptive.

(** ** The order of the rows *)

Lemma ascii_compare_refl c : Ascii.compare c c = Eq.
Proof. unfold Ascii.compare. apply N.compare_refl. Qed.

Lemma string_compare_refl s : String.compare s s = Eq.
Proof.
  induction s as [|c s IH]; cbn; [done|]. by rewrite ascii_compare_refl.
Qed.

Lemma string_compare_trans a : forall b c,
  String.compare a b = Lt -> String.compare b c = Lt ->
  String.compare a c = Lt.
Proof.
  induction a as [|x a IH]; intros [|y b] [|z c]; cbn; try done.
  destruct (Ascii.compare x y) eqn:Hxy; try done;
    destruct (Ascii.compare y z) eqn:Hyz; try done.
  - apply Ascii.compare_eq_iff in Hxy, Hyz. subst.
    rewrite ascii_compare_refl. apply IH.
  - apply Ascii.compare_eq_iff in Hxy. subst. by rewrite Hyz.
  - apply Ascii.compare_eq_iff in Hyz. subst. by rewrite Hxy.
  - unfold Ascii.compare in *.
    rewrite N.compare_lt_iff in Hxy, Hyz.
    assert (Hxz : (N_of_ascii x ?= N_of_ascii z)%N = Lt).
    { apply N.compare_lt_iff. lia. }
    by rewrite Hxz.
Qed.

Lemma string_lt_irrefl s : string_lt s s = false.
Proof. unfold string_lt. by rewrite string_compare_refl. Qed.

Lemma string_lt_trans a b c :
  string_lt a b = true -> string_lt b c = true -> string_lt a c = true.
Proof.
  unfold string_lt. intros Hab Hbc.
  rewrite (string_compare_trans a b c); [done|..].
  - by destruct (String.compare a b).
  - by destruct (String.compare b c).
Qed.

(** Two strings neither of which is before the other are the same. *)
Lemma string_lt_total a b :
  string_lt a b = false -> string_lt b a = false -> a = b.
Proof.
  unfold string_lt. rewrite (String.compare_antisym b a).
  destruct (String.compare a b) eqn:Hab; cbn; try done.
  intros _ _. by apply String.compare_eq_iff.
Qed.

Lemma string_lt_negtrans a b c :
  string_lt a b = false -> string_lt b c = false -> string_lt a c = false.
Proof.
  intros Hab Hbc.
  destruct (string_lt b a) eqn:Hba.
  - destruct (string_lt c b) eqn:Hcb.
    + pose proof (string_lt_trans c b a Hcb Hba) as Hca.
      unfold string_lt in *. rewrite (String.compare_antisym a c).
      by destruct (String.compare c a).
    + by rewrite (string_lt_total b c Hbc Hcb) in Hab.
  - by rewrite (string_lt_total a b Hab Hba).
Qed.

(** The comparison that [Print] sorts by is a strict weak order on rows:
    the order of their last fields, reversed. *)
#[global] Instance by_status_order : StrictWeakOrder by_status.
Proof.
  split; unfold by_status, string_gt.
  - intros x. apply string_lt_irrefl.
  - intros x y z Hxy Hyz. by eapply string_lt_trans.
  - intros x y z Hxy Hyz. by eapply string_lt_negtrans.
Qed.

(** Rows that neither sorts before the other have the same status. *)
Lemma by_status_equiv rowi rowj :
  by_status rowi rowj = false -> by_status rowj rowi = false ->
  last_field rowi = last_field rowj.
Proof. unfold by_status, string_gt. intros H1 H2. by apply string_lt_total. Qed.

Lemma by_status_Failed_Passed rowi rowj :
  last_field rowi = Failed -> last_field rowj = Passed ->
  by_status rowi rowj = true.
Proof. unfold by_status. by intros -> ->. Qed.

(** ** Rendering *)

Lemma append_cons x (a b : string) : String x a +:+ b = String x (a +:+ b).
Proof. reflexivity. Qed.

Lemma append_nil_l (b : string) : empty +:+ b = b.
Proof. reflexivity. Qed.

Lemma append_nil_r (a : string) : a +:+ empty = a.
Proof.
  induction a as [|x a IH]; [done|]. by rewrite append_cons, IH.
Qed.

Lemma append_assoc (a b c : string) : (a +:+ b) +:+ c = a +:+ (b +:+ c).
Proof.
  induction a as [|x a IH]; [done|]. by rewrite !append_cons, IH.
Qed.

Lemma print_rows_app rows : forall w,
  print_rows rows w = w +:+ print_rows rows empty.
Proof.
  induction rows as [|row rows IH]; intros w; cbn [print_rows].
  - by rewrite append_nil_r.
  - rewrite IH, (IH (empty +:+ _)), append_nil_l.
    by rewrite !append_assoc.
Qed.

Lemma print_head_app r w :
  Report.print_head r w = w +:+ Report.print_head r empty.
Proof.
  unfold Report.print_head. cbv zeta.
  rewrite !append_assoc. reflexivity.
Qed.

Lemma with_rows_same r : with_rows r (rows_of r) = r.
Proof. by destruct r as [? ? [] ? ? ?]. Qed.

Lemma rows_of_with_rows r rows : rows_of (with_rows r rows) = rows.
Proof. reflexivity. Qed.

Lemma rows_nonempty_existsb rows :
  rows_nonempty rows -> existsb is_empty_row rows = false.
Proof.
  induction 1 as [|row rows Hrow _ IH]; [done|].
  cbn. rewrite IH. by destruct row.
Qed.

(** [Print] on rows that all have a last field: the head, then the sorted
    rows; the report is left with its rows sorted. *)
Lemma Print_Ret r w :
  rows_nonempty (rows_of r) ->
  Report.Print r w =
  (print_rows (sort.Slice by_status (rows_of r)) (Report.print_head r w),
   Ret (with_rows r (sort.Slice by_status (rows_of r)))).
Proof.
  intros Hrows. unfold Report.Print. cbv zeta.
  fold (rows_of r). rewrite (rows_nonempty_existsb _ Hrows).
  by rewrite andb_false_r.
Qed.

Lemma sorted_descending rows :
  sorted by_status rows <-> descending_status rows.
Proof.
  unfold sorted, sorted_range, descending_status, by_status, string_gt.
  split.
  - intros Hs i j rowi rowj Hi Hj Hij.
    pose proof (lookup_lt_Some _ _ _ Hj).
    rewrite <- (list_lookup_total_correct _ _ _ Hi).
    rewrite <- (list_lookup_total_correct _ _ _ Hj).
    apply Hs; lia.
  - intros Hd i j Hij Hj.
    apply (Hd i j); [apply list_lookup_lookup_total_lt..|]; lia.
Qed.

Lemma descending_contiguous rows :
  descending_status rows -> contiguous_status rows.
Proof.
  intros Hd i j k rowi rowj rowk Hi Hj Hk Hijk Hik.
  symmetry. apply string_lt_total.
  - apply (Hd i j); (done || lia).
  - rewrite Hik. apply (Hd j k); (done || lia).
Qed.

Lemma descending_cons row rows :
  descending_status (row :: rows) ->
  descending_status rows
  /\ Forall (fun row' => string_lt (last_field row) (last_field row') = false)
            rows.
Proof.
  intros Hd. split.
  - intros i j rowi rowj Hi Hj Hij. apply (Hd (S i) (S j)); (done || lia).
  - apply Forall_lookup. intros j rowj Hj.
    apply (Hd 0%nat (S j)); (done || lia).
Qed.

Lemma rows_all_Passed rows :
  Forall (fun row => last_field row = Passed) rows ->
  rows_with_status Failed rows = [] /\ rows_with_status Passed rows = rows.
Proof.
  unfold rows_with_status.
  induction 1 as [|row rows Hrow _ [IHf IHp]]; [done|].
  rewrite !filter_cons, !Hrow, IHf, IHp.
  rewrite (decide_True (P := Passed = Passed)) by done.
  rewrite (decide_False (P := Passed = Failed))
    by (intros Heq; by apply Failed_ne_Passed).
  done.
Qed.

(** Sorted rows whose status is one of the two labels: the failed ones,
    then the passed ones. *)
Lemma descending_two_blocks rows :
  descending_status rows ->
  Forall (fun row => last_field row = Failed \/ last_field row = Passed) rows ->
  rows = (rows_with_status Failed rows ++ rows_with_status Passed rows)%list.
Proof.
  induction rows as [|row rows IH]; intros Hd Hlabels; [done|].
  apply descending_cons in Hd as [Hd Hrow].
  apply Forall_cons in Hlabels as [Hlabel Hlabels].
  unfold rows_with_status in *.
  rewrite !filter_cons. destruct Hlabel as [Hf|Hp].
  - rewrite !Hf. rewrite (decide_True (P := Failed = Failed)) by done.
    rewrite (decide_False (P := Failed = Passed)) by apply Failed_ne_Passed.
    cbn. f_equal. by apply IH.
  - rewrite !Hp. rewrite (decide_True (P := Passed = Passed)) by done.
    rewrite (decide_False (P := Passed = Failed))
      by (intros Heq; by apply Failed_ne_Passed).
    assert (Hall : Forall (fun row' => last_field row' = Passed) rows).
    { apply Forall_forall. intros row' Hin.
      rewrite Forall_forall in Hrow, Hlabels.
      specialize (Hrow row' Hin). rewrite Hp in Hrow.
      destruct (Hlabels row' Hin) as [Hf'|]; [|done].
      by rewrite Hf' in Hrow. }
    destruct (rows_all_Passed rows Hall) as [Hnone Hsame].
    unfold rows_with_status in *. by rewrite Hnone, Hsame.
Qed.

(** ** The rendered report *)

Lemma rows_nonempty_Permutation rows rows' :
  rows' ≡ₚ rows -> rows_nonempty rows -> rows_nonempty rows'.
Proof. unfold rows_nonempty. by intros ->. Qed.

Lemma case_rows_nonempty cases : rows_nonempty (map case_row cases).
Proof. apply Forall_fmap, Forall_forall. by intros [suite testcase] _. Qed.

Lemma report_of_Ret d : report_of d = Ret (report_for d).
Proof. unfold report_of, report_for. by rewrite build_table_rows. Qed.

Lemma rows_of_report_for d :
  rows_of (report_for d) = map case_row (document_cases d).
Proof. unfold rows_of, report_for. by rewrite NewReport_Table. Qed.

Lemma report_for_nonempty d : rows_nonempty (rows_of (report_for d)).
Proof. rewrite rows_of_report_for. apply case_rows_nonempty. Qed.

Lemma generateMarkdown_report env reportPath w d :
  read_report env reportPath = Ok d ->
  generateMarkdown env reportPath w =
  match report_of d with
  | Ret report => let '(w, r) := Report.Print report w in (w, _ ← r; Ret None)
  | Panic msg => (w, Panic msg)
  end.
Proof.
  unfold read_report, generateMarkdown, report_of.
  destruct (os_Open env reportPath) as [f|e]; [|done].
  destruct (io_ReadAll env f) as [data|e]; [|done].
  destruct (xml_Unmarshal env data) as [ts|e]; [|done].
  intros [= ->]. by destruct (build_table d).
Qed.

(** C2 (amended): [Print] sorts the rows of the report in place.  On a
    report whose rows all have a last field it returns; the report it leaves
    has the same time, timestamp, flag, counts, headers and separator, and
    its rows are the rows before the call, permuted into descending order of
    status; a report whose rows are in that order already is left as it
    is. *)
Theorem C2_render_sorts_rows_in_place (r : Report.t) (w : string) :
  rows_nonempty (rows_of r) ->
  exists r' w',
    Report.Print r w = (w', Ret r')
    /\ Report.Time r' = Report.Time r
    /\ Report.Timestamp r' = Report.Timestamp r
    /\ Report.OK r' = Report.OK r
    /\ Report.Failures r' = Report.Failures r
    /\ Report.Passes r' = Report.Passes r
    /\ Table.Headers (Report.Table r') = Table.Headers (Report.Table r)
    /\ Table.Separator (Report.Table r') = Table.Separator (Report.Table r)
    /\ rows_of r' ≡ₚ rows_of r
    /\ descending_status (rows_of r')
    /\ (descending_status (rows_of r) -> r' = r).
Proof.
  intros Hrows. rewrite (Print_Ret r w Hrows).
  destruct (Slice_spec by_status (rows_of r)) as [Hperm Hsorted].
  exists (with_rows r (sort.Slice by_status (rows_of r))). eexists.
  rewrite rows_of_with_rows.
  split; [done|]. do 7 (split; [done|]). split; [done|].
  split; [by apply sorted_descending|].
  intros Hd. rewrite (Slice_sorted by_status) by by apply sorted_descending.
  apply with_rows_same.
Qed.

(** C3 (amended): [Print] writes the head and then the rows of the report
    in descending order of status, so that the rows of one status are next
    to each other, the failed rows before the passed ones; the rows written
    are the rows of the report, permuted.  Rows of equal status keep their
    order when the table has at most twelve rows. *)
Theorem C3_rows_by_descending_status (r : Report.t) (w : string) :
  rows_nonempty (rows_of r) ->
  exists r',
    Report.Print r w
    = (print_rows (rows_of r') (Report.print_head r w), Ret r')
    /\ rows_of r' ≡ₚ rows_of r
    /\ descending_status (rows_of r')
    /\ contiguous_status (rows_of r')
    /\ (Forall (fun row => last_field row = Failed \/ last_field row = Passed)
               (rows_of r) ->
        rows_of r' = (rows_with_status Failed (rows_of r')
                      ++ rows_with_status Passed (rows_of r'))%list)
    /\ ((length (rows_of r) <= 12)%nat ->
        forall status,
          rows_with_status status (rows_of r')
          = rows_with_status status (rows_of r)).
Proof.
  intros Hrows. rewrite (Print_Ret r w Hrows).
  destruct (Slice_spec by_status (rows_of r)) as [Hperm Hsorted].
  apply sorted_descending in Hsorted.
  exists (with_rows r (sort.Slice by_status (rows_of r))).
  rewrite rows_of_with_rows.
  split; [done|]. split; [done|]. split; [done|].
  split; [by apply descending_contiguous|]. split.
  - intros Hlabels. apply descending_two_blocks; [done|]. by rewrite Hperm.
  - intros Hshort status. unfold rows_with_status.
    apply (Slice_stable_short by_status); [done|].
    intros x y Hx Hy. unfold by_status, string_gt. rewrite Hx, Hy.
    apply string_lt_irrefl.
Qed.

(** C4: a second [Print] of the same report writes the same bytes as the
    first, and leaves the report as the first left it. *)
Theorem C4_second_render_identical (r : Report.t) (w : string) :
  rows_nonempty (rows_of r) ->
  exists r1 text,
    Report.Print r w = (w +:+ text, Ret r1)
    /\ forall w', Report.Print r1 w' = (w' +:+ text, Ret r1).
Proof.
  intros Hrows.
  destruct (Slice_spec by_status (rows_of r)) as [Hperm Hsorted].
  set (rows' := sort.Slice by_status (rows_of r)) in *.
  exists (with_rows r rows'),
         (Report.print_head r empty +:+ print_rows rows' empty).
  assert (Hshape : forall w r0,
            print_rows rows' (Report.print_head r0 w)
            = w +:+ Report.print_head r0 empty +:+ print_rows rows' empty).
  { intros w0 r0. by rewrite print_rows_app, print_head_app, append_assoc. }
  split.
  - by rewrite (Print_Ret r w Hrows), Hshape.
  - intros w'. rewrite Print_Ret.
    + change (rows_of (with_rows r rows')) with rows'.
      rewrite (Slice_sorted by_status rows' Hsorted), Hshape.
      by destruct r as [? ? [] ? ? ?].
    + by apply (rows_nonempty_Permutation (rows_of r)).
Qed.

(** C5: the report of a document has one row per case element, before and
    after it is printed. *)
Theorem C5_row_count (d : TestSuites.t) :
  exists r,
    report_of d = Ret r
    /\ length (rows_of r) = case_count d
    /\ forall w, exists w' r',
         Report.Print r w = (w', Ret r')
         /\ length (rows_of r') = case_count d.
Proof.
  exists (report_for d). split; [apply report_of_Ret|].
  assert (Hcount : length (rows_of (report_for d)) = case_count d).
  { by rewrite rows_of_report_for, length_map, document_cases_length. }
  split; [done|]. intros w.
  rewrite (Print_Ret _ w (report_for_nonempty d)).
  eexists _, _. split; [done|]. rewrite rows_of_with_rows.
  destruct (Slice_spec by_status (rows_of (report_for d))) as [Hperm _].
  by rewrite Hperm.
Qed.

(** ** The counts *)

Lemma int_incr_small n : 0 <= n < int_max -> int_incr n = n + 1.
Proof.
  intros Hn. unfold int_incr, int_wrap, int_min, int_max in *.
  rewrite Z.mod_small; lia.
Qed.

Lemma status_count_cons label row rows :
  status_count label (row :: rows)
  = (if bool_decide (last_field row = label) then 1 else 0)
    + status_count label rows.
Proof.
  unfold status_count. rewrite filter_cons.
  case_bool_decide; [rewrite decide_True by done|rewrite decide_False by done];
    cbn [length]; lia.
Qed.

(** The loop of [NewReport] counts the rows by status when the labels
    stand nowhere but in the last field of a row. *)
Lemma count_rows_by_status rows : forall failures passes,
  Forall (fun row =>
            contains row Failed = bool_decide (last_field row = Failed)
            /\ contains row Passed = bool_decide (last_field row = Passed))
         rows ->
  0 <= failures -> 0 <= passes ->
  failures + Z.of_nat (length rows) <= int_max ->
  passes + Z.of_nat (length rows) <= int_max ->
  fold_left count_row rows (failures, passes)
  = (failures + status_count Failed rows, passes + status_count Passed rows).
Proof.
  induction rows as [|row rows IH]; intros failures passes Hrows Hf Hp Hfmax Hpmax.
  - unfold status_count. cbn. f_equal; lia.
  - apply Forall_cons in Hrows as [[Hrf Hrp] Hrows].
    cbn [fold_left length] in *. unfold count_row at 2.
    rewrite !status_count_cons, Hrf, Hrp.
    do 2 case_bool_decide.
    + exfalso. apply Failed_ne_Passed. congruence.
    + rewrite int_incr_small by lia. rewrite IH by (done || lia).
      f_equal; lia.
    + rewrite int_incr_small by lia. rewrite IH by (done || lia).
      f_equal; lia.
    + rewrite IH by (done || lia). f_equal; lia.
Qed.

(** So [Failures] and [Passes] are the numbers of failed and passed rows
    for such a table. *)
Lemma NewReport_counts_by_status time timestamp table :
  Forall (fun row =>
            contains row Failed = bool_decide (last_field row = Failed)
            /\ contains row Passed = bool_decide (last_field row = Passed))
         (Table.Rows table) ->
  Z.of_nat (length (Table.Rows table)) <= int_max ->
  Report.Failures (NewReport time timestamp table)
  = status_count Failed (Table.Rows table)
  /\ Report.Passes (NewReport time timestamp table)
     = status_count Passed (Table.Rows table).
Proof.
  intros Hrows Hlen.
  pose proof (NewReport_counters time timestamp table) as Hc.
  rewrite (count_rows_by_status _ 0 0) in Hc by (done || lia).
  by injection Hc as -> ->.
Qed.

(** C1: for the document whose one suite is named like the fail-label
    and whose one case passes, [NewReport] counts one failure and no pass,
    although the table holds no row with the fail-label as status and one
    with the pass-label: [contains] looks at every field of the row. *)
Theorem C1_counts_match_any_field :
  exists r,
    report_of doc_suite_named_Failed = Ret r
    /\ rows_of r = [[":x: Failed"; "boot"; "`1`"; ":white_check_mark: Passed"]]
    /\ Report.Failures r = 1
    /\ Report.Passes r = 0
    /\ Report.OK r = false
    /\ status_count Failed (rows_of r) = 0
    /\ status_count Passed (rows_of r) = 1.
Proof.
  exists (report_for doc_suite_named_Failed).
  split; [apply report_of_Ret|]. by vm_compute.
Qed.

(** ** Panics *)

(** C10: [Table.Add] panics on a row that has not one field per header.
    The table of a document is built without a panic; each of its rows has
    the four fields of the headers, so that the index [len(row)-1] of its
    last field is in bounds, and neither [Print] nor [generateMarkdown]
    panics. *)
Theorem C10_no_panic (d : TestSuites.t) :
  (forall tbl row,
     length row <> length (Table.Headers tbl) ->
     Table.Add tbl row = Panic "row length does not match header length")
  /\ (exists table,
        build_table d = Ret table
        /\ Forall (fun row =>
                     length row = length (Table.Headers table)
                     /\ length row = 4%nat
                     /\ 0 <= Z.of_nat (length row) - 1 < Z.of_nat (length row)
                     /\ row !! (length row - 1)%nat = Some (last_field row))
                  (Table.Rows table)
        /\ forall time timestamp w,
             exists r', (Report.Print (NewReport time timestamp table) w).2
                        = Ret r')
  /\ (forall env reportPath w,
        read_report env reportPath = Ok d ->
        (generateMarkdown env reportPath w).2 = Ret None).
Proof.
  split; [|split].
  - intros tbl row Hlen. unfold Table.Add.
    by destruct (Nat.eqb_spec (length row) (length (Table.Headers tbl))).
  - eexists. split; [apply build_table_rows|]. cbn [Table.Rows Table.Headers].
    split.
    + apply Forall_fmap, Forall_forall. intros [suite testcase] _.
      cbn. split; [done|]. split; [done|]. split; [lia|done].
    + intros time timestamp w. rewrite Print_Ret; [by eexists|].
      unfold rows_of. rewrite NewReport_Table. apply case_rows_nonempty.
  - intros env reportPath w Hread.
    rewrite (generateMarkdown_report env reportPath w d Hread).
    by rewrite report_of_Ret, (Print_Ret _ w (report_for_nonempty d)).
Qed.

(** ** Package [encoding/xml]: the bytes that are not read *)

Section decoder.
Import xml.
Local Open Scope nat_scope.

Lemma stable_ret {A : Type} (a : A) : stable (ret a).
Proof. intros d a' d' [= <- <-] Herr. done. Qed.

Lemma stable_bind {A B : Type} (m : M A) (k : A -> M B) :
  stable m -> (forall a, stable (k a)) -> stable (bind m k).
Proof.
  intros Hm Hk d b d' Hrun Herr. unfold bind in *.
  destruct (m d) as [[a d1]|] eqn:Hfirst; [|done].
  destruct (Hk a d1 b d' Hrun Herr) as [Herr1 Hrest].
  destruct (Hm d a d1 Hfirst Herr1) as [Herr0 Hfirst'].
  split; [done|]. intros t. by rewrite Hfirst'.
Qed.

Lemma stable_unmodelled {A : Type} : stable (@unmodelled A).
Proof. by intros d a d'. Qed.



Ltac dsimpl :=
  cbn [r line err stk needClose toClose reading extend fst snd] in *.


















Lemma string_length_app (s t : string) :
  String.length (s +:+ t) = String.length s + String.length t.
Proof.
  induction s as [|c s IH]; [done|]. rewrite append_cons. cbn. by rewrite IH.
Qed.








Ltac stable_step :=
  first
    [ apply stable_ret | apply stable_unmodelled
    | apply stable_bind; [|intros ?] ].















(** A method that returns after a byte was read leaves no error. *)
Lemma bind_Some {A B : Type} (m : M A) (k : A -> M B) d x :
  bind m k d = Some x ->
  exists a d1, m d = Some (a, d1) /\ k a d1 = Some x.
Proof.
  unfold bind. destruct (m d) as [[a d1]|]; [|done]. by exists a, d1.
Qed.

Lemma getc_Some d b d' : getc d = Some (Some b, d') -> err d' = None.
Proof.
  unfold getc. destruct (err d); [done|]. destruct (r d); [done|].
  destruct (ascii_byte _); [|done]. by intros [= _ <-].
Qed.







End decoder.

(** ** Package [encoding/xml]: the rounds of the loops *)

Section rounds.
Import xml.
Local Open Scope nat_scope.

Ltac dsimpl :=
  unfold unread in *;
  cbn [r line err stk needClose toClose reading extend fst snd] in *.


Lemma getc_length d o d' :
  getc d = Some (o, d') ->
  needClose d' = needClose d
  /\ match o with
     | Some b => r d = String b (r d')
     | None => unread d' <= unread d
     end.
Proof.
  unfold getc. destruct (err d); [by intros [= <- <-]|].
  destruct (r d) as [|b s] eqn:Hr; [intros [= <- <-]; dsimpl; split; [done|cbn; lia]|].
  destruct (ascii_byte b); [|done]. by intros [= <- <-].
Qed.

Lemma mustgetc_length d o d' :
  mustgetc d = Some (o, d') ->
  needClose d' = needClose d
  /\ match o with
     | Some b => r d = String b (r d')
     | None => unread d' <= unread d
     end.
Proof.
  intros Hrun. apply bind_Some in Hrun as ([b|] & d1 & Hget & Hrest).
  - injection Hrest as <- <-. by apply getc_length in Hget.
  - apply getc_length in Hget as [Hclose Hlen].
    destruct (err d1) as [[]|]; injection Hrest as <- <-; dsimpl; done.
Qed.

Lemma space_loop_length s : forall line s' line' eof,
  space_loop s line = (s', line', eof) ->
  String.length s' <= String.length s.
Proof.
  induction s as [|b s IH]; intros line s' line' eof; [by intros [= <- _ _]|].
  cbn [space_loop]. destruct (is_space b).
  - intros Hloop. apply IH in Hloop. cbn. lia.
  - by intros [= <- _ _].
Qed.

Lemma space_length d a d' :
  space d = Some (a, d') -> needClose d' = needClose d /\ unread d' <= unread d.
Proof.
  unfold space. destruct (err d); [by intros [= <- <-]|].
  destruct (space_loop (r d) (line d)) as [[s line'] eof] eqn:Hloop.
  intros [= <- <-]. dsimpl. split; [done|].
  by apply space_loop_length in Hloop.
Qed.

Lemma readName_loop_length s : forall name rest,
  readName_loop s = (name, at_rest rest) ->
  String.length rest + String.length name = String.length s.
Proof.
  induction s as [|b s IH]; intros name rest; [done|]. cbn [readName_loop].
  destruct (negb _); [done|]. destruct (isNameByte b).
  - destruct (readName_loop s) as [name' e] eqn:Hloop. intros [= <- ->].
    cbn. by rewrite <- (IH _ _ eq_refl), Nat.add_succ_r.
  - by intros [= <- <-].
Qed.

Lemma name_length d o d' :
  name d = Some (o, d') ->
  needClose d' = needClose d
  /\ match o with
     | Some _ => unread d' < unread d
     | None => unread d' <= unread d
     end.
Proof.
  unfold name. destruct (err d).
  { intros Hrun. apply bind_Some in Hrun as (b & d1 & Hget & [= <- <-]).
    apply mustgetc_length in Hget as [Hclose Hlen]. split; [done|].
    destruct b as [b|]; [unfold unread; rewrite Hlen; cbn; lia|done]. }
  destruct (readName_loop (r d)) as [s [|rest|]] eqn:Hloop.
  - destruct s; intros [= <- <-]; dsimpl; split; try done; cbn; lia.
  - apply readName_loop_length in Hloop.
    destruct s as [|c s]; [by intros [= <- <-]; dsimpl|].
    destruct (isName _); intros [= <- <-]; dsimpl; split; try done;
      cbn in Hloop; lia.
  - by destruct s.
Qed.

Lemma nsname_length d o d' :
  nsname d = Some (o, d') ->
  needClose d' = needClose d
  /\ match o with
     | Some _ => unread d' < unread d
     | None => unread d' <= unread d
     end.
Proof.
  intros Hrun. apply bind_Some in Hrun as ([s|] & d1 & Hname & Hrest).
  - apply name_length in Hname. destruct (has_colon s); [done|].
    by injection Hrest as <- <-.
  - apply name_length in Hname. by injection Hrest as <- <-.
Qed.

Lemma text_loop_length quote s : forall b0 b1 line data line' e,
  text_loop quote b0 b1 s line = (data, line', e) ->
  match e with
  | text_rest rest | text_error _ rest => String.length rest <= String.length s
  | _ => True
  end.
Proof.
  induction s as [|b s IH]; intros b0 b1 line data line' e;
    [by intros [= _ _ <-]|].
  cbn [text_loop]. destruct (negb _); [by intros [= _ _ <-]|].
  destruct (_ && _); [intros [= _ _ <-]; cbn; lia|].
  destruct (Ascii.eqb b "<").
  { destruct quote; intros [= _ _ <-]; cbn; lia. }
  destruct (bool_decide _); [intros [= _ _ <-]; cbn; lia|].
  destruct (Ascii.eqb b "&"); [by intros [= _ _ <-]|].
  destruct (text_loop quote b1 b s _) as [[data' line''] e'] eqn:Hloop.
  apply IH in Hloop. intros Hrun.
  assert (e' = e) as ->.
  { by destruct (Ascii.eqb b "013"); [|destruct (_ && _)]; injection Hrun. }
  destruct e; cbn; try done; lia.
Qed.

Lemma text_length quote d o d' :
  text quote d = Some (o, d') -> needClose d' = needClose d /\ unread d' <= unread d.
Proof.
  unfold text. destruct (err d); [by intros [= <- <-]|].
  destruct (text_loop quote zero zero (r d) (line d))
    as [[data line'] e] eqn:Hloop.
  apply text_loop_length in Hloop.
  destruct e as [|rest|msg rest|]; [| | |done].
  - destruct (all_bytes _ _); [|done]. intros [= <- <-]. dsimpl.
    split; [done|]. cbn. lia.
  - destruct (all_bytes _ _); [|done]. by intros [= <- <-].
  - by intros [= <- <-].
Qed.

Lemma attrval_length d o d' :
  attrval d = Some (o, d') ->
  needClose d' = needClose d /\ unread d' <= unread d.
Proof.
  intros Hrun. apply bind_Some in Hrun as ([b|] & d1 & Hget & Hrun);
    apply mustgetc_length in Hget as [Hclose Hlen].
  - assert (unread d1 <= unread d) by (unfold unread; rewrite Hlen; cbn; lia).
    destruct (_ || _).
    + apply text_length in Hrun as [? ?]. split; [congruence|lia].
    + by injection Hrun as <- <-.
  - by injection Hrun as <- <-.
Qed.

Lemma ungetc_length b d a d' :
  ungetc b d = Some (a, d') ->
  needClose d' = needClose d /\ r d' = String b (r d).
Proof. by intros [= <- <-]. Qed.

Lemma fails_length {A : Type} msg (a : A) d x d' :
  (let* e := syntaxError msg in fail e;; ret a) d = Some (x, d') ->
  needClose d' = needClose d /\ unread d' = unread d.
Proof. by intros [= <- <-]. Qed.

Ltac length_step H Hc Hl :=
  first
    [ apply mustgetc_length in H as [Hc Hl]
    | apply getc_length in H as [Hc Hl]
    | apply space_length in H as [Hc Hl]
    | apply nsname_length in H as [Hc Hl]
    | apply attrval_length in H as [Hc Hl]
    | apply ungetc_length in H as [Hc Hl]
    | apply fails_length in H as [Hc Hl] ];
  unfold unread in *;
  try (apply (f_equal String.length) in Hl; cbn [String.length] in Hl).

Ltac length_done Hrun :=
  first [ apply fails_length in Hrun as [? ?] | injection Hrun as <- <- ];
  dsimpl; split; [congruence|lia].

Lemma attributes_length n : forall attr d o d',
  attributes n attr d = Some (o, d') ->
  needClose d' = needClose d /\ unread d' <= unread d.
Proof.
  induction n as [|n IH]; intros attr d o d'; [done|]. cbn [attributes].
  intros Hrun.
  apply bind_Some in Hrun as (u1 & d1 & H1 & Hrun). length_step H1 Hc1 Hl1.
  apply bind_Some in Hrun as ([b|] & d2 & H2 & Hrun); length_step H2 Hc2 Hl2;
    [|length_done Hrun].
  destruct (Ascii.eqb b "/").
  { apply bind_Some in Hrun as ([b'|] & d3 & H3 & Hrun);
      length_step H3 Hc3 Hl3; [|length_done Hrun].
    destruct (Ascii.eqb b' ">"); length_done Hrun. }
  destruct (Ascii.eqb b ">"); [length_done Hrun|].
  apply bind_Some in Hrun as (u3 & d3 & H3 & Hrun). length_step H3 Hc3 Hl3.
  apply bind_Some in Hrun as ([a_Name|] & d4 & H4 & Hrun);
    length_step H4 Hc4 Hl4.
  2:{ destruct (err d4); length_done Hrun. }
  apply bind_Some in Hrun as (u5 & d5 & H5 & Hrun). length_step H5 Hc5 Hl5.
  apply bind_Some in Hrun as ([b'|] & d6 & H6 & Hrun); length_step H6 Hc6 Hl6;
    [|length_done Hrun].
  destruct (negb _); [length_done Hrun|].
  apply bind_Some in Hrun as (u7 & d7 & H7 & Hrun). length_step H7 Hc7 Hl7.
  apply bind_Some in Hrun as ([data|] & d8 & H8 & Hrun); length_step H8 Hc8 Hl8;
    [|length_done Hrun].
  apply IH in Hrun as [? ?]. unfold unread in *. split; [congruence|lia].
Qed.

(** Character data is not empty. *)
Lemma text_chardata d b s o d' :
  err d = None -> r d = String b s -> Ascii.eqb b "<" = false ->
  text None d = Some (o, d') -> unread d' < unread d.
Proof.
  intros Herr Hr Hb. unfold text. rewrite Herr, Hr. cbn [text_loop].
  destruct (negb _); [done|]. cbn [zero Ascii.eqb Bool.eqb andb].
  rewrite Hb. rewrite bool_decide_false by done.
  destruct (Ascii.eqb b "&"); [done|].
  destruct (text_loop None zero b s _) as [[data line'] e] eqn:Hloop.
  apply text_loop_length in Hloop.
  assert (Hcase : forall data',
            match e with
            | text_EOF =>
                if all_bytes isInCharacterRange data'
                then Some (Some data', reading d empty line' (Some io_EOF))
                else None
            | text_rest rest =>
                if all_bytes isInCharacterRange data'
                then Some (Some data', reading d rest line' None)
                else None
            | text_error msg rest =>
                Some (None, reading d rest line' (Some (SyntaxError msg line')))
            | text_unmodelled => None
            end = Some (o, d') -> unread d' < unread d).
  { intros data'. unfold unread. rewrite Hr. cbn [String.length].
    destruct e as [|rest|msg rest|]; [| | |done].
    - destruct (all_bytes _ _); [|done]. intros [= <- <-]. cbn. lia.
    - destruct (all_bytes _ _); [|done]. intros [= <- <-]. cbn. lia.
    - intros [= <- <-]. cbn. lia. }
  destruct (Ascii.eqb b "013"); apply Hcase.
Qed.

(** A token that is read takes bytes from the input. *)
Lemma rawToken_read d t d' :
  needClose d = false -> rawToken d = Some (Some t, d') ->
  unread d' < unread d.
Proof.
  intros Hclose. unfold rawToken. destruct (err d) eqn:Herr; [done|].
  rewrite Hclose. intros Hrun.
  apply bind_Some in Hrun as ([b|] & d1 & H1 & Hrun); [|done].
  pose proof (getc_Some _ _ _ H1) as Herr1. length_step H1 Hc1 Hl1.
  destruct (Ascii.eqb b "<") eqn:Hb; cbn [negb] in Hrun.
  2:{ apply bind_Some in Hrun as (u2 & d2 & H2 & Hrun).
      assert (err d2 = None) by (by injection H2 as _ <-).
      pose proof H2 as H2'. apply ungetc_length in H2' as [_ Hr2].
      length_step H2 Hc2 Hl2.
      apply bind_Some in Hrun as ([data|] & d3 & H3 & Hrun); [|done].
      injection Hrun as _ <-.
      apply (text_chardata d2 b (r d1)) in H3;
        unfold unread in *; try done; lia. }
  apply bind_Some in Hrun as ([b'|] & d2 & H2 & Hrun); [|done].
  length_step H2 Hc2 Hl2.
  destruct (Ascii.eqb b' "/").
  { apply bind_Some in Hrun as ([name|] & d3 & H3 & Hrun);
      length_step H3 Hc3 Hl3; [|by destruct (err d3)].
    apply bind_Some in Hrun as (u4 & d4 & H4 & Hrun). length_step H4 Hc4 Hl4.
    apply bind_Some in Hrun as ([b''|] & d5 & H5 & Hrun); [|done].
    length_step H5 Hc5 Hl5. destruct (negb _); [done|].
    injection Hrun as _ <-. lia. }
  destruct (_ || _); [done|].
  apply bind_Some in Hrun as (u3 & d3 & H3 & Hrun). length_step H3 Hc3 Hl3.
  apply bind_Some in Hrun as ([name|] & d4 & H4 & Hrun);
    length_step H4 Hc4 Hl4; [|by destruct (err d4)].
  apply bind_Some in Hrun as ([[attr empty]|] & d5 & H5 & Hrun); [|done].
  apply attributes_length in H5 as [Hc5 Hl5]. unfold unread in *.
  injection Hrun as _ <-. cbn [r]. lia.
Qed.

(** Every token leaves the decoder lighter. *)
Lemma rawToken_weight d t d' :
  rawToken d = Some (Some t, d') -> weight d' < weight d.
Proof.
  destruct (needClose d) eqn:Hclose.
  - unfold rawToken. destruct (err d); [done|]. rewrite Hclose.
    intros [= _ <-]. unfold weight, unread. cbn. rewrite Hclose. lia.
  - intros Hrun. apply rawToken_read in Hrun; [|done].
    unfold weight. rewrite Hclose. destruct (needClose d'); lia.
Qed.

Lemma Token_weight d tok d' :
  Decoder_Token d = Some (inl tok, d') -> weight d' < weight d.
Proof.
  intros Hrun.
  apply bind_Some in Hrun as ([[name attr|name|data]|] & d1 & Hraw & Hrun).
  - apply rawToken_weight in Hraw. destruct (existsb _ _); [done|].
    by injection Hrun as _ <-.
  - apply rawToken_weight in Hraw. unfold bind, popElement in Hrun.
    destruct (stk d1); [done|]. destruct (negb _); [done|].
    by injection Hrun as _ <-.
  - apply rawToken_weight in Hraw. by injection Hrun as _ <-.
  - destruct (err d1) as [[]|]; [by destruct (stk d1)|done..].
Qed.

(** More rounds than the weight of the decoder change nothing. *)
Lemma Skip_weight n : forall depth d d',
  Skip n depth d = Some (None, d') -> weight d' <= weight d.
Proof.
  induction n as [|n IH]; intros depth d d'; [done|]. cbn [Skip]. intros Hrun.
  apply bind_Some in Hrun as ([[name attr|name|data]|e] & d1 & Htok & Hrun);
    [| | |done]; apply Token_weight in Htok.
  - apply IH in Hrun. lia.
  - destruct depth; [injection Hrun as <-|apply IH in Hrun]; lia.
  - apply IH in Hrun. lia.
Qed.

Lemma Skip_fuel n : forall m depth d,
  weight d < n -> weight d < m -> Skip n depth d = Skip m depth d.
Proof.
  induction n as [|n IH]; intros m depth d Hn Hm; [lia|].
  destruct m as [|m]; [lia|]. cbn [Skip]. unfold bind.
  destruct (Decoder_Token d) as [[[[name attr|name|data]|e] d1]|] eqn:Htok;
    [| | |done..]; apply Token_weight in Htok.
  - apply IH; lia.
  - destruct depth; [done|apply IH; lia].
  - apply IH; lia.
Qed.

Lemma unmarshal_string_weight n : forall data d s d',
  unmarshal_string n data d = Some (Filled s, d') -> weight d' <= weight d.
Proof.
  induction n as [|n IH]; intros data d s d'; [done|].
  cbn [unmarshal_string]. intros Hrun.
  apply bind_Some in Hrun as ([[name attr|name|t]|e] & d1 & Htok & Hrun);
    [| | |done]; apply Token_weight in Htok.
  - apply bind_Some in Hrun as ([e|] & d2 & Hskip & Hrun); [done|].
    apply Skip_weight in Hskip. apply IH in Hrun. lia.
  - injection Hrun as _ <-. lia.
  - apply IH in Hrun. lia.
Qed.

Lemma unmarshal_string_fuel n : forall m data d,
  weight d < n -> weight d < m ->
  unmarshal_string n data d = unmarshal_string m data d.
Proof.
  induction n as [|n IH]; intros m data d Hn Hm; [lia|].
  destruct m as [|m]; [lia|]. cbn [unmarshal_string]. unfold bind.
  destruct (Decoder_Token d) as [[[[name attr|name|t]|e] d1]|] eqn:Htok;
    [| | |done..]; apply Token_weight in Htok.
  - rewrite (Skip_fuel n m) by lia.
    destruct (Skip m 0 d1) as [[[e|] d2]|] eqn:Hskip; [done| |done].
    apply Skip_weight in Hskip. apply IH; lia.
  - done.
  - apply IH; lia.
Qed.

Lemma unmarshal_TestCase_loop_weight n : forall v d v' d',
  unmarshal_TestCase_loop n v d = Some (Filled v', d') ->
  weight d' <= weight d.
Proof.
  induction n as [|n IH]; intros v d v' d'; [done|].
  cbn [unmarshal_TestCase_loop]. intros Hrun.
  apply bind_Some in Hrun as ([[name attr|name|t]|e] & d1 & Htok & Hrun);
    [| | |done]; apply Token_weight in Htok.
  - destruct (String.eqb _ _).
    + apply bind_Some in Hrun as ([s|e] & d2 & Hsub & Hrun); [|done].
      apply unmarshal_string_weight in Hsub. apply IH in Hrun. lia.
    + apply bind_Some in Hrun as ([e|] & d2 & Hskip & Hrun); [done|].
      apply Skip_weight in Hskip. apply IH in Hrun. lia.
  - injection Hrun as _ <-. lia.
  - apply IH in Hrun. lia.
Qed.

Lemma unmarshal_TestCase_loop_fuel n : forall m v d,
  weight d < n -> weight d < m ->
  unmarshal_TestCase_loop n v d = unmarshal_TestCase_loop m v d.
Proof.
  induction n as [|n IH]; intros m v d Hn Hm; [lia|].
  destruct m as [|m]; [lia|]. cbn [unmarshal_TestCase_loop]. unfold bind.
  destruct (Decoder_Token d) as [[[[name attr|name|t]|e] d1]|] eqn:Htok;
    [| | |done..]; apply Token_weight in Htok.
  - destruct (String.eqb _ _).
    + rewrite (unmarshal_string_fuel n m) by lia.
      destruct (unmarshal_string m empty d1) as [[[s|e] d2]|] eqn:Hsub;
        [|done..].
      apply unmarshal_string_weight in Hsub. apply IH; lia.
    + rewrite (Skip_fuel n m) by lia.
      destruct (Skip m 0 d1) as [[[e|] d2]|] eqn:Hskip; [done| |done].
      apply Skip_weight in Hskip. apply IH; lia.
  - done.
  - apply IH; lia.
Qed.

Lemma unmarshal_TestSuite_loop_weight n : forall v d v' d',
  unmarshal_TestSuite_loop n v d = Some (Filled v', d') ->
  weight d' <= weight d.
Proof.
  induction n as [|n IH]; intros v d v' d'; [done|].
  cbn [unmarshal_TestSuite_loop]. intros Hrun.
  apply bind_Some in Hrun as ([[name attr|name|t]|e] & d1 & Htok & Hrun);
    [| | |done]; apply Token_weight in Htok.
  - destruct (String.eqb _ _).
    + apply bind_Some in Hrun as ([s|e] & d2 & Hsub & Hrun); [|done].
      apply unmarshal_TestCase_loop_weight in Hsub. apply IH in Hrun. lia.
    + apply bind_Some in Hrun as ([e|] & d2 & Hskip & Hrun); [done|].
      apply Skip_weight in Hskip. apply IH in Hrun. lia.
  - injection Hrun as _ <-. lia.
  - apply IH in Hrun. lia.
Qed.

Lemma unmarshal_TestSuite_loop_fuel n : forall m v d,
  weight d < n -> weight d < m ->
  unmarshal_TestSuite_loop n v d = unmarshal_TestSuite_loop m v d.
Proof.
  induction n as [|n IH]; intros m v d Hn Hm; [lia|].
  destruct m as [|m]; [lia|]. cbn [unmarshal_TestSuite_loop]. unfold bind.
  destruct (Decoder_Token d) as [[[[name attr|name|t]|e] d1]|] eqn:Htok;
    [| | |done..]; apply Token_weight in Htok.
  - destruct (String.eqb _ _).
    + unfold unmarshal_TestCase.
      rewrite (unmarshal_TestCase_loop_fuel n m) by lia.
      destruct (unmarshal_TestCase_loop m _ d1) as [[[s|e] d2]|] eqn:Hsub;
        [|done..].
      apply unmarshal_TestCase_loop_weight in Hsub. apply IH; lia.
    + rewrite (Skip_fuel n m) by lia.
      destruct (Skip m 0 d1) as [[[e|] d2]|] eqn:Hskip; [done| |done].
      apply Skip_weight in Hskip. apply IH; lia.
  - done.
  - apply IH; lia.
Qed.

Lemma unmarshal_TestSuite_weight n start attr d v d' :
  unmarshal_TestSuite n start attr d = Some (Filled v, d') ->
  weight d' <= weight d.
Proof.
  unfold unmarshal_TestSuite. destruct (expected _ _); [done|].
  apply unmarshal_TestSuite_loop_weight.
Qed.

Lemma unmarshal_TestSuite_fuel n m start attr d :
  weight d < n -> weight d < m ->
  unmarshal_TestSuite n start attr d = unmarshal_TestSuite m start attr d.
Proof.
  intros Hn Hm. unfold unmarshal_TestSuite. destruct (expected _ _); [done|].
  by apply unmarshal_TestSuite_loop_fuel.
Qed.

Lemma unmarshal_TestSuites_loop_fuel n : forall m v d,
  weight d < n -> weight d < m ->
  unmarshal_TestSuites_loop n v d = unmarshal_TestSuites_loop m v d.
Proof.
  induction n as [|n IH]; intros m v d Hn Hm; [lia|].
  destruct m as [|m]; [lia|]. cbn [unmarshal_TestSuites_loop]. unfold bind.
  destruct (Decoder_Token d) as [[[[name attr|name|t]|e] d1]|] eqn:Htok;
    [| | |done..]; apply Token_weight in Htok.
  - destruct (String.eqb _ _).
    + rewrite (unmarshal_TestSuite_fuel n m) by lia.
      destruct (unmarshal_TestSuite m _ _ d1) as [[[s|e] d2]|] eqn:Hsub;
        [|done..].
      apply unmarshal_TestSuite_weight in Hsub. apply IH; lia.
    + rewrite (Skip_fuel n m) by lia.
      destruct (Skip m 0 d1) as [[[e|] d2]|] eqn:Hskip; [done| |done].
      apply Skip_weight in Hskip. apply IH; lia.
  - done.
  - apply IH; lia.
Qed.

Lemma Decode_fuel n : forall m d,
  weight d < n -> weight d < m -> Decode n d = Decode m d.
Proof.
  induction n as [|n IH]; intros m d Hn Hm; [lia|].
  destruct m as [|m]; [lia|]. cbn [Decode]. unfold bind.
  destruct (Decoder_Token d) as [[[[name attr|name|t]|e] d1]|] eqn:Htok;
    [| | |done..]; apply Token_weight in Htok.
  - unfold unmarshal_TestSuites. destruct (expected _ _); [done|].
    apply unmarshal_TestSuites_loop_fuel; lia.
  - apply IH; lia.
  - apply IH; lia.
Qed.

(** The rounds that [Unmarshal] allows are enough: with more of them
    [Decode] returns the same, so that the model gives no answer only where
    the decoder reads what the model does not cover. *)
Lemma Unmarshal_rounds (data : string) (n : nat) :
  2 * String.length data + 1 <= n ->
  Decode n (NewDecoder data)
  = Decode (2 * String.length data + 1) (NewDecoder data).
Proof.
  intros Hn. apply Decode_fuel; unfold weight, unread; cbn; lia.
Qed.

(** The same for the attributes of a start tag: each takes bytes from the
    input. *)
Lemma attributes_fuel n : forall m attr d,
  unread d < n -> unread d < m -> attributes n attr d = attributes m attr d.
Proof.
  induction n as [|n IH]; intros m attr d Hn Hm; [lia|].
  destruct m as [|m]; [lia|]. cbn [attributes]. unfold bind.
  destruct (space d) as [[u1 d1]|] eqn:H1; [|done]. length_step H1 Hc1 Hl1.
  destruct (mustgetc d1) as [[[b|] d2]|] eqn:H2; [|done..].
  length_step H2 Hc2 Hl2.
  destruct (Ascii.eqb b "/"); [done|]. destruct (Ascii.eqb b ">"); [done|].
  destruct (ungetc b d2) as [[u3 d3]|] eqn:H3; [|done].
  length_step H3 Hc3 Hl3.
  destruct (nsname d3) as [[[a_Name|] d4]|] eqn:H4; [|done..].
  length_step H4 Hc4 Hl4.
  destruct (space d4) as [[u5 d5]|] eqn:H5; [|done]. length_step H5 Hc5 Hl5.
  destruct (mustgetc d5) as [[[b'|] d6]|] eqn:H6; [|done..].
  length_step H6 Hc6 Hl6. destruct (negb _); [done|].
  destruct (space d6) as [[u7 d7]|] eqn:H7; [|done]. length_step H7 Hc7 Hl7.
  destruct (attrval d7) as [[[data|] d8]|] eqn:H8; [|done..].
  length_step H8 Hc8 Hl8. apply IH; lia.
Qed.

End rounds.

(** ** Package [encoding/xml]: reports in their layout *)

Section roundtrip.
Import xml.
Local Open Scope nat_scope.

Lemma plain_byte_ascii b : plain_byte b = true -> ascii_byte b = true.
Proof.
  unfold plain_byte, between, ascii_byte. intros H.
  apply andb_prop in H as [H _]. apply andb_prop in H as [_ H].
  apply Nat.leb_le in H. apply Nat.ltb_lt.
  change (nat_of_ascii "~") with 126 in H. lia.
Qed.

Lemma plain_byte_inv b :
  plain_byte b = true ->
  ascii_byte b = true /\ isInCharacterRange b = true
  /\ Ascii.eqb b "<" = false /\ Ascii.eqb b ">" = false
  /\ Ascii.eqb b "&" = false /\ Ascii.eqb b "'" = false
  /\ Ascii.eqb b "034" = false /\ Ascii.eqb b "013" = false
  /\ Ascii.eqb b newline = false.
Proof.
  intros Hb. split; [by apply plain_byte_ascii|].
  unfold plain_byte in Hb. apply andb_prop in Hb as [Hrange Hb].
  apply negb_true_iff in Hb.
  repeat (apply orb_false_elim in Hb as [Hb ?]).
  assert (Hlo : 32 <= nat_of_ascii b <= 126).
  { unfold between in Hrange. apply andb_prop in Hrange as [Hlo Hhi].
    apply Nat.leb_le in Hlo, Hhi. change (nat_of_ascii " ") with 32 in Hlo.
    change (nat_of_ascii "~") with 126 in Hhi. lia. }
  assert (Hne : forall c, nat_of_ascii c < 32 -> Ascii.eqb b c = false).
  { intros c Hc. apply Ascii.eqb_neq. intros ->. lia. }
  repeat split; try done.
  - unfold isInCharacterRange, between. apply orb_true_intro. right.
    apply andb_true_intro. split; apply Nat.leb_le.
    + change (nat_of_ascii " ") with 32. lia.
    + change (nat_of_ascii "127") with 127. lia.
  - by apply Hne, Nat.ltb_lt.
  - by apply Hne, Nat.ltb_lt.
Qed.

Lemma count_line_plain b l : plain_byte b = true -> count_line b l = l.
Proof.
  intros Hb. unfold count_line.
  by destruct (plain_byte_inv b Hb) as (_ & _ & _ & _ & _ & _ & _ & _ & ->).
Qed.

(** An attribute value of plain bytes is read up to its closing quote. *)
Lemma text_loop_quoted quote v : forall b0 b1 rest l,
  plain v -> is_quote quote ->
  text_loop (Some quote) b0 b1 (v +:+ String quote rest) l
  = (v, l, text_rest rest).
Proof.
  induction v as [|b v IH]; intros b0 b1 rest l Hv Hq.
  - rewrite append_nil_l. cbn [text_loop].
    assert (ascii_byte quote = true) as -> by (by destruct Hq as [->| ->]).
    cbn [negb].
    assert (Ascii.eqb quote ">" = false) as -> by (by destruct Hq as [->| ->]).
    rewrite andb_false_r.
    assert (Ascii.eqb quote "<" = false) as -> by (by destruct Hq as [->| ->]).
    rewrite bool_decide_true by done. unfold count_line.
    by destruct Hq as [->| ->].
  - rewrite append_cons. cbn [text_loop].
    unfold plain in Hv. cbn [all_bytes] in Hv.
    apply andb_prop in Hv as [Hb Hv].
    rewrite (count_line_plain b l Hb).
    destruct (plain_byte_inv b Hb)
      as (-> & _ & -> & -> & -> & Hq1 & Hq2 & -> & Hnl).
    cbn [negb]. rewrite andb_false_r.
    rewrite bool_decide_false.
    2:{ intros [= ->]. destruct Hq as [->| ->]; by rewrite ?Hq1, ?Hq2 in *. }
    rewrite (IH b1 b rest l Hv Hq). by rewrite Hnl, andb_false_r.
Qed.

(** Character data of plain bytes is read up to the next tag. *)
Lemma text_loop_chardata v : forall b0 b1 rest l,
  plain v ->
  text_loop None b0 b1 (v +:+ String "<" rest) l
  = (v, l, text_rest (String "<" rest)).
Proof.
  induction v as [|b v IH]; intros b0 b1 rest l Hv.
  - rewrite append_nil_l. cbn [text_loop]. cbn. by rewrite andb_false_r.
  - rewrite append_cons. cbn [text_loop].
    unfold plain in Hv. cbn [all_bytes] in Hv.
    apply andb_prop in Hv as [Hb Hv].
    rewrite (count_line_plain b l Hb).
    destruct (plain_byte_inv b Hb)
      as (-> & _ & -> & -> & -> & Hq1 & Hq2 & -> & Hnl).
    cbn [negb]. rewrite andb_false_r.
    rewrite bool_decide_false by done.
    rewrite (IH b1 b rest l Hv). by rewrite Hnl, andb_false_r.
Qed.

Lemma plain_in_range v : plain v -> all_bytes isInCharacterRange v = true.
Proof.
  induction v as [|b v IH]; [done|]. unfold plain. cbn [all_bytes].
  intros Hv. apply andb_prop in Hv as [Hb Hv].
  destruct (plain_byte_inv b Hb) as (_ & -> & _). by apply IH.
Qed.

Lemma name_byte_inv b :
  name_byte b = true ->
  ascii_byte b = true /\ isNameByte b = true /\ is_space b = false
  /\ Ascii.eqb b "<" = false /\ Ascii.eqb b ">" = false
  /\ Ascii.eqb b "/" = false /\ Ascii.eqb b "?" = false
  /\ Ascii.eqb b "!" = false /\ Ascii.eqb b "=" = false
  /\ Ascii.eqb b newline = false.
Proof.
  destruct b as [[] [] [] [] [] [] [] []]; vm_compute; intros [=];
    by repeat split.
Qed.

Lemma readName_loop_name n : forall rest,
  all_bytes name_byte n = true -> ends_name rest ->
  readName_loop (n +:+ rest) = (n, at_rest rest).
Proof.
  induction n as [|b n IH]; intros rest Hn (c & rest' & -> & Hc & Hstop).
  - rewrite append_nil_l. cbn [readName_loop]. by rewrite Hc, Hstop.
  - rewrite append_cons. cbn [readName_loop]. cbn [all_bytes] in Hn.
    apply andb_prop in Hn as [Hb Hn].
    destruct (name_byte_inv b Hb) as (-> & -> & _). cbn [negb].
    rewrite (IH (String c rest') Hn); [done|]. by exists c, rest'.
Qed.

Lemma nsname_at n rest l st tc :
  is_name n -> ends_name rest ->
  nsname (at_ (n +:+ rest) l st tc)
  = Some (Some {| Space := empty; Local := n |}, at_ rest l st tc).
Proof.
  intros (Hbytes & Hname & Hcolon & _) Hrest. unfold nsname, bind, name.
  cbn [err r at_]. rewrite (readName_loop_name n rest Hbytes Hrest).
  destruct n as [|c n]; [done|]. rewrite Hname. cbn [line]. by rewrite Hcolon.
Qed.

(** The methods of the decoder on an input that begins as expected. *)
Lemma getc_at b s l st tc :
  ascii_byte b = true ->
  getc (at_ (String b s) l st tc)
  = Some (Some b, at_ s (count_line b l) st tc).
Proof. intros Hb. unfold getc. cbn [err r at_]. by rewrite Hb. Qed.

Lemma mustgetc_at b s l st tc :
  ascii_byte b = true ->
  mustgetc (at_ (String b s) l st tc)
  = Some (Some b, at_ s (count_line b l) st tc).
Proof. intros Hb. unfold mustgetc, bind. by rewrite getc_at. Qed.

Lemma ungetc_at b s l st tc :
  Ascii.eqb b newline = false ->
  ungetc b (at_ s l st tc) = Some (tt, at_ (String b s) l st tc).
Proof. intros Hb. unfold ungetc. by rewrite Hb. Qed.

Lemma space_at c s l st tc :
  is_space c = false ->
  space (at_ (String c s) l st tc) = Some (tt, at_ (String c s) l st tc).
Proof. intros Hc. unfold space. cbn [err r at_ space_loop]. by rewrite Hc. Qed.

Lemma space_at_blank c s l st tc :
  is_space c = false ->
  space (at_ (String " " (String c s)) l st tc)
  = Some (tt, at_ (String c s) l st tc).
Proof.
  intros Hc. unfold space. cbn [err r at_ space_loop].
  change (is_space " ") with true. cbn iota. by rewrite Hc.
Qed.

Lemma attrval_at v rest l st tc :
  plain v ->
  attrval (at_ (String "'" (v +:+ String "'" rest)) l st tc)
  = Some (Some v, at_ rest l st tc).
Proof.
  intros Hv. unfold attrval, bind.
  rewrite mustgetc_at by done. cbn [Ascii.eqb Bool.eqb orb].
  unfold text. cbn [err r at_ line].
  rewrite (text_loop_quoted "'" v zero zero rest _ Hv) by (by left).
  by rewrite (plain_in_range v Hv).
Qed.

Lemma attribute_app name value tail :
  attribute name value +:+ tail
  = String " "
      (name +:+ String "=" (String "'" (value +:+ String "'" tail))).
Proof.
  unfold attribute. by rewrite !append_assoc.
Qed.

Lemma is_name_head n :
  is_name n -> exists c n', n = String c n' /\ name_byte c = true.
Proof.
  intros (Hbytes & Hname & _). destruct n as [|c n']; [done|].
  exists c, n'. split; [done|]. cbn [all_bytes] in Hbytes.
  by apply andb_prop in Hbytes as [? _].
Qed.

Lemma count_line_other b l :
  Ascii.eqb b newline = false -> count_line b l = l.
Proof. intros Hb. unfold count_line. by rewrite Hb. Qed.

Lemma attributes_at attrs : forall n acc rest l st tc,
  Forall is_attribute attrs -> length attrs < n ->
  attributes n acc
    (at_ (encode_all (fun a => attribute a.1 a.2) attrs +:+ String ">" rest)
         l st tc)
  = Some (Some ((acc ++ map attr_of attrs)%list, false), at_ rest l st tc).
Proof.
  induction attrs as [|[name value] attrs IH]; intros n acc rest l st tc Hall Hn;
    (destruct n as [|n]; [cbn in Hn; lia|]); cbn [attributes encode_all].
  - rewrite append_nil_l. unfold bind. rewrite space_at by done.
    rewrite mustgetc_at by done. cbn [Ascii.eqb Bool.eqb].
    by rewrite app_nil_r.
  - apply Forall_cons in Hall as [[Hname Hvalue] Hall]. cbn [fst snd] in *.
    rewrite append_assoc, attribute_app.
    destruct (is_name_head name Hname) as (c & name' & -> & Hc).
    destruct (name_byte_inv c Hc)
      as (Hascii & _ & Hspace & _ & Hgt & Hslash & _ & _ & _ & Hnl).
    unfold bind. rewrite append_cons. rewrite space_at_blank by done.
    rewrite mustgetc_at by done. rewrite Hslash, Hgt.
    rewrite count_line_other by done. rewrite ungetc_at by done.
    rewrite <- append_cons. rewrite nsname_at; [|done|by eexists _, _].
    rewrite space_at by done. rewrite mustgetc_at by done.
    cbn [Ascii.eqb Bool.eqb negb]. rewrite count_line_other by done.
    rewrite space_at by done. rewrite attrval_at by done.
    rewrite IH; [|done|cbn in Hn; lia].
    by rewrite <- app_assoc.
Qed.

Lemma ends_name_attrs attrs rest :
  ends_name (encode_attrs attrs +:+ String ">" rest).
Proof.
  destruct attrs as [|[name value] attrs]; cbn [encode_attrs encode_all].
  - rewrite append_nil_l. by eexists _, _.
  - cbn [fst snd]. rewrite append_assoc, attribute_app. by eexists _, _.
Qed.

Lemma length_attrs attrs rest :
  length attrs <= String.length (encode_attrs attrs +:+ rest).
Proof.
  induction attrs as [|[name value] attrs IH]; [cbn; lia|].
  cbn [encode_attrs encode_all length fst snd].
  rewrite append_assoc, attribute_app. cbn [String.length].
  rewrite !string_length_app. cbn [String.length].
  rewrite string_length_app. cbn [String.length].
  fold (encode_attrs attrs). lia.
Qed.

Lemma no_space_declared attrs :
  Forall is_attribute attrs ->
  existsb declares_space (map attr_of attrs) = false.
Proof.
  induction 1 as [|[name value] attrs [(_ & _ & _ & Hname) _] _ IH]; [done|].
  cbn [map existsb]. rewrite IH. unfold declares_space.
  cbn [attr_of Attr.Name Local fst] in *. by rewrite Hname.
Qed.

(** The tokens of a start tag, of an end tag and of character data. *)
Lemma Token_start n attrs rest l st tc :
  is_name n -> Forall is_attribute attrs ->
  Decoder_Token
    (at_ (String "<" (n +:+ encode_attrs attrs +:+ String ">" rest)) l st tc)
  = Some (inl (StartElement {| Space := empty; Local := n |}
                            (map attr_of attrs)),
          at_ rest l ({| Space := empty; Local := n |} :: st) tc).
Proof.
  intros Hn Hattrs. unfold Decoder_Token, bind at 1.
  assert (Hraw : rawToken
            (at_ (String "<" (n +:+ encode_attrs attrs +:+ String ">" rest))
                 l st tc)
          = Some (Some (StartElement {| Space := empty; Local := n |}
                                     (map attr_of attrs)),
                  at_ rest l st tc)).
  { unfold rawToken. cbn [err needClose at_]. unfold bind.
    rewrite getc_at by done. cbn [Ascii.eqb Bool.eqb negb].
    rewrite count_line_other by done.
    destruct (is_name_head n Hn) as (c & n' & -> & Hc).
    destruct (name_byte_inv c Hc)
      as (Hascii & _ & Hspace & _ & Hgt & Hslash & Hq & Hbang & _ & Hnl).
    rewrite append_cons. rewrite mustgetc_at by done.
    rewrite Hslash, Hq, Hbang. cbn [orb].
    rewrite count_line_other by done. rewrite ungetc_at by done.
    rewrite <- append_cons.
    rewrite nsname_at; [|done|apply ends_name_attrs].
    cbn [r at_].
    rewrite (attributes_at attrs _ [] rest l st tc Hattrs).
    - done.
    - pose proof (length_attrs attrs (String ">" rest)). lia. }
  rewrite Hraw. rewrite (no_space_declared attrs Hattrs). done.
Qed.

Lemma Token_end n rest l top st tc :
  is_name n -> Local top = n ->
  Decoder_Token
    (at_ (String "<" (String "/" (n +:+ String ">" rest))) l (top :: st) tc)
  = Some (inl (EndElement {| Space := empty; Local := n |}),
          at_ rest l st tc).
Proof.
  intros Hn Htop. unfold Decoder_Token, bind at 1.
  assert (Hraw : rawToken
            (at_ (String "<" (String "/" (n +:+ String ">" rest)))
                 l (top :: st) tc)
          = Some (Some (EndElement {| Space := empty; Local := n |}),
                  at_ rest l (top :: st) tc)).
  { unfold rawToken. cbn [err needClose at_]. unfold bind.
    rewrite getc_at by done. cbn [Ascii.eqb Bool.eqb negb].
    rewrite count_line_other by done.
    rewrite mustgetc_at by done. cbn [Ascii.eqb Bool.eqb].
    rewrite count_line_other by done.
    rewrite nsname_at; [|done|by eexists _, _].
    rewrite space_at by done. rewrite mustgetc_at by done.
    cbn [Ascii.eqb Bool.eqb negb]. by rewrite count_line_other. }
  rewrite Hraw. unfold bind, popElement. cbn [stk at_ Local].
  by rewrite Htop, String.eqb_refl.
Qed.

Lemma Token_chardata v rest l st tc :
  plain v -> v <> empty ->
  Decoder_Token (at_ (v +:+ String "<" rest) l st tc)
  = Some (inl (CharData v), at_ (String "<" rest) l st tc).
Proof.
  intros Hv Hne. unfold Decoder_Token, bind at 1.
  assert (Hraw : rawToken (at_ (v +:+ String "<" rest) l st tc)
          = Some (Some (CharData v), at_ (String "<" rest) l st tc)).
  { unfold rawToken. cbn [err needClose at_]. unfold bind.
    destruct v as [|b v']; [done|]. rewrite append_cons.
    pose proof Hv as Hv'. unfold plain in Hv'. cbn [all_bytes] in Hv'.
    apply andb_prop in Hv' as [Hb _].
    destruct (plain_byte_inv b Hb)
      as (Hascii & _ & Hlt & _ & _ & _ & _ & _ & Hnl).
    rewrite getc_at by done. rewrite Hlt. cbn [negb].
    rewrite count_line_other by done. rewrite ungetc_at by done.
    unfold text. cbn [err r line at_]. rewrite <- append_cons.
    rewrite (text_loop_chardata _ zero zero rest l Hv).
    by rewrite (plain_in_range _ Hv). }
  by rewrite Hraw.
Qed.

Ltac name_lit := by repeat split.

Lemma weight_pos d n : weight d < n -> exists n', n = S n'.
Proof. destruct n; [lia|]. by eexists. Qed.

(** The character data of a [failure] element. *)
Lemma unmarshal_string_at n text rest l st tc :
  plain text ->
  weight (at_ (text +:+ end_tag "failure" rest) l (named "failure" :: st) tc)
  < n ->
  unmarshal_string n empty
    (at_ (text +:+ end_tag "failure" rest) l (named "failure" :: st) tc)
  = Some (Filled text, at_ rest l st tc).
Proof.
  intros Htext Hn. destruct (weight_pos _ _ Hn) as [n' ->].
  cbn [unmarshal_string]. unfold bind at 1.
  destruct (decide (text = empty)) as [->|Hne].
  - rewrite append_nil_l. unfold end_tag.
    by rewrite Token_end by name_lit.
  - unfold end_tag in *.
    pose proof (Token_chardata text ("/failure>" +:+ rest) l
                  (named "failure" :: st) tc Htext Hne) as Htok.
    change (String "<" ("/failure>" +:+ rest))
      with (end_tag "failure" rest) in Htok.
    fold (end_tag "failure" rest).
    rewrite Htok. apply Token_weight in Htok.
    fold (end_tag "failure" rest) in Hn.
    assert (Hn' : weight (at_ (end_tag "failure" rest) l
                            (named "failure" :: st) tc) < n') by lia.
    destruct (weight_pos _ _ Hn') as [n'' ->].
    cbn [unmarshal_string]. unfold bind at 1. unfold end_tag.
    by rewrite Token_end by name_lit.
Qed.

(** The layout of the elements, tag by tag. *)
Lemma encode_failure_tags text rest :
  encode_failure (Some text) +:+ rest
  = start_tag "failure" [] (text +:+ end_tag "failure" rest).
Proof. unfold encode_failure. by rewrite !append_assoc. Qed.

Lemma encode_case_tags c rest :
  encode_case c +:+ rest
  = start_tag "testcase"
      [("name", TestCase.Name c); ("time", TestCase.Time c)]
      (encode_failure (TestCase.Failure c) +:+ end_tag "testcase" rest).
Proof.
  unfold encode_case, start_tag, encode_attrs. cbn [encode_all fst snd].
  by rewrite !append_assoc.
Qed.

Lemma encode_suite_tags s rest :
  encode_suite s +:+ rest
  = start_tag "testsuite" [("name", TestSuite.Name s)]
      (encode_all encode_case (TestSuite.TestCase s)
       +:+ end_tag "testsuite" rest).
Proof.
  unfold encode_suite, start_tag, encode_attrs. cbn [encode_all fst snd].
  by rewrite !append_assoc.
Qed.

Lemma encode_tags d rest :
  encode d +:+ rest
  = start_tag "testsuites"
      [("time", TestSuites.Time d); ("timestamp", TestSuites.Timestamp d)]
      (encode_all encode_suite (TestSuites.TestSuite d)
       +:+ end_tag "testsuites" rest).
Proof.
  unfold encode, start_tag, encode_attrs. cbn [encode_all fst snd].
  by rewrite !append_assoc.
Qed.

(** The content of a [testcase] element. *)
Lemma unmarshal_TestCase_loop_end n v rest l st tc :
  weight (at_ (end_tag "testcase" rest) l (named "testcase" :: st) tc) < n ->
  unmarshal_TestCase_loop n v
    (at_ (end_tag "testcase" rest) l (named "testcase" :: st) tc)
  = Some (Filled v, at_ rest l st tc).
Proof.
  intros Hn. destruct (weight_pos _ _ Hn) as [n' ->].
  cbn [unmarshal_TestCase_loop]. unfold bind at 1, end_tag.
  by rewrite Token_end by name_lit.
Qed.

Lemma unmarshal_TestCase_loop_at n name time failure rest l st tc :
  from_option plain True failure ->
  weight (at_ (encode_failure failure +:+ end_tag "testcase" rest) l
              (named "testcase" :: st) tc) < n ->
  unmarshal_TestCase_loop n
    {| TestCase.Name := name; TestCase.Time := time;
       TestCase.Failure := None |}
    (at_ (encode_failure failure +:+ end_tag "testcase" rest) l
         (named "testcase" :: st) tc)
  = Some (Filled {| TestCase.Name := name; TestCase.Time := time;
                    TestCase.Failure := failure |},
          at_ rest l st tc).
Proof.
  intros Hplain Hn.
  destruct failure as [text|]; cbn [from_option] in Hplain.
  2:{ cbn [encode_failure] in *. rewrite append_nil_l in *.
      by apply unmarshal_TestCase_loop_end. }
  destruct (weight_pos _ _ Hn) as [n' ->].
  cbn [unmarshal_TestCase_loop]. unfold bind at 1.
  rewrite encode_failure_tags in *. unfold start_tag in *.
  pose proof (Token_start "failure" [] (text +:+ end_tag "failure"
                (end_tag "testcase" rest)) l (named "testcase" :: st) tc)
    as Htok.
  rewrite Htok by (name_lit || constructor).
  apply Token_weight in Htok; [|name_lit|constructor].
  cbn [Local String.eqb Ascii.eqb Bool.eqb]. unfold bind at 1.
  pose proof (unmarshal_string_at n' text (end_tag "testcase" rest) l
                (named "testcase" :: st) tc Hplain) as Hsub.
  unfold named in *. rewrite Hsub by lia.
  apply unmarshal_string_weight in Hsub; [|lia].
  cbn [TestCase.Name TestCase.Time].
  apply (unmarshal_TestCase_loop_end n'). unfold named. lia.
Qed.

Lemma assign_two name1 value1 name2 value2 :
  String.eqb name1 name2 = false ->
  assign name1 (map attr_of [(name1, value1); (name2, value2)]) empty = value1
  /\ assign name2 (map attr_of [(name1, value1); (name2, value2)]) empty
     = value2.
Proof.
  intros Hne. unfold assign.
  cbn [map fold_left attr_of Attr.Name Attr.Value Local fst snd].
  rewrite !String.eqb_refl, (String.eqb_sym name2 name1), Hne.
  by destruct (String.eqb name1 name2).
Qed.

(** The content of a [testsuite] element. *)
Lemma unmarshal_TestSuite_loop_at cases : forall n v rest l st tc,
  Forall plain_case cases ->
  weight (at_ (encode_all encode_case cases +:+ end_tag "testsuite" rest) l
              (named "testsuite" :: st) tc) < n ->
  unmarshal_TestSuite_loop n v
    (at_ (encode_all encode_case cases +:+ end_tag "testsuite" rest) l
         (named "testsuite" :: st) tc)
  = Some (Filled {| TestSuite.XMLName := TestSuite.XMLName v;
                    TestSuite.Name := TestSuite.Name v;
                    TestSuite.TestCase :=
                      (TestSuite.TestCase v ++ cases)%list |},
          at_ rest l st tc).
Proof.
  induction cases as [|c cases IH]; intros n v rest l st tc Hplain Hn;
    destruct (weight_pos _ _ Hn) as [n' ->];
    cbn [unmarshal_TestSuite_loop encode_all] in *; unfold bind at 1.
  - rewrite append_nil_l. unfold end_tag.
    rewrite Token_end by name_lit. rewrite app_nil_r. by destruct v.
  - apply Forall_cons in Hplain as [(Hname & Htime & Hfailure) Hplain].
    rewrite append_assoc, encode_case_tags in *. unfold start_tag in *.
    assert (Hattrs : Forall is_attribute
              [("name", TestCase.Name c); ("time", TestCase.Time c)]).
    { repeat constructor; done. }
    pose proof (Token_start "testcase" _
                  (encode_failure (TestCase.Failure c)
                   +:+ end_tag "testcase"
                         (encode_all encode_case cases
                          +:+ end_tag "testsuite" rest))
                  l (named "testsuite" :: st) tc ltac:(name_lit) Hattrs)
      as Htok.
    rewrite Htok. apply Token_weight in Htok.
    cbn [Local String.eqb Ascii.eqb Bool.eqb]. unfold bind at 1.
    unfold unmarshal_TestCase.
    destruct (assign_two "name" (TestCase.Name c) "time" (TestCase.Time c))
      as [-> ->]; [done|].
    pose proof (unmarshal_TestCase_loop_at n' (TestCase.Name c)
                  (TestCase.Time c) (TestCase.Failure c)
                  (encode_all encode_case cases +:+ end_tag "testsuite" rest)
                  l (named "testsuite" :: st) tc Hfailure) as Hsub.
    unfold named in *. rewrite Hsub by lia.
    apply unmarshal_TestCase_loop_weight in Hsub; [|lia].
    rewrite (IH n'); [|done|unfold named; lia].
    cbn [TestSuite.XMLName TestSuite.Name TestSuite.TestCase].
    rewrite <- app_assoc. by destruct c.
Qed.

Lemma assign_one name value :
  assign name (map attr_of [(name, value)]) empty = value.
Proof.
  unfold assign.
  cbn [map fold_left attr_of Attr.Name Attr.Value Local fst snd].
  by rewrite String.eqb_refl.
Qed.

(** The content of the [testsuites] element. *)
Lemma unmarshal_TestSuites_loop_at suites : forall n v rest l st tc,
  Forall plain_suite suites ->
  weight (at_ (encode_all encode_suite suites +:+ end_tag "testsuites" rest)
              l (named "testsuites" :: st) tc) < n ->
  unmarshal_TestSuites_loop n v
    (at_ (encode_all encode_suite suites +:+ end_tag "testsuites" rest) l
         (named "testsuites" :: st) tc)
  = Some (Filled {| TestSuites.XMLName := TestSuites.XMLName v;
                    TestSuites.TestSuite :=
                      (TestSuites.TestSuite v
                       ++ map (fun s =>
                                 {| TestSuite.XMLName := named "testsuite";
                                    TestSuite.Name := TestSuite.Name s;
                                    TestSuite.TestCase :=
                                      TestSuite.TestCase s |})
                              suites)%list;
                    TestSuites.Time := TestSuites.Time v;
                    TestSuites.Timestamp := TestSuites.Timestamp v |},
          at_ rest l st tc).
Proof.
  induction suites as [|s suites IH]; intros n v rest l st tc Hplain Hn;
    destruct (weight_pos _ _ Hn) as [n' ->];
    cbn [unmarshal_TestSuites_loop encode_all] in *; unfold bind at 1.
  - rewrite append_nil_l. unfold end_tag.
    rewrite Token_end by name_lit. cbn [map]. rewrite app_nil_r.
    by destruct v.
  - apply Forall_cons in Hplain as [[Hname Hcases] Hplain].
    rewrite append_assoc, encode_suite_tags in *. unfold start_tag in *.
    assert (Hattrs : Forall is_attribute [("name", TestSuite.Name s)]).
    { repeat constructor; done. }
    pose proof (Token_start "testsuite" _
                  (encode_all encode_case (TestSuite.TestCase s)
                   +:+ end_tag "testsuite"
                         (encode_all encode_suite suites
                          +:+ end_tag "testsuites" rest))
                  l (named "testsuites" :: st) tc ltac:(name_lit) Hattrs)
      as Htok.
    rewrite Htok. apply Token_weight in Htok.
    cbn [Local String.eqb Ascii.eqb Bool.eqb]. unfold bind at 1.
    unfold unmarshal_TestSuite, expected.
    cbn [Local String.eqb Ascii.eqb Bool.eqb]. rewrite assign_one.
    pose proof (unmarshal_TestSuite_loop_at (TestSuite.TestCase s) n'
                  {| TestSuite.XMLName := named "testsuite";
                     TestSuite.Name := TestSuite.Name s;
                     TestSuite.TestCase := [] |}
                  (encode_all encode_suite suites
                   +:+ end_tag "testsuites" rest)
                  l (named "testsuites" :: st) tc Hcases) as Hsub.
    unfold named in *. rewrite Hsub by lia.
    apply unmarshal_TestSuite_loop_weight in Hsub; [|lia].
    rewrite (IH n'); [|done|unfold named; lia].
    cbn [TestSuites.XMLName TestSuites.TestSuite TestSuites.Time
         TestSuites.Timestamp TestSuite.XMLName TestSuite.Name
         TestSuite.TestCase map app].
    by rewrite <- app_assoc.
Qed.

(** The decoder on the layout of a document, whatever follows it. *)
Lemma Decode_encode d rest n :
  plain_document d ->
  weight (NewDecoder (encode d +:+ rest)) < n ->
  Decode n (NewDecoder (encode d +:+ rest))
  = Some (Filled (decoded d), at_ rest 1 [] (named empty)).
Proof.
  intros (Htime & Hstamp & Hsuites) Hn.
  destruct (weight_pos _ _ Hn) as [n' ->]. cbn [Decode]. unfold bind at 1.
  change (NewDecoder ?s) with (at_ s 1 [] (named empty)) in *.
  rewrite encode_tags in *. unfold start_tag in *.
  assert (Hattrs : Forall is_attribute
            [("time", TestSuites.Time d);
             ("timestamp", TestSuites.Timestamp d)]).
  { repeat constructor; done. }
  pose proof (Token_start "testsuites" _
                (encode_all encode_suite (TestSuites.TestSuite d)
                 +:+ end_tag "testsuites" rest)
                1 [] (named empty) ltac:(name_lit) Hattrs) as Htok.
  rewrite Htok. apply Token_weight in Htok.
  unfold unmarshal_TestSuites, expected.
  cbn [Local String.eqb Ascii.eqb Bool.eqb].
  destruct (assign_two "time" (TestSuites.Time d)
              "timestamp" (TestSuites.Timestamp d)) as [-> ->]; [done|].
  pose proof (unmarshal_TestSuites_loop_at (TestSuites.TestSuite d) n'
                {| TestSuites.XMLName := named "testsuites";
                   TestSuites.TestSuite := [];
                   TestSuites.Time := TestSuites.Time d;
                   TestSuites.Timestamp := TestSuites.Timestamp d |}
                rest 1 [] (named empty) Hsuites) as Hsub.
  unfold named in *. by rewrite Hsub by lia.
Qed.

End roundtrip.

(** ** Concrete runs *)

(** C2, as stated, fails: printing the report of a document whose first
    case passes and whose second case fails leaves the report with its two
    rows exchanged. *)
Lemma C2_render_reorders_rows :
  report_of doc_pass_fail = Ret (report_for doc_pass_fail)
  /\ rows_of (report_for doc_pass_fail)
     = [["smoke"; "boot"; "`1`"; ":white_check_mark: Passed"];
        ["smoke"; "login"; "`1`"; ":x: Failed"]]
  /\ exists r',
       (Report.Print (report_for doc_pass_fail) empty).2 = Ret r'
       /\ rows_of r'
          = [["smoke"; "login"; "`1`"; ":x: Failed"];
             ["smoke"; "boot"; "`1`"; ":white_check_mark: Passed"]]
       /\ r' <> report_for doc_pass_fail.
Proof.
  split; [apply report_of_Ret|]. split; [by vm_compute|].
  exists (with_rows (report_for doc_pass_fail)
            (sort.Slice by_status (rows_of (report_for doc_pass_fail)))).
  split; [by vm_compute|]. split; [by vm_compute|].
  intros Heq. apply (f_equal rows_of) in Heq. vm_compute in Heq.
  discriminate Heq.
Qed.

(** C3, as stated, fails: of thirteen cases, twelve that pass and then one
    that fails, the passed rows are not written in the order of the
    document; the row of the seventh case comes first and the row of the
    second case last. *)
Lemma C3_unstable_at_thirteen :
  report_of doc_thirteen = Ret (report_for doc_thirteen)
  /\ exists r',
       (Report.Print (report_for doc_thirteen) empty).2 = Ret r'
       /\ map (fun row => row !!! 1%nat) (rows_of r')
          = ["t12"; "t06"; "t02"; "t03"; "t04"; "t05"; "t00"; "t07"; "t08";
             "t09"; "t10"; "t11"; "t01"]
       /\ map (fun row => row !!! 1%nat)
              (rows_with_status Passed (rows_of (report_for doc_thirteen)))
          = ["t00"; "t01"; "t02"; "t03"; "t04"; "t05"; "t06"; "t07"; "t08";
             "t09"; "t10"; "t11"]
       /\ rows_with_status Passed (rows_of r')
          <> rows_with_status Passed (rows_of (report_for doc_thirteen)).
Proof.
  split; [apply report_of_Ret|].
  exists (with_rows (report_for doc_thirteen)
            (sort.Slice by_status (rows_of (report_for doc_thirteen)))).
  split; [by vm_compute|]. split; [by vm_compute|]. split; [by vm_compute|].
  intros Heq. vm_compute in Heq. discriminate Heq.
Qed.

(** C8, as stated, fails: a report followed by bytes that are not XML is
    not a well-formed document, and it is decoded and rendered like the
    report alone; the run exits with code 0 and writes no failure
    notice. *)
Lemma C8_trailing_bytes_accepted :
  ends_in_markup stream_trailing = false
  /\ xml.Unmarshal stream_trailing = Some (Ok decoded_one_pass)
  /\ (forall outside,
        read_report (env_reading outside stream_trailing)
          "chainsaw-report.xml"
        = Ok decoded_one_pass
        /\ main (env_reading outside stream_trailing)
             "chainsaw-report.xml" empty =
           {| chosen := Some ToStdout;
              written :=
                "## E2E report :white_check_mark: Passed" +:+ nl
                +:+ "Started at `2024-01-01` took `1.5`" +:+ nl +:+ nl
                +:+ "![](https://img.shields.io/badge/tests-1_passed%2C_0_failed-green)"
                +:+ nl +:+ nl
                +:+ "Test Suite|Test Case|Time (s)|Status" +:+ nl
                +:+ "|||" +:+ nl
                +:+ "smoke|boot|`0.5`|:white_check_mark: Passed" +:+ nl;
              Stderr := empty;
              ended := Exit 0 |}).
Proof. repeat split; by vm_compute. Qed.

Lemma C2_render_sorts_rows_in_place_witness :
  exists r' w',
    Report.Print report_pass_fail empty = (w', Ret r')
    /\ rows_of r' ≡ₚ rows_of report_pass_fail
    /\ descending_status (rows_of r').
Proof.
  destruct (C2_render_sorts_rows_in_place report_pass_fail empty)
    as (r' & w' & Heq & _ & _ & _ & _ & _ & _ & _ & Hperm & Hd & _).
  - repeat constructor; discriminate.
  - by exists r', w'.
Defined.

Lemma C3_rows_by_descending_status_witness :
  exists r',
    (Report.Print report_pass_fail empty).2 = Ret r'
    /\ descending_status (rows_of r')
    /\ contiguous_status (rows_of r').
Proof.
  destruct (C3_rows_by_descending_status report_pass_fail empty)
    as (r' & Heq & _ & Hd & Hc & _).
  - repeat constructor; discriminate.
  - exists r'. by rewrite Heq.
Defined.

Lemma C4_second_render_identical_witness :
  exists r1 text,
    Report.Print report_pass_fail empty = (empty +:+ text, Ret r1)
    /\ forall w', Report.Print r1 w' = (w' +:+ text, Ret r1).
Proof.
  apply (C4_second_render_identical report_pass_fail empty).
  repeat constructor; discriminate.
Defined.

Lemma C8_malformed_input_witness :
  exists err,
    (forall w,
       generateMarkdown env_malformed "chainsaw-report.xml" w
       = (w, Ret (Some err)))
    /\ Unwrap err
       = Some (errorString "XML syntax error on line 1: unexpected EOF")
    /\ ended (main env_malformed "chainsaw-report.xml" empty) = Exit 1
    /\ written (main env_malformed "chainsaw-report.xml" empty)
       = "## Report generation failed :skull:" +:+ nl +:+ nl
          +:+ "```log" +:+ nl
          +:+ "failed to unmarshal XML: XML syntax error on line 1: unexpected EOF"
          +:+ nl +:+ "```" +:+ nl.
Proof.
  destruct (C8_malformed_input env_malformed "chainsaw-report.xml" empty ()
              "<testsuites"
              (errorString "XML syntax error on line 1: unexpected EOF"))
    as (err & Hgen & Hwrap & Herr & Hexit & _ & Hwritten).
  - reflexivity.
  - reflexivity.
  - reflexivity.
  - by constructor.
  - exists err. rewrite Herr in Hwritten. by repeat split.
Defined.

Lemma C9_no_partial_output_witness :
  (forall w,
     generateMarkdown env_missing "chainsaw-report.xml" w
     = (w, Ret (Some (Errorf_w "failed to open report file: "
                        (errorString
                           "open chainsaw-report.xml: no such file or directory")))))
  /\ written (main env_missing "chainsaw-report.xml" "report.md")
     = "## Report generation failed :skull:" +:+ nl +:+ nl
        +:+ "```log" +:+ nl
        +:+ "failed to open report file: open chainsaw-report.xml: no such file or directory"
        +:+ nl +:+ "```" +:+ nl.
Proof.
  destruct (C9_no_partial_output env_missing "chainsaw-report.xml" "report.md"
              (Errorf_w "failed to open report file: "
                 (errorString
                    "open chainsaw-report.xml: no such file or directory")))
    as (Hgen & Hwritten & _).
  - reflexivity.
  - split; [exact Hgen|]. rewrite Hwritten; [reflexivity|].
    by apply opens_file.
Defined.

(** The order in which the cases of [doc_fourteen] are printed. *)
Example fourteen_rows :
  map (fun row => row !!! 1%nat)
      (sort.Slice by_status (rows_of (report_for doc_fourteen)))
  = ["t06"; "t10"; "t07"; "t03"; "t04"; "t11"; "t08"; "t09";
     "t01"; "t12"; "t00"; "t05"; "t02"; "t13"].
Proof. by vm_compute. Qed.

(** The scenarios of the specification. *)

Example scenario_one_pass :
  main (env_of doc_one_pass) "chainsaw-report.xml" empty =
  {| chosen := Some ToStdout;
     written :=
       "## E2E report :white_check_mark: Passed" +:+ nl
       +:+ "Started at `2024-01-01` took `1.5`" +:+ nl +:+ nl
       +:+ "![](https://img.shields.io/badge/tests-1_passed%2C_0_failed-green)"
       +:+ nl +:+ nl
       +:+ "Test Suite|Test Case|Time (s)|Status" +:+ nl
       +:+ "|||" +:+ nl
       +:+ "smoke|boot|`0.5`|:white_check_mark: Passed" +:+ nl;
     Stderr := empty;
     ended := Exit 0 |}.
Proof. by vm_compute. Qed.

Example scenario_two_suites :
  main (env_of doc_two_suites) "chainsaw-report.xml" empty =
  {| chosen := Some ToStdout;
     written :=
       "## E2E report :x: Failed" +:+ nl
       +:+ "Started at `2024-01-01` took `2`" +:+ nl +:+ nl
       +:+ "![](https://img.shields.io/badge/tests-2_passed%2C_2_failed-red)"
       +:+ nl +:+ nl
       +:+ "Test Suite|Test Case|Time (s)|Status" +:+ nl
       +:+ "|||" +:+ nl
       +:+ "a|a2|`1`|:x: Failed" +:+ nl
       +:+ "b|b2|`1`|:x: Failed" +:+ nl
       +:+ "a|a1|`1`|:white_check_mark: Passed" +:+ nl
       +:+ "b|b1|`1`|:white_check_mark: Passed" +:+ nl;
     Stderr := empty;
     ended := Exit 0 |}.
Proof. by vm_compute. Qed.

Example scenario_no_suites :
  main (env_of (document [])) "chainsaw-report.xml" "report.md" =
  {| chosen := Some (ToFile "report.md");
     written :=
       "## E2E report :white_check_mark: Passed" +:+ nl
       +:+ "Started at `2024-01-01` took `2`" +:+ nl +:+ nl
       +:+ "![](https://img.shields.io/badge/tests-0_passed%2C_0_failed-green)"
       +:+ nl +:+ nl
       +:+ "Test Suite|Test Case|Time (s)|Status" +:+ nl
       +:+ "|||" +:+ nl;
     Stderr := empty;
     ended := Exit 0 |}.
Proof. by vm_compute. Qed.

(** ** Further properties: [contains] and the counters *)

Lemma contains_true slice value :
  contains slice value = true <-> value ∈ slice.
Proof.
  induction slice as [|v rest IH]; cbn.
  - split; [done|]. by intros ?%elem_of_nil.
  - rewrite elem_of_cons. destruct (String.eqb_spec v value) as [->|Hne].
    + split; [by left|done].
    + rewrite IH. split; [by right|]. intros [->|Hin]; done.
Qed.

(** X1: [contains] decides membership in the slice: it answers true when
    the value is an element of the slice, and false when it is not; on the
    empty slice it answers false. *)
Theorem contains_elem_of (slice : list string) (value : string) :
  contains slice value = bool_decide (value ∈ slice).
Proof.
  case_bool_decide as Hin.
  - by apply contains_true.
  - destruct (contains slice value) eqn:Hc; [|done].
    by apply contains_true in Hc.
Qed.

Lemma contains_not_elem_of slice value :
  contains slice value = false <-> value ∉ slice.
Proof. rewrite <- contains_true. by destruct (contains slice value). Qed.

(** The loop of [NewReport]: a row counts as a failure when one of its
    fields is the fail-label, and otherwise as a pass when one of its
    fields is the pass-label. *)
Lemma count_rows_contains rows : forall failures passes,
  0 <= failures -> 0 <= passes ->
  failures + Z.of_nat (length rows) <= int_max ->
  passes + Z.of_nat (length rows) <= int_max ->
  fold_left count_row rows (failures, passes)
  = (failures
     + Z.of_nat (length (filter (fun row => Failed ∈ row) rows)),
     passes
     + Z.of_nat (length (filter (fun row => (Failed ∉ row) /\ (Passed ∈ row))
                                rows))).
Proof.
  induction rows as [|row rows IH]; intros failures passes Hf Hp Hfmax Hpmax.
  - cbn. f_equal; lia.
  - cbn [fold_left length] in *. unfold count_row at 2.
    rewrite !filter_cons.
    destruct (contains row Failed) eqn:Hcf.
    + apply contains_true in Hcf.
      rewrite decide_True by done. rewrite decide_False by tauto.
      rewrite int_incr_small by lia. rewrite IH by lia.
      cbn [length]. f_equal; lia.
    + apply contains_not_elem_of in Hcf. rewrite decide_False by done.
      destruct (contains row Passed) eqn:Hcp.
      * apply contains_true in Hcp. rewrite decide_True by done.
        rewrite int_incr_small by lia. rewrite IH by lia.
        cbn [length]. f_equal; lia.
      * apply contains_not_elem_of in Hcp. rewrite decide_False by tauto.
        rewrite IH by lia. f_equal; lia.
Qed.

Lemma filter_disjoint_length {X : Type} (P Q : X -> Prop)
    `{!forall x, Decision (P x)} `{!forall x, Decision (Q x)} (l : list X) :
  (forall x, P x -> Q x -> False) ->
  (length (filter P l) + length (filter Q l) <= length l)%nat.
Proof.
  intros Hdisjoint. induction l as [|x l IH]; [done|].
  rewrite !filter_cons. specialize (Hdisjoint x).
  repeat case_decide; cbn [length]; try lia. tauto.
Qed.

(** X2: [NewReport] counts in [Failures] the rows that hold the fail-label
    in some field, and in [Passes] the other rows that hold the pass-label
    in some field; no row is counted twice. *)
Theorem NewReport_counts_rows (time timestamp : string) (table : Table.t) :
  Z.of_nat (length (Table.Rows table)) <= int_max ->
  Report.Failures (NewReport time timestamp table)
  = Z.of_nat (length (filter (fun row => Failed ∈ row) (Table.Rows table)))
  /\ Report.Passes (NewReport time timestamp table)
     = Z.of_nat (length (filter (fun row => (Failed ∉ row) /\ (Passed ∈ row))
                                (Table.Rows table)))
  /\ 0 <= Report.Failures (NewReport time timestamp table)
  /\ 0 <= Report.Passes (NewReport time timestamp table)
  /\ Report.Failures (NewReport time timestamp table)
     + Report.Passes (NewReport time timestamp table)
     <= Z.of_nat (length (Table.Rows table)).
Proof.
  intros Hlen.
  pose proof (NewReport_counters time timestamp table) as Hc.
  rewrite (count_rows_contains _ 0 0) in Hc by lia.
  injection Hc as -> ->.
  pose proof (filter_disjoint_length
                (fun row : list string => Failed ∈ row)
                (fun row : list string => (Failed ∉ row) /\ (Passed ∈ row))
                (Table.Rows table)) as Hsum.
  split; [lia|]. split; [lia|]. split; [lia|]. split; [lia|].
  assert ((length (filter (fun row : list string => Failed ∈ row)
                          (Table.Rows table))
           + length (filter (fun row : list string =>
                               (Failed ∉ row) /\ (Passed ∈ row))
                            (Table.Rows table))
           <= length (Table.Rows table))%nat) by (apply Hsum; tauto).
  lia.
Qed.

Lemma NewReport_counts_rows_witness :
  Report.Failures report_pass_fail = 1
  /\ Report.Passes report_pass_fail = 1.
Proof.
  destruct (NewReport_counts_rows "2" "2024-01-01"
              {| Table.Headers := headers;
                 Table.Separator := replicate 4 empty;
                 Table.Rows := map case_row (document_cases doc_pass_fail) |})
    as (Hf & Hp & _).
  - by vm_compute.
  - split; [exact Hf|exact Hp].
Defined.


(** The formatted time of a case is never a status label: it starts with a
    backtick. *)
Lemma formatted_time_not_label (time label : string) :
  label ∈ labels -> backtick +:+ time +:+ backtick <> label.
Proof.
  intros Hlabel. change (backtick +:+ time +:+ backtick)
    with (String "096"%char (time +:+ backtick)).
  unfold labels in Hlabel. rewrite !elem_of_cons in Hlabel.
  destruct Hlabel as [->| [->|Hnil]]; [done|done|].
  by apply elem_of_nil in Hnil.
Qed.

(** In the row of a case whose suite and case are not named like a label,
    a label stands in some field exactly when it is the status. *)
Lemma case_row_contains sc label :
  label ∈ labels ->
  TestSuite.Name (fst sc) ∉ labels -> TestCase.Name (snd sc) ∉ labels ->
  contains (case_row sc) label = bool_decide (last_field (case_row sc) = label).
Proof.
  intros Hlabel Hsuite Hcase. rewrite last_field_case_row.
  assert (Hiff : contains (case_row sc) label = true
                 <-> case_status sc.2 = label).
  { rewrite contains_true. unfold case_row. rewrite !elem_of_cons.
    split.
    - intros [->|[->|[->|[->|Hnil]]]]; try done.
      + by destruct (formatted_time_not_label (TestCase.Time sc.2) _ Hlabel).
      + by apply elem_of_nil in Hnil.
    - intros <-. tauto. }
  case_bool_decide as Hstatus.
  - by apply Hiff.
  - destruct (contains (case_row sc) label); [|done].
    destruct Hstatus. by apply Hiff.
Qed.

Lemma status_count_Failed_rows cases :
  status_count Failed (map case_row cases)
  = Z.of_nat (length (filter (fun sc : TestSuite.t * TestCase.t =>
                                is_Some (TestCase.Failure sc.2)) cases)).
Proof.
  induction cases as [|sc cases IH]; [done|].
  cbn [map]. rewrite status_count_cons, filter_cons, IH, last_field_case_row.
  unfold case_status.
  destruct (TestCase.Failure sc.2) as [f|].
  - rewrite decide_True by by eexists.
    rewrite (bool_decide_true (is_Some (Some f))) by by eexists.
    rewrite bool_decide_true by done. cbn [length]. lia.
  - rewrite decide_False by by intros [? ?].
    rewrite (bool_decide_false (is_Some None)) by by intros [? ?].
    rewrite bool_decide_false by (intros Heq; by apply Failed_ne_Passed).
    lia.
Qed.

Lemma status_count_Passed_rows cases :
  status_count Passed (map case_row cases)
  = Z.of_nat (length (filter (fun sc : TestSuite.t * TestCase.t =>
                                TestCase.Failure sc.2 = None) cases)).
Proof.
  induction cases as [|sc cases IH]; [done|].
  cbn [map]. rewrite status_count_cons, filter_cons, IH, last_field_case_row.
  unfold case_status.
  destruct (TestCase.Failure sc.2) as [f|].
  - rewrite decide_False by done.
    rewrite (bool_decide_true (is_Some (Some f))) by by eexists.
    rewrite bool_decide_false by apply Failed_ne_Passed. lia.
  - rewrite decide_True by done.
    rewrite (bool_decide_false (is_Some None)) by by intros [? ?].
    rewrite bool_decide_true by done. cbn [length]. lia.
Qed.

(** X3: for a document in which no suite and no case is named like a
    status label, the report counts in [Failures] the cases that carry a
    failure marker and in [Passes] the cases that carry none, and [OK] says
    that no case failed. *)
Theorem document_counts (d : TestSuites.t) :
  plain_names d ->
  Z.of_nat (case_count d) <= int_max ->
  Report.Failures (report_for d) = Z.of_nat (length (failed_cases d))
  /\ Report.Passes (report_for d) = Z.of_nat (length (passed_cases d))
  /\ (Report.OK (report_for d) = true <-> failed_cases d = []).
Proof.
  intros Hnames Hcount. unfold report_for, failed_cases, passed_cases.
  destruct (NewReport_counts_by_status
              (TestSuites.Time d) (TestSuites.Timestamp d)
              {| Table.Headers := headers;
                 Table.Separator := replicate 4 empty;
                 Table.Rows := map case_row (document_cases d) |})
    as [Hf Hp].
  { cbn [Table.Rows]. apply Forall_fmap. unfold plain_names in Hnames.
    eapply Forall_impl; [exact Hnames|]. intros sc [Hs Hc]. unfold compose.
    split; apply case_row_contains; try done; unfold labels;
      rewrite !elem_of_cons; tauto. }
  { cbn [Table.Rows]. by rewrite length_map, document_cases_length. }
  cbn [Table.Rows] in Hf, Hp.
  rewrite status_count_Failed_rows in Hf.
  rewrite status_count_Passed_rows in Hp.
  split; [done|]. split; [done|].
  rewrite NewReport_OK, Hf, Z.eqb_eq.
  rewrite <- length_zero_iff_nil. lia.
Qed.

Lemma document_counts_witness :
  Report.Failures (report_for doc_two_suites) = 2
  /\ Report.Passes (report_for doc_two_suites) = 2
  /\ Report.OK (report_for doc_two_suites) = false.
Proof.
  destruct (document_counts doc_two_suites) as (Hf & Hp & Hok).
  - repeat constructor; cbn; unfold labels; rewrite !elem_of_cons;
      intros [Heq|[Heq|Hnil]];
      (discriminate Heq || by apply elem_of_nil in Hnil).
  - by vm_compute.
  - split; [exact Hf|]. split; [exact Hp|].
    destruct (Report.OK (report_for doc_two_suites)); [|done].
    by specialize (proj1 Hok eq_refl).
Defined.


(** ** Further properties: the table *)

Lemma Add_Ret table row :
  length row = length (Table.Headers table) ->
  Table.Add table row =
  Ret {| Table.Headers := Table.Headers table;
         Table.Separator := Table.Separator table;
         Table.Rows := Table.Rows table ++ [row] |}.
Proof. intros Hlen. unfold Table.Add. by rewrite Hlen, Nat.eqb_refl. Qed.

Lemma Add_Panic table row :
  length row <> length (Table.Headers table) ->
  Table.Add table row = Panic "row length does not match header length".
Proof.
  intros Hlen. unfold Table.Add.
  by destruct (Nat.eqb_spec (length row) (length (Table.Headers table))).
Qed.

Lemma Add_rows rows : forall table,
  range_exec Table.Add rows table =
  if bool_decide (Forall (fun row => length row = length (Table.Headers table))
                         rows)
  then Ret {| Table.Headers := Table.Headers table;
              Table.Separator := Table.Separator table;
              Table.Rows := Table.Rows table ++ rows |}
  else Panic "row length does not match header length".
Proof.
  induction rows as [|row rows IH]; intros table.
  - rewrite bool_decide_true by done. cbn. rewrite app_nil_r.
    by destruct table.
  - change (range_exec Table.Add (row :: rows) table)
      with (table' ← Table.Add table row; range_exec Table.Add rows table').
    destruct (decide (length row = length (Table.Headers table)))
      as [Hlen|Hlen].
    + rewrite (Add_Ret table row Hlen).
      change (mbind ?k (Ret ?a)) with (k a). cbv beta. rewrite IH.
      cbn [Table.Headers Table.Separator Table.Rows].
      rewrite <- app_assoc. cbn [app].
      case_bool_decide as Hrest.
      * rewrite bool_decide_true; [done|]. by constructor.
      * rewrite bool_decide_false; [done|]. by intros [_ ?]%Forall_cons.
    + rewrite (Add_Panic table row Hlen).
      rewrite bool_decide_false; [done|]. by intros [? _]%Forall_cons.
Qed.

(** X4: adding rows to a new table one after the other gives the table of
    these rows, in the order they were added, with the headers and as many
    empty separator cells, when every row has one field per header; it
    panics when one of them has not. *)
Theorem NewTable_Add_rows (headers : list string) (rows : list (list string)) :
  range_exec Table.Add rows (NewTable headers) =
  if bool_decide (Forall (fun row => length row = length headers) rows)
  then Ret {| Table.Headers := headers;
              Table.Separator := replicate (length headers) empty;
              Table.Rows := rows |}
  else Panic "row length does not match header length".
Proof. by rewrite Add_rows. Qed.

(** X10: the separator row of a new table is printed as the delimiters
    alone, one less than there are headers: its cells are empty. *)
Theorem separator_line (headers : list string) :
  strings_Join (Table.Separator (NewTable headers)) "|"
  = bars (length headers - 1).
Proof.
  cbn [NewTable Table.Separator].
  induction (length headers) as [|n IH]; [done|].
  destruct n as [|n]; [done|].
  change (replicate (S (S n)) empty) with (empty :: replicate (S n) empty).
  change (strings_Join (empty :: replicate (S n) empty) "|")
    with (empty +:+ "|" +:+ strings_Join (replicate (S n) empty) "|").
  rewrite IH. by rewrite Nat.sub_succ, Nat.sub_0_r.
Qed.

(** ** Further properties: the lines of the table *)

Lemma count_char_app c (s1 s2 : string) :
  count_char c (s1 +:+ s2) = (count_char c s1 + count_char c s2)%nat.
Proof.
  induction s1 as [|x s1 IH]; [done|].
  rewrite append_cons. cbn [count_char]. rewrite IH. lia.
Qed.

Lemma Join_count_bar (row : list string) :
  count_char bar (strings_Join row "|")
  = (list_sum (map (count_char bar) row) + (length row - 1))%nat.
Proof.
  induction row as [|field row IH]; [done|].
  destruct row as [|field' row].
  - cbn. lia.
  - change (strings_Join (field :: field' :: row) "|")
      with (field +:+ "|" +:+ strings_Join (field' :: row) "|").
    rewrite !count_char_app, IH. cbn. lia.
Qed.

(** X11: [Print] does not escape the delimiter.  The line of a row holds
    the delimiters between its fields and those in its fields; the line of
    the row of a case holds three, and those in the names of the suite and
    of the case and in the time. *)
Theorem row_line_delimiters :
  (forall row : list string,
     count_char bar (strings_Join row "|")
     = (list_sum (map (count_char bar) row) + (length row - 1))%nat)
  /\ (forall sc : TestSuite.t * TestCase.t,
        count_char bar (strings_Join (case_row sc) "|")
        = (3 + count_char bar (TestSuite.Name sc.1)
           + count_char bar (TestCase.Name sc.2)
           + count_char bar (TestCase.Time sc.2))%nat).
Proof.
  split; [apply Join_count_bar|]. intros sc.
  rewrite Join_count_bar. unfold case_row. cbn [map list_sum length].
  rewrite !count_char_app. unfold case_status.
  by destruct (bool_decide _); cbn; lia.
Qed.

(** ** Further properties: [Print] and the order of the rows *)

(** X5: [Print] appends to the writer: what the writer held stays in front,
    and what is added does not depend on it, also when the call panics. *)
Theorem Print_appends (r : Report.t) :
  exists text, forall w, (Report.Print r w).1 = w +:+ text.
Proof.
  unfold Report.Print. cbv zeta.
  destruct ((2 <=? length (Table.Rows (Report.Table r)))%nat
            && existsb is_empty_row (Table.Rows (Report.Table r))).
  - exists (Report.print_head r empty). intros w. cbn [fst].
    apply print_head_app.
  - exists (Report.print_head r empty
            +:+ print_rows (sort.Slice by_status
                              (Table.Rows (Report.Table r))) empty).
    intros w. cbn [fst].
    by rewrite print_rows_app, print_head_app, append_assoc.
Qed.

(** X9: the comparison handed to [sort.Slice] is a strict weak order, as
    sorting needs: irreflexive, transitive, and with a transitive
    incomparability; two rows are incomparable exactly when their last fields
    are the same. *)
Theorem by_status_weak_order :
  (forall row, by_status row row = false)
  /\ (forall rowi rowj rowk,
        by_status rowi rowj = true -> by_status rowj rowk = true ->
        by_status rowi rowk = true)
  /\ (forall rowi rowj rowk,
        by_status rowi rowj = false -> by_status rowj rowk = false ->
        by_status rowi rowk = false)
  /\ (forall rowi rowj,
        by_status rowi rowj = false /\ by_status rowj rowi = false
        <-> last_field rowi = last_field rowj).
Proof.
  unfold by_status, string_gt. split; [|split; [|split]].
  - intros row. apply string_lt_irrefl.
  - intros rowi rowj rowk Hij Hjk. by eapply string_lt_trans.
  - intros rowi rowj rowk Hij Hjk. by eapply string_lt_negtrans.
  - intros rowi rowj. split.
    + intros [Hij Hji]. by apply string_lt_total.
    + intros ->. split; apply string_lt_irrefl.
Qed.

(** ** Further properties: runs *)

(** On a report file that parses, [generateMarkdown] returns nil, having
    written the head and the rows of the report in descending order of
    status. *)
Lemma generateMarkdown_Ok env reportPath w d :
  read_report env reportPath = Ok d ->
  generateMarkdown env reportPath w
  = (print_rows (sort.Slice by_status (rows_of (report_for d)))
       (Report.print_head (report_for d) w),
     Ret None).
Proof.
  intros Hread. rewrite (generateMarkdown_report env reportPath w d Hread).
  by rewrite report_of_Ret, (Print_Ret _ w (report_for_nonempty d)).
Qed.

(** The sink opens or it does not. *)
Lemma classic_sink env outputPath :
  sink_opens env outputPath \/ ~ sink_opens env outputPath.
Proof.
  destruct (String.eqb_spec outputPath empty) as [Hpath|Hpath].
  - left. by left.
  - destruct (os_Create env outputPath) as [[]|e] eqn:Hcreate.
    + left. by right.
    + right. intros [Hp|Hc]; [done|]. by rewrite Hcreate in Hc.
Qed.

(** Once the flags are parsed, a run exits with code 0 exactly when it
    could open its sink and read and parse the report, whether or not tests
    failed; it exits with code 1 otherwise. *)
Lemma main_ended (env : Env) (reportPath outputPath : string) :
  (ended (main env reportPath outputPath) = Exit 0
   <-> sink_opens env outputPath
       /\ exists d, read_report env reportPath = Ok d)
  /\ (ended (main env reportPath outputPath) = Exit 0
      \/ ended (main env reportPath outputPath) = Exit 1).
Proof.
  destruct (classic_sink env outputPath) as [Hsink|Hsink].
  - destruct (main_sink env reportPath outputPath Hsink)
      as (writer & _ & Hmain).
    destruct (read_report env reportPath) as [d|err] eqn:Hread.
    + rewrite (generateMarkdown_Ok env reportPath empty d Hread) in Hmain.
      rewrite Hmain. cbn. split; [|by left].
      split; [|done]. intros _. split; [done|]. by exists d.
    + rewrite (generateMarkdown_read_fails env reportPath empty err Hread)
        in Hmain.
      rewrite Hmain. cbn. split; [|by right].
      split; [done|]. by intros [_ [d Hd]].
  - assert (Hmain : ended (main env reportPath outputPath) = Exit 1).
    { unfold main. destruct (String.eqb_spec outputPath empty) as [Hpath|_].
      - destruct Hsink. by left.
      - destruct (os_Create env outputPath) as [[]|e] eqn:Hcreate; [|done].
        destruct Hsink. by right. }
    rewrite Hmain. split; [|by right]. split; [done|]. by intros [? _].
Qed.

Lemma main_read_fails_exit env reportPath outputPath err :
  read_report env reportPath = Err err ->
  ended (main env reportPath outputPath) = Exit 1.
Proof.
  intros Hread. destruct (classic_sink env outputPath) as [Hsink|Hsink].
  - destruct (main_sink env reportPath outputPath Hsink)
      as (writer & _ & Hmain).
    rewrite (generateMarkdown_read_fails env reportPath empty err Hread)
      in Hmain.
    by rewrite Hmain.
  - unfold main. destruct (String.eqb_spec outputPath empty) as [Hpath|_].
    + destruct Hsink. by left.
    + destruct (os_Create env outputPath) as [[]|e] eqn:Hcreate; [|done].
      destruct Hsink. by right.
Qed.

(** X7: whichever of opening, reading and parsing the report fails, the
    error of [generateMarkdown] wraps the cause, its text is the text of the
    cause after the prefix of the step that failed, and the run exits with
    code 1. *)
Theorem input_failure (env : Env) (reportPath outputPath : string)
    (err : error) :
  read_report env reportPath = Err err ->
  (exists cause prefix,
     prefix ∈ ["failed to open report file: ";
               "failed to read report file: ";
               "failed to unmarshal XML: "]
     /\ Unwrap err = Some cause
     /\ Error err = prefix +:+ Error cause)
  /\ ended (main env reportPath outputPath) = Exit 1.
Proof.
  intros Hread. split.
  - apply read_report_Err in Hread
      as [(c & _ & ->)|[(f & c & _ & _ & ->)|(f & d & c & _ & _ & _ & ->)]];
      eexists c, _; (split; [|split; reflexivity]);
      rewrite !elem_of_cons; tauto.
  - by apply (main_read_fails_exit env reportPath outputPath err).
Qed.

Lemma input_failure_witness :
  (exists cause prefix,
     prefix ∈ ["failed to open report file: ";
               "failed to read report file: ";
               "failed to unmarshal XML: "]
     /\ Unwrap (Errorf_w "failed to open report file: "
                  (errorString
                     "open chainsaw-report.xml: no such file or directory"))
        = Some cause
     /\ Error (Errorf_w "failed to open report file: "
                 (errorString
                    "open chainsaw-report.xml: no such file or directory"))
        = prefix +:+ Error cause)
  /\ ended (main env_missing "chainsaw-report.xml" empty) = Exit 1.
Proof.
  apply (input_failure env_missing "chainsaw-report.xml" empty).
  reflexivity.
Defined.

(** X8: when the output file cannot be created, the run reports that on
    standard error and exits with code 1; it opens no sink, writes no
    markdown, and what the report file holds plays no part. *)
Theorem main_create_fails (env : Env) (reportPath outputPath : string)
    (cause : error) :
  outputPath <> empty ->
  os_Create env outputPath = Err cause ->
  main env reportPath outputPath =
  {| chosen := None;
     written := empty;
     Stderr := "failed to open output file: " +:+ Error cause +:+ nl;
     ended := Exit 1 |}.
Proof.
  intros Hpath Hcreate. unfold main.
  destruct (String.eqb_spec outputPath empty) as [Heq|_]; [done|].
  by rewrite Hcreate.
Qed.

Lemma main_create_fails_witness :
  main env_no_output "chainsaw-report.xml" "/report.md" =
  {| chosen := None;
     written := empty;
     Stderr := "failed to open output file: "
               +:+ "open /report.md: permission denied" +:+ nl;
     ended := Exit 1 |}.
Proof.
  apply (main_create_fails env_no_output "chainsaw-report.xml" "/report.md"
           (errorString "open /report.md: permission denied")).
  - discriminate.
  - reflexivity.
Defined.

(** ** Further properties: the command line *)



(** A round of [Parse] that has seen a flag leaves fewer arguments. *)
Lemma parseOne_Seen (f f' : flag.FlagSet) :
  flag.parseOne f = flag.Seen f' ->
  (length (flag.args f') < length (flag.args f))%nat.
Proof.
  unfold flag.parseOne. destruct (flag.args f) as [|s rest] eqn:Hargs; [done|].
  destruct (_ || _); [done|]. destruct (_ && _); [done|].
  destruct (string_from _ s) as [|c name]; [done|].
  destruct (_ || _); [done|]. cbn [flag.args].
  destruct (flag.cut_value name) as [name' value].
  unfold flag.formal.
  destruct (String.eqb _ "file").
  { destruct value; [intros [= <-]; cbn; lia|].
    destruct rest; [done|]. intros [= <-]. cbn. lia. }
  destruct (String.eqb _ "output").
  { destruct value; [intros [= <-]; cbn; lia|].
    destruct rest; [done|]. intros [= <-]. cbn. lia. }
  by destruct (_ || _).
Qed.

(** The loop of [Parse] does not need more rounds than there are
    arguments. *)
Lemma Parse_loop_fuel (n : nat) : forall (f : flag.FlagSet) (m : nat),
  (length (flag.args f) <= n)%nat -> (length (flag.args f) <= m)%nat ->
  flag.Parse_loop n f = flag.Parse_loop m f.
Proof.
  induction n as [|n IH]; intros f m Hn Hm.
  - destruct m as [|m]; [done|]. cbn.
    destruct (flag.parseOne f) as [f'| | |] eqn:Hone; try done.
    apply parseOne_Seen in Hone. lia.
  - cbn. destruct (flag.parseOne f) as [f'| | |] eqn:Hone;
      try by destruct m; cbn; rewrite Hone.
    pose proof (parseOne_Seen _ _ Hone) as Hless.
    destruct m as [|m]; [lia|]. cbn. rewrite Hone. apply IH; lia.
Qed.

(** X6: a run exits with code 0 exactly when it was asked for help, or
    when its flags parse, its sink opens and its report is read and
    decoded, whether or not tests failed; with code 2 exactly when its flags
    do not parse; with code 1 otherwise.  No run ends in a panic. *)
Theorem command_exit_code (env : Env) (program : string)
    (arguments : list string) :
  (ended (command env program arguments) = Exit 0
   <-> flag_Parse arguments = flag.Help
       \/ exists reportPath outputPath,
            flag_Parse arguments = flag.Flags reportPath outputPath
            /\ sink_opens env outputPath
            /\ exists d, read_report env reportPath = Ok d)
  /\ (ended (command env program arguments) = Exit 2
      <-> exists msg, flag_Parse arguments = flag.BadFlag msg)
  /\ (ended (command env program arguments) = Exit 0
      \/ ended (command env program arguments) = Exit 1
      \/ ended (command env program arguments) = Exit 2).
Proof.
  unfold command.
  destruct (flag_Parse arguments) as [reportPath outputPath| |msg].
  - destruct (main_ended env reportPath outputPath) as [Hzero Hcode].
    split; [|split].
    + rewrite Hzero. split.
      * intros [Hsink Hread]. right. by exists reportPath, outputPath.
      * intros [|(f & o & [= <- <-] & Hsink & Hread)]; done.
    + split; [|by intros [msg ?]].
      intros Htwo. by destruct Hcode as [Hc|Hc]; rewrite Hc in Htwo.
    + tauto.
  - cbn. split; [|split]; [|split; [done|by intros [msg ?]]|by left].
    split; [by left|done].
  - cbn. split; [|split]; [| |by right; right].
    + split; [done|]. by intros [|(f & o & ? & _)].
    + split; [by exists msg|done].
Qed.






(** ** Further properties: the decoder *)





(** ** Further properties: reports in their layout *)

(** X16: a report laid out with its elements and attributes, all of
    whose names, times and failure texts are plain, is decoded to the
    document it lays out, whatever bytes follow it. *)
Theorem Unmarshal_encode (d : TestSuites.t) (rest : string) :
  plain_document d ->
  xml.Unmarshal (encode d +:+ rest) = Some (Ok (decoded d)).
Proof.
  intros Hplain. unfold xml.Unmarshal.
  rewrite (Decode_encode d rest _ Hplain); [done|].
  unfold xml.weight, xml.unread. cbn [xml.NewDecoder xml.r xml.needClose].
  lia.
Qed.


Lemma Unmarshal_encode_witness :
  xml.Unmarshal (encode doc_pass_fail +:+ empty)
  = Some (Ok (decoded doc_pass_fail)).
Proof.
  apply (Unmarshal_encode doc_pass_fail empty).
  repeat split; repeat constructor.
Defined.

Lemma case_rows_decoded (d : TestSuites.t) :
  map case_row (document_cases (decoded d))
  = map case_row (document_cases d).
Proof.
  unfold document_cases, decoded. cbn [TestSuites.TestSuite].
  induction (TestSuites.TestSuite d) as [|s suites IH]; [done|].
  cbn [map flat_map]. rewrite !map_app, IH. f_equal.
  cbn [TestSuite.TestCase]. rewrite !map_map. done.
Qed.

Lemma report_for_decoded (d : TestSuites.t) :
  report_for (decoded d) = report_for d.
Proof. unfold report_for. by rewrite case_rows_decoded. Qed.

Lemma read_report_encode outside d rest reportPath :
  plain_document d ->
  read_report (env_reading outside (encode d +:+ rest)) reportPath
  = Ok (decoded d).
Proof.
  intros Hplain. unfold read_report, env_reading.
  cbn [os_Open io_ReadAll xml_Unmarshal]. unfold xml.Unmarshal.
  rewrite (Decode_encode d rest _ Hplain); [done|].
  unfold xml.weight, xml.unread. cbn [xml.NewDecoder xml.r xml.needClose].
  lia.
Qed.

(** X17: from the command line to the markdown: for a report laid out in
    the file named by [-file], the run writes the head and one line per
    case, the lines in the order of the sort, to standard output, and
    exits with code 0. *)
Theorem command_on_layout (outside : string -> result TestSuites.t)
    (d : TestSuites.t) (rest program reportPath : string) :
  plain_document d ->
  command (env_reading outside (encode d +:+ rest)) program
    ["-file"; reportPath]
  = {| chosen := Some ToStdout;
       written :=
         print_rows (sort.Slice by_status (map case_row (document_cases d)))
           (Report.print_head (report_for d) empty);
       Stderr := empty;
       ended := Exit 0 |}.
Proof.
  intros Hplain.
  change (command ?env program ["-file"; reportPath])
    with (main env reportPath empty).
  unfold main. cbn [String.eqb].
  rewrite (generateMarkdown_Ok _ reportPath empty (decoded d))
    by by apply read_report_encode.
  by rewrite report_for_decoded, rows_of_report_for.
Qed.

Lemma command_on_layout_witness :
  command
    (env_reading (fun _ => Err (errorString "EOF"))
       (encode doc_pass_fail +:+ "trailing bytes"))
    "report" ["-file"; "chainsaw-report.xml"]
  = {| chosen := Some ToStdout;
       written :=
         print_rows
           (sort.Slice by_status (map case_row (document_cases doc_pass_fail)))
           (Report.print_head (report_for doc_pass_fail) empty);
       Stderr := empty;
       ended := Exit 0 |}.
Proof.
  apply (command_on_layout (fun _ => Err (errorString "EOF")) doc_pass_fail
           "trailing bytes" "report" "chainsaw-report.xml").
  repeat split; repeat constructor.
Defined.
